(** * drf_yasg.codecs: validation pipeline, JSON and YAML codecs

    A shallow embedding of [src/drf_yasg/codecs.py].  Python objects that the
    module shares and mutates (the converted [spec], the copies handed to the
    validators) live in an explicit heap; a function of the module becomes a
    heap transformer that returns either a value or the exception it raised. *)

From Stdlib Require Import ZArith Lia Ascii String DecimalString DecimalPos DecimalZ.
From stdpp Require Import base option list strings gmap.

Set Warnings "-register-all".

(** ** Characters that cannot be written inside a string literal *)

Definition dquote : ascii := "034"%char.
Definition squote : ascii := "039"%char.
Definition backslash : ascii := "092"%char.
Definition newline : ascii := "010"%char.
Definition chr (c : ascii) : string := String c EmptyString.

(** ** Python values and the object heap *)

Abbreviation loc := nat.

(** Immutable scalars are values; containers are references into the heap.
    Floats are not modelled. *)
Inductive pyval :=
| PNone
| PBool (b : bool)
| PInt (z : Z)
| PStr (s : string)
| PRef (l : loc).

(** The mutable containers: the two a converted document is made of, and the
    plain [dict] a caller may hand to [encode_error].  Both kinds of dict
    keep their items in insertion order; they differ in their class, which is
    what the YAML representer dispatches on. *)
Inductive pyobj :=
| POrderedDict (items : list (string * pyval))
| PList (elems : list pyval)
| PDict (items : list (string * pyval)).

Abbreviation heap := (list pyobj).

Definition obj_values (o : pyobj) : list pyval :=
  match o with
  | POrderedDict items => items.*2
  | PList elems => elems
  | PDict items => items.*2
  end.

(** [d[k] = v] on an insertion-ordered dict: an existing key keeps its place. *)
Fixpoint dict_set {V} (d : list (string * V)) (k : string) (v : V) : list (string * V) :=
  match d with
  | [] => [(k, v)]
  | (k', v') :: r => if String.eqb k k' then (k, v) :: r else (k', v') :: dict_set r k v
  end.

(** [OrderedDict(pairs)] *)
Definition OrderedDict_of_pairs {V} (pairs : list (string * V)) : list (string * V) :=
  foldl (fun d kv => dict_set d kv.1 kv.2) [] pairs.

(** ** Documents as trees

    The value a heap reference denotes when the structure below it is a tree:
    this is what [==] compares and what the serializers walk. *)
Inductive doc :=
| DNone
| DBool (b : bool)
| DInt (z : Z)
| DStr (s : string)
| DList (xs : list doc)
| DDict (items : list (string * doc)).

Fixpoint depth (d : doc) : nat :=
  match d with
  | DList xs => S (foldr Nat.max 0 (map depth xs))
  | DDict items => S (foldr Nat.max 0 (map (fun kx => depth kx.2) items))
  | _ => 0
  end.

(** The number of nested nodes on the longest branch of the graph of [d]. *)
Fixpoint doc_height (d : doc) : nat :=
  match d with
  | DList xs => S (foldr Nat.max 0 (map doc_height xs))
  | DDict items => S (foldr Nat.max 0 (map (fun kx => doc_height kx.2) items))
  | _ => 1
  end.

(** Keys of every mapping are pairwise distinct, at every level. *)
Fixpoint unique_keys (d : doc) : bool :=
  match d with
  | DList xs => forallb unique_keys xs
  | DDict items =>
      bool_decide (NoDup items.*1) && forallb (fun kx => unique_keys kx.2) items
  | _ => true
  end.

(** Thread the heap through the allocation of a list of children. *)
Definition alloc_all {A} (f : A -> heap -> pyval * heap)
  : list A -> heap -> list pyval * heap :=
  fix go xs h :=
    match xs with
    | [] => ([], h)
    | x :: r =>
        let '(v, h1) := f x h in
        let '(vs, h2) := go r h1 in
        (v :: vs, h2)
    end.

(** Build fresh heap objects for a tree.  A location is only an identity, so
    the order in which fresh objects are numbered carries no meaning. *)
Fixpoint alloc (d : doc) (h : heap) {struct d} : pyval * heap :=
  match d with
  | DNone => (PNone, h)
  | DBool b => (PBool b, h)
  | DInt z => (PInt z, h)
  | DStr s => (PStr s, h)
  | DList xs =>
      let '(vs, h') := alloc_all alloc xs h in
      (PRef (length h'), h' ++ [PList vs])
  | DDict items =>
      let '(vs, h') := alloc_all (fun kx => alloc kx.2) items h in
      (PRef (length h'), h' ++ [POrderedDict (zip items.*1 vs)])
  end.

(** Read the tree below a value, descending at most [n] containers.  A
    document is made of [OrderedDict]s and lists; a plain dict is not part of
    one. *)
Fixpoint reify_fuel (n : nat) (h : heap) (v : pyval) : option doc :=
  match v with
  | PNone => Some DNone
  | PBool b => Some (DBool b)
  | PInt z => Some (DInt z)
  | PStr s => Some (DStr s)
  | PRef l =>
      match n with
      | 0 => None
      | S n' =>
          match h !! l with
          | None => None
          | Some (PList elems) =>
              xs ← mapM (reify_fuel n' h) elems; Some (DList xs)
          | Some (POrderedDict items) =>
              xs ← mapM (reify_fuel n' h) items.*2; Some (DDict (zip items.*1 xs))
          | Some (PDict _) => None
          end
      end
  end.

(** No acyclic structure nests deeper than the number of objects in the heap,
    so [None] means that the walk met a cycle, a dangling reference or a
    plain dict. *)
Definition reify (h : heap) (v : pyval) : option doc := reify_fuel (length h) h v.

(** The tree [json.dumps] walks: to it every dict is a mapping with its items
    in insertion order, whatever its class. *)
Fixpoint json_tree_fuel (n : nat) (h : heap) (v : pyval) : option doc :=
  match v with
  | PNone => Some DNone
  | PBool b => Some (DBool b)
  | PInt z => Some (DInt z)
  | PStr s => Some (DStr s)
  | PRef l =>
      match n with
      | 0 => None
      | S n' =>
          match h !! l with
          | None => None
          | Some (PList elems) =>
              xs ← mapM (json_tree_fuel n' h) elems; Some (DList xs)
          | Some (POrderedDict items) | Some (PDict items) =>
              xs ← mapM (json_tree_fuel n' h) items.*2; Some (DDict (zip items.*1 xs))
          end
      end
  end.

Definition json_tree (h : heap) (v : pyval) : option doc := json_tree_fuel (length h) h v.

(** ** [copy.deepcopy]

    The memo maps an object already copied to its copy, so that an object
    reached twice is copied once.  A container is numbered after its children
    (CPython creates it before them, which only matters for cyclic inputs:
    there the walk below runs out of fuel). *)
Definition copy_all (f : pyval -> gmap loc loc -> heap -> option (pyval * gmap loc loc * heap))
  : list pyval -> gmap loc loc -> heap -> option (list pyval * gmap loc loc * heap) :=
  fix go vs memo h :=
    match vs with
    | [] => Some ([], memo, h)
    | v :: r =>
        match f v memo h with
        | None => None
        | Some (v', memo1, h1) =>
            match go r memo1 h1 with
            | None => None
            | Some (vs', memo2, h2) => Some (v' :: vs', memo2, h2)
            end
        end
    end.

Fixpoint deepcopy_fuel (n : nat) (v : pyval) (memo : gmap loc loc) (h : heap)
  : option (pyval * gmap loc loc * heap) :=
  match v with
  | PRef l =>
      match memo !! l with
      | Some y => Some (PRef y, memo, h)
      | None =>
          match n with
          | 0 => None
          | S n' =>
              match h !! l with
              | None => None
              | Some o =>
                  match copy_all (deepcopy_fuel n') (obj_values o) memo h with
                  | None => None
                  | Some (vs', memo', h') =>
                      let y := length h' in
                      let o' := match o with
                                | POrderedDict items => POrderedDict (zip items.*1 vs')
                                | PList _ => PList vs'
                                | PDict items => PDict (zip items.*1 vs')
                                end in
                      Some (PRef y, <[l:=y]> memo', h' ++ [o'])
                  end
              end
          end
      end
  | _ => Some (v, memo, h)
  end.

(** [copy.deepcopy(x)]: a fresh memo for every call. *)
Definition deepcopy (h : heap) (v : pyval) : option (pyval * heap) :=
  match deepcopy_fuel (length h) v ∅ h with
  | Some (v', _, h') => Some (v', h')
  | None => None
  end.

(** ** Reachability in the heap *)

Definition points_to (h : heap) (p q : loc) : Prop :=
  exists o, h !! p = Some o /\ PRef q ∈ obj_values o.

(** [reach h p q]: object [q] can be reached from object [p]. *)
Inductive reach (h : heap) : loc -> loc -> Prop :=
| reach_refl p : reach h p p
| reach_step p q r : points_to h p q -> reach h q r -> reach h p r.

Definition reach_from (h : heap) (v : pyval) (p : loc) : Prop :=
  exists l, v = PRef l /\ reach h l p.

(** Values and objects whose references all satisfy [P]. *)
Definition val_in (P : loc -> Prop) (v : pyval) : Prop :=
  match v with PRef l => P l | _ => True end.

Definition closed_in (P : loc -> Prop) (h : heap) : Prop :=
  forall p o, P p -> h !! p = Some o -> Forall (val_in P) (obj_values o).

Definition agree_on (P : loc -> Prop) (h h' : heap) : Prop :=
  forall p, P p -> h' !! p = h !! p.

(** ** Exceptions and results *)

(** The two concrete codecs.  [_OpenAPICodec] itself is abstract: its
    [_dump_dict] only says that it must be overridden. *)
Inductive codec :=
| OpenAPICodecJson (validators : list string) (pretty : bool) (media_type : string)
| OpenAPICodecYaml (validators : list string) (media_type : string).

(** The [validators] property. *)
Definition validators (self : codec) : list string :=
  match self with
  | OpenAPICodecJson vs _ _ => vs
  | OpenAPICodecYaml vs _ => vs
  end.

(** Modelled from the spec: [SwaggerValidationError] of [drf_yasg.errors],
    which is not among the sources.  Its constructor takes the message, the
    per-validator message map, the offending document and the encoder. *)
Inductive exn :=
| TypeError (msg : string)
| KeyError (key : string)
| ImportError (name : string)
| IndexError
| ValueError (msg : string)
| RecursionError
| SwaggerValidationError (msg : string) (errors : option (list (string * string)))
    (spec : option pyval) (source_codec : option codec)
| ForeignError (cls msg : string).

(** The class an exception is caught as (a missing module is reported by a
    subclass of [ImportError]). *)
Definition exn_class (e : exn) : string :=
  match e with
  | TypeError _ => "TypeError"
  | KeyError _ => "KeyError"
  | ImportError _ => "ImportError"
  | IndexError => "IndexError"
  | ValueError _ => "ValueError"
  | RecursionError => "RecursionError"
  | SwaggerValidationError _ _ _ _ => "SwaggerValidationError"
  | ForeignError cls _ => cls
  end.

Inductive result (A : Type) :=
| Ok (a : A)
| Raise (e : exn).
Arguments Ok {A} a.
Arguments Raise {A} e.

(** ** [json.dumps] with [ensure_ascii=False]

    Strings are UTF-8 byte strings, so a character outside ASCII is a run of
    bytes above 127. *)

Definition string_of_Z (z : Z) : string := NilZero.string_of_int (Z.to_int z).

Fixpoint string_bind (f : ascii -> string) (s : string) : string :=
  match s with
  | EmptyString => EmptyString
  | String c r => f c +:+ string_bind f r
  end.

Definition hex_digit (n : N) : ascii :=
  ascii_of_N (if (n <? 10)%N then 48 + n else 87 + n).

(** [ESCAPE_DCT]: the quote, the backslash and the control characters. *)
Definition json_escape_char (c : ascii) : string :=
  if Ascii.eqb c dquote then String backslash (chr dquote)
  else if Ascii.eqb c backslash then String backslash (chr backslash)
  else if Ascii.eqb c newline then String backslash "n"
  else if Ascii.eqb c "013" then String backslash "r"
  else if Ascii.eqb c "009" then String backslash "t"
  else if Ascii.eqb c "008" then String backslash "b"
  else if Ascii.eqb c "012" then String backslash "f"
  else if (N_of_ascii c <? 32)%N then
    String backslash "u00" +:+ chr (hex_digit (N_of_ascii c / 16))
      +:+ chr (hex_digit (N_of_ascii c mod 16))
  else chr c.

Definition py_encode_basestring (s : string) : string :=
  chr dquote +:+ string_bind json_escape_char s +:+ chr dquote.

Record json_options := {
  indent : option nat;
  item_separator : string;
  key_separator : string
}.

Fixpoint spaces (n : nat) : string :=
  match n with
  | 0 => EmptyString
  | S n' => String " " (spaces n')
  end.

Definition newline_indent (o : json_options) (level : nat) : string :=
  match indent o with
  | None => EmptyString
  | Some k => String newline (spaces (k * level))
  end.

(** The encoder walks mappings and sequences in their own order. *)
Fixpoint json_encode (o : json_options) (level : nat) (d : doc) : string :=
  match d with
  | DNone => "null"
  | DBool true => "true"
  | DBool false => "false"
  | DInt z => string_of_Z z
  | DStr s => py_encode_basestring s
  | DList xs =>
      match xs with
      | [] => "[]"
      | _ :: _ =>
          "[" +:+ newline_indent o (S level)
            +:+ String.concat (item_separator o +:+ newline_indent o (S level))
                  (map (json_encode o (S level)) xs)
            +:+ newline_indent o level +:+ "]"
      end
  | DDict items =>
      match items with
      | [] => "{}"
      | _ :: _ =>
          "{" +:+ newline_indent o (S level)
            +:+ String.concat (item_separator o +:+ newline_indent o (S level))
                  (map (fun kx => py_encode_basestring kx.1 +:+ key_separator o
                                    +:+ json_encode o (S level) kx.2) items)
            +:+ newline_indent o level +:+ "}"
      end
  end.

Definition json_dumps (o : json_options) (d : doc) : string := json_encode o 0 d.

(** [json.dumps(spec, indent=4, separators=(",", ": "), ensure_ascii=False)] *)
Definition pretty_options : json_options :=
  {| indent := Some 4; item_separator := ","; key_separator := ": " |}.

(** [json.dumps(spec, ensure_ascii=False)]: without [indent] the separators
    default to [(", ", ": ")]. *)
Definition default_options : json_options :=
  {| indent := None; item_separator := ", "; key_separator := ": " |}.

Fixpoint last_char (s : string) : option ascii :=
  match s with
  | EmptyString => None
  | String c EmptyString => Some c
  | String _ r => last_char r
  end.

(** [OpenAPICodecJson._dump_dict] on the tree that [spec] denotes. *)
Definition json_dump_dict (pretty : bool) (spec : doc) : result string :=
  if pretty then
    let out := json_dumps pretty_options spec in
    match last_char out with
    | None => Raise IndexError
    | Some c => if Ascii.eqb c newline then Ok out else Ok (out +:+ chr newline)
    end
  else Ok (json_dumps default_options spec).

(** ** YAML representation graph

    The node graph that the representer hands to the serializer.  When the
    representer meets an object whose node is already registered under an
    alias key it returns that same node again; [SharedNode] stands for such a
    second occurrence, which the serializer writes as an alias to an anchor. *)
Inductive node :=
| ScalarNode (tag value : string) (style : option ascii)
| SequenceNode (tag : string) (value : list node) (flow_style : option bool)
| MappingNode (tag : string) (value : list (node * node)) (flow_style : option bool)
| SharedNode (alias_key : loc).

Definition YAML_MAP_TAG : string := "tag:yaml.org,2002:map".
Definition YAML_SEQ_TAG : string := "tag:yaml.org,2002:seq".
Definition YAML_STR_TAG : string := "tag:yaml.org,2002:str".
Definition YAML_INT_TAG : string := "tag:yaml.org,2002:int".
Definition YAML_BOOL_TAG : string := "tag:yaml.org,2002:bool".
Definition YAML_NULL_TAG : string := "tag:yaml.org,2002:null".
Definition YAML_MERGE_TAG : string := "tag:yaml.org,2002:merge".
Definition YAML_VALUE_TAG : string := "tag:yaml.org,2002:value".

(** What the module takes from its runtime without defining it: [repr] of a
    string, and the text layer of the YAML library (serializer and emitter of
    [SaneYamlDumper], with its [increase_indent]; scanner, parser and composer
    of [SaneYamlLoader]). *)
Record library := {
  py_repr : string -> string;
  yaml_emit : node -> string;
  yaml_compose : string -> option node
}.

(** The settings [yaml.dump] builds the dumper with, and the method the dumper
    class answers [ignore_aliases] with. *)
Record dumper := {
  ignore_aliases : pyval -> bool;
  default_style : option ascii;
  default_flow_style : option bool
}.

(** [SafeRepresenter.ignore_aliases]: only scalars are never aliased. *)
Definition SafeDumper_ignore_aliases (data : pyval) : bool :=
  match data with
  | PRef _ => false
  | _ => true
  end.

(** [SaneYamlDumper.ignore_aliases]: disable YAML references. *)
Definition SaneYamlDumper_ignore_aliases (data : pyval) : bool := true.

(** The dumper of [yaml_sane_dump]: [default_flow_style=False]. *)
Definition SaneYamlDumper : dumper :=
  {| ignore_aliases := SaneYamlDumper_ignore_aliases;
     default_style := None;
     default_flow_style := Some false |}.

(** The same settings on the library's own class. *)
Definition SafeDumper : dumper :=
  {| ignore_aliases := SafeDumper_ignore_aliases;
     default_style := None;
     default_flow_style := Some false |}.

Definition represent_scalar (self : dumper) (tag value : string) (style : option ascii) : node :=
  ScalarNode tag value (match style with None => default_style self | Some _ => style end).

Fixpoint contains_char (c : ascii) (s : string) : bool :=
  match s with
  | EmptyString => false
  | String c' r => Ascii.eqb c c' || contains_char c r
  end.

(** [SaneYamlDumper.represent_text] *)
Definition represent_text (self : dumper) (text : string) : node :=
  if contains_char newline text
  then represent_scalar self YAML_STR_TAG text (Some "|"%char)
  else represent_scalar self YAML_STR_TAG text None.

(** [isinstance(n, ScalarNode) and not n.style] *)
Definition plain_scalar (n : node) : bool :=
  match n with
  | ScalarNode _ _ None => true
  | _ => false
  end.

Definition register (alias_key : option loc) (represented_objects : gset loc) : gset loc :=
  match alias_key with
  | Some k => {[k]} ∪ represented_objects
  | None => represented_objects
  end.

Definition pick_flow_style (self : dumper) (flow_style : option bool) (best_style : bool)
  : option bool :=
  match flow_style with
  | Some f => Some f
  | None =>
      match default_flow_style self with
      | Some f => Some f
      | None => Some best_style
      end
  end.

(** The [for] loop of [represent_odict]: the items are represented one after
    the other, in the order of the mapping, and appended to [value] in that
    order; [best_style] tells whether every key and value is a plain scalar.
    [represent_data] is the recursive entry point of the dumper. *)
Fixpoint represent_items (represent_data : pyval -> gset loc -> option (node * gset loc))
    (items : list (string * pyval)) (ro : gset loc)
  : option (list (node * node) * bool * gset loc) :=
  match items with
  | [] => Some ([], true, ro)
  | (item_key, item_value) :: r =>
      match represent_data (PStr item_key) ro with
      | None => None
      | Some (node_key, ro1) =>
          match represent_data item_value ro1 with
          | None => None
          | Some (node_value, ro2) =>
              match represent_items represent_data r ro2 with
              | None => None
              | Some (value, best_style, ro3) =>
                  Some ((node_key, node_value) :: value,
                        plain_scalar node_key && plain_scalar node_value && best_style,
                        ro3)
              end
          end
      end
  end.

(** [SaneYamlDumper.represent_odict]: a plain mapping node, registered under
    the alias key before its items are represented. *)
Definition represent_odict (self : dumper)
    (represent_data : pyval -> gset loc -> option (node * gset loc))
    (alias_key : option loc) (mapping : list (string * pyval)) (flow_style : option bool)
    (represented_objects : gset loc) : option (node * gset loc) :=
  match represent_items represent_data mapping (register alias_key represented_objects) with
  | None => None
  | Some (value, best_style, ro) =>
      Some (MappingNode YAML_MAP_TAG value (pick_flow_style self flow_style best_style), ro)
  end.

Fixpoint represent_elems (represent_data : pyval -> gset loc -> option (node * gset loc))
    (items : list pyval) (ro : gset loc) : option (list node * bool * gset loc) :=
  match items with
  | [] => Some ([], true, ro)
  | item :: r =>
      match represent_data item ro with
      | None => None
      | Some (node_item, ro1) =>
          match represent_elems represent_data r ro1 with
          | None => None
          | Some (value, best_style, ro2) =>
              Some (node_item :: value, plain_scalar node_item && best_style, ro2)
          end
      end
  end.

(** [SafeRepresenter.represent_list], through [represent_sequence]. *)
Definition represent_list (self : dumper)
    (represent_data : pyval -> gset loc -> option (node * gset loc))
    (alias_key : option loc) (sequence : list pyval)
    (represented_objects : gset loc) : option (node * gset loc) :=
  match represent_elems represent_data sequence (register alias_key represented_objects) with
  | None => None
  | Some (value, best_style, ro) =>
      Some (SequenceNode YAML_SEQ_TAG value (pick_flow_style self None best_style), ro)
  end.

(** [sorted(mapping.items())]: the items in the order of their keys. *)
Fixpoint insert_item (kv : string * pyval) (l : list (string * pyval))
  : list (string * pyval) :=
  match l with
  | [] => [kv]
  | kv' :: r => if String.leb kv.1 kv'.1 then kv :: l else kv' :: insert_item kv r
  end.

Definition sorted_items (items : list (string * pyval)) : list (string * pyval) :=
  foldr insert_item [] items.

(** [SafeRepresenter.represent_dict], through [represent_mapping]: the loop
    of [represent_odict], which was copied from it, run over the sorted
    items. *)
Definition represent_dict (self : dumper)
    (represent_data : pyval -> gset loc -> option (node * gset loc))
    (alias_key : option loc) (mapping : list (string * pyval))
    (represented_objects : gset loc) : option (node * gset loc) :=
  represent_odict self represent_data alias_key (sorted_items mapping) None
    represented_objects.

(** [BaseRepresenter.represent_data]: decide the alias key, return the
    registered node of an object met before, otherwise dispatch on the type.
    The walk descends at most [n] containers. *)
Fixpoint represent_data (self : dumper) (n : nat) (h : heap) (data : pyval)
    (represented_objects : gset loc) : option (node * gset loc) :=
  match data with
  | PNone => Some (represent_scalar self YAML_NULL_TAG "null" None, represented_objects)
  | PBool b =>
      Some (represent_scalar self YAML_BOOL_TAG (if b then "true" else "false") None,
            represented_objects)
  | PInt z => Some (represent_scalar self YAML_INT_TAG (string_of_Z z) None, represented_objects)
  | PStr s => Some (represent_text self s, represented_objects)
  | PRef l =>
      let alias_key := if ignore_aliases self data then None else Some l in
      if bool_decide (alias_key = Some l /\ l ∈ represented_objects)
      then Some (SharedNode l, represented_objects)
      else
        match n with
        | 0 => None
        | S n' =>
            match h !! l with
            | None => None
            | Some (POrderedDict items) =>
                represent_odict self (represent_data self n' h) alias_key items None
                  represented_objects
            | Some (PList elems) =>
                represent_list self (represent_data self n' h) alias_key elems
                  represented_objects
            | Some (PDict items) =>
                represent_dict self (represent_data self n' h) alias_key items
                  represented_objects
            end
        end
  end.

(** A graph the serializer writes without any anchor or alias. *)
Fixpoint alias_free (n : node) : bool :=
  match n with
  | ScalarNode _ _ _ => true
  | SequenceNode _ value _ => forallb alias_free value
  | MappingNode _ value _ => forallb (fun kv => alias_free kv.1 && alias_free kv.2) value
  | SharedNode _ => false
  end.

(** A representer that returns graphs without shared nodes and registers
    nothing. *)
Definition never_aliases (rd : pyval -> gset loc -> option (node * gset loc)) : Prop :=
  forall v ro,
    match rd v ro with
    | Some (nd, ro') => alias_free nd = true /\ ro' = ro
    | None => True
    end.

(** [yaml_sane_dump]: represent with [SaneYamlDumper], then let the library
    write the graph.  With [binary] the text is UTF-8 encoded, which on byte
    strings changes nothing. *)
Definition yaml_sane_dump (lib : library) (h : heap) (data : pyval) (binary : bool)
  : result string :=
  match represent_data SaneYamlDumper (length h) h data ∅ with
  | None => Raise RecursionError
  | Some (n, _) => Ok (yaml_emit lib n)
  end.

(** ** YAML construction: [SaneYamlLoader] *)

Definition node_tag (n : node) : string :=
  match n with
  | ScalarNode tag _ _ => tag
  | SequenceNode tag _ _ => tag
  | MappingNode tag _ _ => tag
  | SharedNode _ => EmptyString
  end.

Definition set_tag (tag : string) (n : node) : node :=
  match n with
  | ScalarNode _ value style => ScalarNode tag value style
  | SequenceNode _ value flow => SequenceNode tag value flow
  | MappingNode _ value flow => MappingNode tag value flow
  | SharedNode k => SharedNode k
  end.

Definition option_all {A B} (f : A -> option B) : list A -> option (list B) :=
  fix go xs :=
    match xs with
    | [] => Some []
    | x :: r =>
        match f x with
        | None => None
        | Some y =>
            match go r with
            | None => None
            | Some ys => Some (y :: ys)
            end
        end
    end.

(** The scan of [flatten_mapping] over the items of a mapping node, from left
    to right: [merge] collects the items brought in by a merge key, the other
    items stay.  A second merge key in a mapping that has already merged
    something is a [DuplicateKeyError]; a merge key whose value is neither a
    mapping nor a sequence of mappings is a [ConstructorError].  [flatten] is
    [flatten_mapping] itself, called on the merged mappings. *)
Definition flatten_scan (flatten : node -> option (list (node * node)))
  : list (node * node) -> list (node * node)
    -> option (list (node * node) * list (node * node)) :=
  fix scan value merge :=
    match value with
    | [] => Some (merge, [])
    | (key_node, value_node) :: r =>
        if String.eqb (node_tag key_node) YAML_MERGE_TAG then
          match merge with
          | _ :: _ => None
          | [] =>
              match value_node with
              | MappingNode _ _ _ =>
                  match flatten value_node with
                  | None => None
                  | Some sub => scan r sub
                  end
              | SequenceNode _ subnodes _ =>
                  match option_all flatten subnodes with
                  | None => None
                  | Some submerge => scan r (concat (reverse submerge))
                  end
              | _ => None
              end
          end
        else
          match scan r merge with
          | None => None
          | Some (merge', rest) =>
              if String.eqb (node_tag key_node) YAML_VALUE_TAG
              then Some (merge', (set_tag YAML_STR_TAG key_node, value_node) :: rest)
              else Some (merge', (key_node, value_node) :: rest)
          end
    end.

(** [SafeConstructor.flatten_mapping]: the items of the mapping after the
    merge keys are resolved; the merged items come first.  [None] is an
    error of the constructor. *)
Fixpoint flatten_mapping (nd : node) : option (list (node * node)) :=
  match nd with
  | MappingNode _ value _ =>
      match flatten_scan flatten_mapping value [] with
      | None => None
      | Some (merge, rest) => Some (merge ++ rest)
      end
  | _ => None
  end.

Definition lower_char (c : ascii) : ascii :=
  let n := N_of_ascii c in
  if ((65 <=? n) && (n <=? 90))%N then ascii_of_N (n + 32) else c.

Definition lower (s : string) : string := string_bind (fun c => chr (lower_char c)) s.

(** [construct_yaml_bool]: the table [bool_values] on the lowered text; a
    text outside the table is a [KeyError]. *)
Definition construct_yaml_bool (value : string) : option bool :=
  let v := lower value in
  if String.eqb v "yes" || String.eqb v "y" || String.eqb v "true" || String.eqb v "on"
  then Some true
  else if String.eqb v "no" || String.eqb v "n" || String.eqb v "false" || String.eqb v "off"
  then Some false
  else None.

(** [value.replace('_', '')] *)
Definition remove_underscores (s : string) : string :=
  string_bind (fun c => if Ascii.eqb c "_" then EmptyString else chr c) s.

(** The ASCII characters Python takes for white space. *)
Definition is_space (c : ascii) : bool :=
  let n := N_of_ascii c in
  ((9 <=? n) && (n <=? 13) || (28 <=? n) && (n <=? 32))%N.

Fixpoint lstrip (s : string) : string :=
  match s with
  | EmptyString => EmptyString
  | String c r => if is_space c then lstrip r else s
  end.

Fixpoint rstrip (s : string) : string :=
  match s with
  | EmptyString => EmptyString
  | String c r =>
      match rstrip r with
      | EmptyString => if is_space c then EmptyString else String c EmptyString
      | r' => String c r'
      end
  end.

(** [s.startswith(p)] and [s[n:]] *)
Definition startswith (p s : string) : bool := String.prefix p s.

Definition drop_chars (n : nat) (s : string) : string :=
  String.substring n (String.length s - n) s.

(** The value of a digit or letter as a digit of [int(s, base)]. *)
Definition digit_value (c : ascii) : option N :=
  let n := N_of_ascii c in
  if ((48 <=? n) && (n <=? 57))%N then Some (n - 48)%N
  else if ((97 <=? n) && (n <=? 122))%N then Some (n - 87)%N
  else if ((65 <=? n) && (n <=? 90))%N then Some (n - 55)%N
  else None.

Fixpoint py_digits (base : N) (acc : N) (s : string) : option N :=
  match s with
  | EmptyString => Some acc
  | String c r =>
      match digit_value c with
      | Some v => if (v <? base)%N then py_digits base (base * acc + v) r else None
      | None => None
      end
  end.

(** The letter of the prefix [int(s, base)] accepts for a base. *)
Definition base_letter (base : N) : option ascii :=
  if (base =? 2)%N then Some "b"%char
  else if (base =? 8)%N then Some "o"%char
  else if (base =? 16)%N then Some "x"%char
  else None.

Definition strip_base_prefix (base : N) (s : string) : string :=
  match s, base_letter base with
  | String c0 (String c r), Some l =>
      if Ascii.eqb c0 "0" && Ascii.eqb (lower_char c) l then r else s
  | _, _ => s
  end.

(** [int(s, base)] on an ASCII text without underscores: white space around,
    a sign, the prefix of the base, and at least one digit.  [None] is a
    [ValueError]. *)
Definition py_int (base : N) (s : string) : option Z :=
  let s := rstrip (lstrip s) in
  let negative := startswith "-" s in
  let s := if startswith "-" s || startswith "+" s then drop_chars 1 s else s in
  match strip_base_prefix base s with
  | EmptyString => None
  | digits =>
      match py_digits base 0 digits with
      | Some n => Some (if negative then - Z.of_N n else Z.of_N n)%Z
      | None => None
      end
  end.

(** [construct_yaml_int] at processing version 1.2, the one in force unless
    the stream asks for YAML 1.1: underscores are dropped, a sign is read,
    and the text is a zero, a binary, hexadecimal or octal numeral with its
    prefix, or a decimal numeral.  [None] is the [IndexError] of an empty
    text or the [ValueError] of [int]. *)
Definition construct_yaml_int (value : string) : option Z :=
  let value_s := remove_underscores value in
  match value_s with
  | EmptyString => None
  | String c r =>
      let sign := if Ascii.eqb c "-" then (-1)%Z else 1%Z in
      let value_s := if Ascii.eqb c "+" || Ascii.eqb c "-" then r else value_s in
      if String.eqb value_s "0" then Some 0%Z
      else if startswith "0b" value_s then Z.mul sign <$> py_int 2 (drop_chars 2 value_s)
      else if startswith "0x" value_s then Z.mul sign <$> py_int 16 (drop_chars 2 value_s)
      else if startswith "0o" value_s then Z.mul sign <$> py_int 8 (drop_chars 2 value_s)
      else Z.mul sign <$> py_int 10 value_s
  end.

(** [construct_pairs]: keys and values in the order of the node.  A key that
    is not a string is outside this model. *)
Definition construct_pairs (construct_object : node -> option doc)
  : list (node * node) -> option (list (string * doc)) :=
  option_all (fun kv =>
    match construct_object kv.1 with
    | Some (DStr key) =>
        match construct_object kv.2 with
        | Some value => Some (key, value)
        | None => None
        end
    | _ => None
    end).

(** [SaneYamlLoader.construct_odict] *)
Definition construct_odict (construct_object : node -> option doc) (nd : node) : option doc :=
  match flatten_mapping nd with
  | None => None
  | Some value =>
      match construct_pairs construct_object value with
      | None => None
      | Some pairs => Some (DDict (OrderedDict_of_pairs pairs))
      end
  end.

(** [construct_object]: the constructor registered for the tag of the node.
    Every mapping tagged [YAML_MAP_TAG] goes to [construct_odict]. *)
Fixpoint construct_object (n : nat) (nd : node) : option doc :=
  match n with
  | 0 => None
  | S n' =>
      match nd with
      | ScalarNode tag value _ =>
          if String.eqb tag YAML_STR_TAG then Some (DStr value)
          else if String.eqb tag YAML_INT_TAG then DInt <$> construct_yaml_int value
          else if String.eqb tag YAML_BOOL_TAG then DBool <$> construct_yaml_bool value
          else if String.eqb tag YAML_NULL_TAG then Some DNone
          else None
      | SequenceNode tag value _ =>
          if String.eqb tag YAML_SEQ_TAG
          then DList <$> option_all (construct_object n') value
          else None
      | MappingNode tag _ _ =>
          if String.eqb tag YAML_MAP_TAG
          then construct_odict (construct_object n') nd
          else None
      | SharedNode _ => None
      end
  end.

Fixpoint node_size (nd : node) : nat :=
  match nd with
  | ScalarNode _ _ _ => 1
  | SequenceNode _ value _ => S (foldr Nat.add 0 (map node_size value))
  | MappingNode _ value _ =>
      S (foldr Nat.add 0 (map (fun kv => node_size kv.1 + node_size kv.2) value))
  | SharedNode _ => 1
  end.

(** [yaml_sane_load]: compose the node graph of the stream and construct it.
    Flattening never adds nodes, so the size of the graph bounds the walk. *)
Definition yaml_sane_load (lib : library) (stream : string) : option doc :=
  match yaml_compose lib stream with
  | None => None
  | Some nd => construct_object (node_size nd) nd
  end.

(** ** Validators *)

(** What a third-party validation engine does with the object it is given: it
    may mutate the heap, and it returns, rejects the document with its own
    validation error, or fails with some other exception. *)
Inductive verdict :=
| Accepts
| Rejects (msg : string)
| Throws (e : exn).

Definition engine := heap -> pyval -> heap * verdict.

(** The packages that can be imported when a validator runs. *)
Record environment := {
  flex : option engine;
  swagger_spec_validator : option engine
}.

Definition _validate_flex (env : environment) (h : heap) (spec : pyval)
  : heap * result unit :=
  match flex env with
  | None => (h, Ok tt)
  | Some validate_flex =>
      match validate_flex h spec with
      | (h', Accepts) => (h', Ok tt)
      | (h', Rejects ex) => (h', Raise (SwaggerValidationError ex None None None))
      | (h', Throws e) => (h', Raise e)
      end
  end.

Definition _validate_swagger_spec_validator (env : environment) (h : heap) (spec : pyval)
  : heap * result unit :=
  match swagger_spec_validator env with
  | None => (h, Raise (ImportError "swagger_spec_validator"))
  | Some validate_ssv =>
      match validate_ssv h spec with
      | (h', Accepts) => (h', Ok tt)
      | (h', Rejects ex) => (h', Raise (SwaggerValidationError ex None None None))
      | (h', Throws e) => (h', Raise e)
      end
  end.

Definition VALIDATORS : gmap string (environment -> heap -> pyval -> heap * result unit) :=
  <["flex" := _validate_flex]> (<["ssv" := _validate_swagger_spec_validator]> ∅).

(** ** The codec *)

(** Modelled from the spec: [openapi.Swagger], which is not among the sources.
    What [encode] is called with is a Swagger object, an ordered mapping built
    by the schema generator, or something else. *)
Inductive argument :=
| Swagger (items : list (string * doc))
| NotSwagger (v : pyval).

(** Modelled from the spec: [Swagger.as_odict], which is not among the
    sources.  It builds a fresh [OrderedDict] tree with the keys in the order
    the object has them. *)
Definition as_odict (items : list (string * doc)) (h : heap) : pyval * heap :=
  alloc (DDict items) h.

Definition generate_swagger_object (self : codec) (swagger : list (string * doc)) (h : heap)
  : pyval * heap :=
  as_odict swagger h.

(** [str(dict)] *)
Definition dict_repr (lib : library) (d : list (string * string)) : string :=
  "{" +:+ String.concat ", " (map (fun kv => py_repr lib kv.1 +:+ ": " +:+ py_repr lib kv.2) d)
    +:+ "}".

(** [_dump_dict] of the two codecs.  [json.dumps] refuses a cyclic object with
    a [ValueError]. *)
Definition _dump_dict (self : codec) (lib : library) (h : heap) (spec : pyval)
  : result string :=
  match self with
  | OpenAPICodecJson _ pretty _ =>
      match json_tree h spec with
      | None => Raise (ValueError "Circular reference detected")
      | Some d => json_dump_dict pretty d
      end
  | OpenAPICodecYaml _ _ => yaml_sane_dump lib h spec true
  end.

(** [force_bytes]: the UTF-8 bytes of a text. *)
Definition force_bytes (s : string) : list Byte.byte := list_byte_of_string s.

(** The body of the [try]: [VALIDATORS[validator](copy.deepcopy(spec))].  The
    validator is looked up before its argument is evaluated. *)
Definition call_validator (env : environment) (validator : string) (spec : pyval) (h : heap)
  : heap * result unit :=
  match VALIDATORS !! validator with
  | None => (h, Raise (KeyError validator))
  | Some f =>
      match deepcopy h spec with
      | None => (h, Raise RecursionError)
      | Some (copy, h1) => f env h1 copy
      end
  end.

(** One turn of the loop of [encode]: a [SwaggerValidationError] is caught and
    recorded under the name of the validator, anything else goes through. *)
Definition validate_one (env : environment) (validator : string) (spec : pyval)
    (h : heap) (errors : list (string * string))
  : heap * result (list (string * string)) :=
  match call_validator env validator spec h with
  | (h2, Ok _) => (h2, Ok errors)
  | (h2, Raise (SwaggerValidationError e _ _ _)) => (h2, Ok (dict_set errors validator e))
  | (h2, Raise e) => (h2, Raise e)
  end.

Fixpoint run_validators (env : environment) (vs : list string) (spec : pyval)
    (h : heap) (errors : list (string * string))
  : heap * result (list (string * string)) :=
  match vs with
  | [] => (h, Ok errors)
  | validator :: rest =>
      match validate_one env validator spec h errors with
      | (h', Ok errors') => run_validators env rest spec h' errors'
      | (h', Raise e) => (h', Raise e)
      end
  end.

(** [_OpenAPICodec.encode].  The warning that is logged before a validation
    error is raised is not modelled. *)
Definition encode (env : environment) (lib : library) (self : codec)
    (document : argument) (h : heap) : heap * result (list Byte.byte) :=
  match document with
  | NotSwagger _ => (h, Raise (TypeError "Expected a `openapi.Swagger` instance"))
  | Swagger swagger =>
      let '(spec, h1) := generate_swagger_object self swagger h in
      match run_validators env (validators self) spec h1 [] with
      | (h2, Raise e) => (h2, Raise e)
      | (h2, Ok errors) =>
          match errors with
          | _ :: _ =>
              (h2, Raise (SwaggerValidationError
                            ("spec validation failed: " +:+ dict_repr lib errors)
                            (Some errors) (Some spec) (Some self)))
          | [] =>
              match _dump_dict self lib h2 spec with
              | Ok out => (h2, Ok (force_bytes out))
              | Raise e => (h2, Raise e)
              end
          end
      end
  end.

(** [encode_error]: the same dump without any validation.  [err] is a plain
    mapping. *)
Definition encode_error (self : codec) (lib : library) (err : pyval) (h : heap)
  : result (list Byte.byte) :=
  match _dump_dict self lib h err with
  | Ok out => Ok (force_bytes out)
  | Raise e => Raise e
  end.

(** ** Traces of the validation loop

    What [encode] does to each validator, in the order of the loop: the copy
    it is called on, and what the call answers. *)

(** The message [str(e)] of a [SwaggerValidationError], the only exception
    the loop catches. *)
Definition failure_msg (r : result unit) : option string :=
  match r with
  | Raise (SwaggerValidationError e _ _ _) => Some e
  | _ => None
  end.

(** A call that ends the loop with an exception of another kind. *)
Definition crashed (r : result unit) : bool :=
  match r with
  | Ok _ => false
  | Raise (SwaggerValidationError _ _ _ _) => false
  | Raise _ => true
  end.

(** No call of the trace ended the loop. *)
Definition no_crash (trace : list (string * result unit)) : bool :=
  forallb (fun nr => negb (crashed nr.2)) trace.

Fixpoint validation_trace (env : environment) (vs : list string) (spec : pyval) (h : heap)
  : list (string * result unit) :=
  match vs with
  | [] => []
  | validator :: rest =>
      let '(h', r) := call_validator env validator spec h in
      (validator, r) :: (if crashed r then [] else validation_trace env rest spec h')
  end.

(** The failures of a trace, as the pairs the loop stores in [errors]. *)
Definition failures (trace : list (string * result unit)) : list (string * string) :=
  omap (fun nr => match failure_msg nr.2 with Some e => Some (nr.1, e) | None => None end) trace.

(** The [for] loop of [encode], call by call.
    [validation_loop env spec h vs trace inputs h'] reads: the loop over the
    names [vs], entered with heap [h], leaves the heap [h']; [trace] lists the
    names it reached with what became of each, and [inputs] lists, for every
    validator that was called, the object it was called on and the heap at
    the moment of the call.  In a turn of the loop the name is looked up in
    [VALIDATORS], then the argument [copy.deepcopy(spec)] is evaluated, then
    the function found is applied to it.  The loop goes on after a return and
    after a [SwaggerValidationError]; any other exception ends it. *)
Inductive validation_loop (env : environment) (spec : pyval)
  : heap -> list string -> list (string * result unit) -> list (pyval * heap) -> heap -> Prop :=
| loop_end h :
    validation_loop env spec h [] [] [] h
| loop_unregistered h validator rest :
    VALIDATORS !! validator = None ->
    validation_loop env spec h (validator :: rest)
      [(validator, Raise (KeyError validator))] [] h
| loop_copy_fails h validator rest f :
    VALIDATORS !! validator = Some f ->
    deepcopy h spec = None ->
    validation_loop env spec h (validator :: rest)
      [(validator, Raise RecursionError)] [] h
| loop_goes_on h validator rest f copy h1 h2 r trace inputs h' :
    VALIDATORS !! validator = Some f ->
    deepcopy h spec = Some (copy, h1) ->
    f env h1 copy = (h2, r) ->
    crashed r = false ->
    validation_loop env spec h2 rest trace inputs h' ->
    validation_loop env spec h (validator :: rest)
      ((validator, r) :: trace) ((copy, h1) :: inputs) h'
| loop_crashes h validator rest f copy h1 h2 r :
    VALIDATORS !! validator = Some f ->
    deepcopy h spec = Some (copy, h1) ->
    f env h1 copy = (h2, r) ->
    crashed r = true ->
    validation_loop env spec h (validator :: rest) [(validator, r)] [(copy, h1)] h2.

(** An engine only touches what it is given: objects that cannot be reached
    from its argument keep their state, and the heap only grows. *)
Definition engine_frame (e : engine) : Prop :=
  forall h v,
    length h <= length (e h v).1 /\
    forall p, p < length h -> ~ reach_from h v p -> (e h v).1 !! p = h !! p.

Definition environment_frame (env : environment) : Prop :=
  (forall e, flex env = Some e -> engine_frame e) /\
  (forall e, swagger_spec_validator env = Some e -> engine_frame e).

Definition between (a b : nat) : loc -> Prop := fun p => a <= p /\ p < b.
Definition from (a : nat) : loc -> Prop := fun p => a <= p.

(** [s] occurs in [t]. *)
Definition substring_of (s t : string) : Prop :=
  exists pre post, t = pre +:+ s +:+ post.

(** ** Sample data *)

Definition sample_items : list (string * doc) :=
  [("swagger", DStr "2.0");
   ("paths", DDict [("/pets", DDict [("$ref", DStr "#/definitions/Pet")])]);
   ("tags", DList [DStr "pets"; DInt 7])].

(** An engine that annotates the mapping it is given and then rejects it, the
    way [swagger_spec_validator] adds [x-scope] to references. *)
Definition annotating_engine (msg : string) : engine :=
  fun h v =>
    match v with
    | PRef l =>
        match h !! l with
        | Some (POrderedDict items) =>
            (<[l := POrderedDict (dict_set items "x-scope" (PStr "seen"))]> h, Rejects msg)
        | _ => (h, Rejects msg)
        end
    | _ => (h, Rejects msg)
    end.

Definition accepting_engine : engine := fun h v => (h, Accepts).

(** [repr] restricted to texts without quotes, backslashes or control
    characters, where it only adds the quotes. *)
Definition quoting_repr (s : string) : string := chr squote +:+ s +:+ chr squote.

Definition sample_library : library :=
  {| py_repr := quoting_repr;
     yaml_emit := fun _ => EmptyString;
     yaml_compose := fun _ => None |}.

Definition sample_environment : environment :=
  {| flex := Some (annotating_engine "flex says no");
     swagger_spec_validator := Some (annotating_engine "ssv says no") |}.

Definition bare_environment : environment :=
  {| flex := None; swagger_spec_validator := None |}.

Definition mixed_environment : environment :=
  {| flex := Some (annotating_engine "flex says no");
     swagger_spec_validator := Some accepting_engine |}.

Definition sample_codec : codec := OpenAPICodecJson ["flex"; "ssv"] true "application/json".

(** ** Invariants of the heap

    The predicates the proofs about [alloc], [copy.deepcopy] and the loop of
    [encode] are stated with. *)

(** What [alloc d h = (v, h')] guarantees: the old heap is a prefix of the
    new one, the new objects refer to new objects only, and [v] denotes [d]. *)
Definition allocated (d : doc) (h : heap) (v : pyval) (h' : heap) : Prop :=
  h `prefix_of` h' /\
  length h + depth d <= length h' /\
  val_in (between (length h) (length h')) v /\
  (forall p o, length h <= p -> h' !! p = Some o ->
     Forall (val_in (between (length h) (length h'))) (obj_values o)) /\
  reify_fuel (depth d) h' v = Some d.

(** The memo during a copy that started on heap [h0]: an entry sends an object
    of [h0] to a fresh object that denotes the same tree. *)
Definition memo_ok (h0 h : heap) (memo : gmap loc loc) : Prop :=
  forall l y, memo !! l = Some y ->
    length h0 <= y /\
    forall m d, reify_fuel m h0 (PRef l) = Some d -> reify_fuel m h (PRef y) = Some d.

(** What a copy step [f v memo h] achieves when [v] denotes [d] in [h0]. *)
Definition copy_ok (n : nat) (h0 : heap)
    (f : pyval -> gmap loc loc -> heap -> option (pyval * gmap loc loc * heap))
    (v : pyval) (memo : gmap loc loc) (h : heap) (d : doc) : Prop :=
  exists v' memo' h',
    f v memo h = Some (v', memo', h') /\
    h `prefix_of` h' /\
    memo_ok h0 h' memo' /\
    val_in (from (length h0)) v' /\
    reify_fuel n h' v' = Some d /\
    (forall p o, length h <= p -> h' !! p = Some o ->
       Forall (val_in (from (length h0))) (obj_values o)).

(** The same for a validator of [VALIDATORS] in a given environment. *)
Definition validator_frame (f : heap -> pyval -> heap * result unit) : Prop :=
  forall h v,
    length h <= length (f h v).1 /\
    forall p, p < length h -> ~ reach_from h v p -> (f h v).1 !! p = h !! p.

(** The objects of the spec occupy the locations from [a] to [b], refer to
    each other only, and denote the tree [d]. *)
Definition intact (a b : nat) (spec : pyval) (d : doc) (h : heap) : Prop :=
  closed_in (between a b) h /\
  val_in (between a b) spec /\
  b <= length h /\
  reify h spec = Some d.

(** The copy and the spec have no object in common. *)
Definition disjoint_from (h : heap) (c spec : pyval) : Prop :=
  forall p, reach_from h c p -> ~ reach_from h spec p.

(** ** Serialization of a tree

    What the two dumpers produce for an object that denotes the tree [d]. *)

(** The graph [SaneYamlDumper] builds for a tree: every occurrence of a
    sub-tree is represented in full. *)
Fixpoint represent_doc (self : dumper) (d : doc) : node :=
  match d with
  | DNone => represent_scalar self YAML_NULL_TAG "null" None
  | DBool b => represent_scalar self YAML_BOOL_TAG (if b then "true" else "false") None
  | DInt z => represent_scalar self YAML_INT_TAG (string_of_Z z) None
  | DStr s => represent_text self s
  | DList xs =>
      let value := map (represent_doc self) xs in
      SequenceNode YAML_SEQ_TAG value (pick_flow_style self None (forallb plain_scalar value))
  | DDict items =>
      let value := map (fun kx => (represent_text self kx.1, represent_doc self kx.2)) items in
      MappingNode YAML_MAP_TAG value
        (pick_flow_style self None
           (forallb (fun kv => plain_scalar kv.1 && plain_scalar kv.2) value))
  end.

Definition dump_doc (self : codec) (lib : library) (d : doc) : result string :=
  match self with
  | OpenAPICodecJson _ pretty _ => json_dump_dict pretty d
  | OpenAPICodecYaml _ _ => Ok (yaml_emit lib (represent_doc SaneYamlDumper d))
  end.

(** ** Texts *)

Fixpoint string_forall (P : ascii -> bool) (s : string) : bool :=
  match s with
  | EmptyString => true
  | String c r => P c && string_forall P r
  end.

(** [pat in s] *)
Fixpoint occurs (pat s : string) : bool :=
  String.prefix pat s ||
  match s with
  | EmptyString => false
  | String _ r => occurs pat r
  end.


Definition is_digit_or_minus (c : ascii) : bool :=
  let n := N_of_ascii c in ((48 <=? n) && (n <=? 57))%N || Ascii.eqb c "-".

Definition not_newline (c : ascii) : bool := negb (Ascii.eqb c newline).

(** ** Key order *)




Definition scalar_value (n : node) : string :=
  match n with
  | ScalarNode _ value _ => value
  | _ => EmptyString
  end.


(** One entry of a JSON object. *)
Definition json_entry (o : json_options) (level : nat) (kx : string * doc) : string :=
  py_encode_basestring kx.1 +:+ key_separator o +:+ json_encode o level kx.2.

(** The document of the formatting example: [{"a": 1, "b": [1, 2]}]. *)
Definition format_example : doc := DDict [("a", DInt 1); ("b", DList [DInt 1; DInt 2])].

(** ** YAML graphs up to presentation *)

(** The style [represent_text] asks for. *)
Definition text_style (text : string) : option ascii :=
  if contains_char newline text then Some "|"%char else None.

(** Every string scalar of the graph carries the style of its text. *)
Fixpoint text_styles_ok (n : node) : bool :=
  match n with
  | ScalarNode tag value style =>
      if String.eqb tag YAML_STR_TAG then bool_decide (style = text_style value) else true
  | SequenceNode _ value _ => forallb text_styles_ok value
  | MappingNode _ value _ =>
      forallb (fun kv => text_styles_ok kv.1 && text_styles_ok kv.2) value
  | SharedNode _ => true
  end.

(** A graph without the choices of presentation: scalar styles and flow
    styles.  Tags, values and structure stay. *)
Fixpoint erase (n : node) : node :=
  match n with
  | ScalarNode tag value _ => ScalarNode tag value None
  | SequenceNode tag value _ => SequenceNode tag (map erase value) None
  | MappingNode tag value _ =>
      MappingNode tag (map (fun kv => (erase kv.1, erase kv.2)) value) None
  | SharedNode k => SharedNode k
  end.

(** A heap where one mapping object is the value of two keys. *)
Definition shared_heap : heap :=
  [POrderedDict [("description", PStr "ok")];
   POrderedDict [("200", PRef 0); ("404", PRef 0)]].

Definition round_trip_example : doc :=
  DDict [("a", DInt 1); ("b", DList [DStr "x"; DNone; DBool true])].

Definition round_trip_text : string :=
  "a: 1" +:+ chr newline +:+ "b:" +:+ chr newline
    +:+ "  - x" +:+ chr newline +:+ "  - null" +:+ chr newline
    +:+ "  - true" +:+ chr newline.

(** The text layer on the one document of the example: the emitter writes the
    text above, and the composer reads it back with the tags resolved and
    block style recorded on the collections. *)
Definition round_trip_library : library :=
  {| py_repr := quoting_repr;
     yaml_emit := fun _ => round_trip_text;
     yaml_compose := fun s =>
       if String.eqb s round_trip_text then
         Some (MappingNode YAML_MAP_TAG
                 [(ScalarNode YAML_STR_TAG "a" None, ScalarNode YAML_INT_TAG "1" None);
                  (ScalarNode YAML_STR_TAG "b" None,
                   SequenceNode YAML_SEQ_TAG
                     [ScalarNode YAML_STR_TAG "x" None;
                      ScalarNode YAML_NULL_TAG "null" None;
                      ScalarNode YAML_BOOL_TAG "true" None] (Some false))]
                 (Some false))
       else None |}.

(** ** Tactics *)

Ltac split5 := refine (conj _ (conj _ (conj _ (conj _ _)))).

(** Decide the comparisons of tags that are known. *)
Ltac tag_cases :=
  repeat match goal with
    | |- context [ String.eqb ?a ?b ] =>
        let r := eval vm_compute in (String.eqb a b) in
        change (String.eqb a b) with r; cbv iota
    end.

(** ** Further notions for the properties beyond the claims *)

(** [d.get(k)] on an insertion-ordered dict. *)
Fixpoint dict_get {V} (d : list (string * V)) (k : string) : option V :=
  match d with
  | [] => None
  | (k', v) :: r => if String.eqb k k' then Some v else dict_get r k
  end.

(** The value of the last pair of [pairs] whose key is [k]. *)
Definition last_binding {V} (pairs : list (string * V)) (k : string) : option V :=
  last (omap (fun kv => if String.eqb k kv.1 then Some kv.2 else None) pairs).

(** A set of objects from each of which the walk through the heap can go on
    forever: every object of the set has a child in the set. *)
Definition endless (h : heap) (P : loc -> Prop) : Prop :=
  forall l, P l -> exists o q, h !! l = Some o /\ PRef q ∈ obj_values o /\ P q.

(** A graph as [yaml_sane_dump] promises it: every collection in block style,
    mappings as plain mappings, and only the standard tags. *)
Fixpoint sane_graph (n : node) : bool :=
  match n with
  | ScalarNode tag _ _ =>
      String.eqb tag YAML_STR_TAG || String.eqb tag YAML_INT_TAG
      || String.eqb tag YAML_BOOL_TAG || String.eqb tag YAML_NULL_TAG
  | SequenceNode tag value flow =>
      String.eqb tag YAML_SEQ_TAG && bool_decide (flow = Some false)
      && forallb sane_graph value
  | MappingNode tag value flow =>
      String.eqb tag YAML_MAP_TAG && bool_decide (flow = Some false)
      && forallb (fun kv => sane_graph kv.1 && sane_graph kv.2) value
  | SharedNode _ => false
  end.

(** The keys of a list in the order in which they first occur. *)
Fixpoint first_occurrences (ks : list string) : list string :=
  match ks with
  | [] => []
  | k :: r => k :: filter (fun k' => k' <> k) (first_occurrences r)
  end.

(** A heap with a list that contains itself. *)
Definition cyclic_heap : heap := [PList [PInt 1; PRef 0]].

(** A dumper that keeps the default flow style open, as [yaml.dump] does when
    it is called without [default_flow_style]. *)
Definition open_style_dumper : dumper :=
  {| ignore_aliases := SaneYamlDumper_ignore_aliases;
     default_style := None;
     default_flow_style := None |}.

(** An engine that fails with an exception of its own. *)
Definition failing_engine : engine :=
  fun h v => (h, Throws (ForeignError "AttributeError" "no attribute")).

Definition crashing_environment : environment :=
  {| flex := Some (annotating_engine "flex says no");
     swagger_spec_validator := Some failing_engine |}.

(** The graph of the mapping [{b: 1, a: 2, b: 3}], as the composer hands it
    to the constructor. *)
Definition duplicate_example : node :=
  MappingNode YAML_MAP_TAG
    [(ScalarNode YAML_STR_TAG "b" None, ScalarNode YAML_INT_TAG "1" None);
     (ScalarNode YAML_STR_TAG "a" None, ScalarNode YAML_INT_TAG "2" None);
     (ScalarNode YAML_STR_TAG "b" None, ScalarNode YAML_INT_TAG "3" None)] (Some false).

(** An exception without the codec it names, and the way a call ended. *)
Definition forget_codec (e : exn) : exn :=
  match e with
  | SwaggerValidationError msg errors spec _ => SwaggerValidationError msg errors spec None
  | _ => e
  end.

Definition outcome {A} (r : result A) : option exn :=
  match r with
  | Ok _ => None
  | Raise e => Some (forget_codec e)
  end.

(** Keys in ascending order. *)
Fixpoint ascending (ks : list string) : bool :=
  match ks with
  | k :: (k' :: _) as r => String.leb k k' && ascending r
  | _ => true
  end.

(** A heap with a plain dict whose keys were inserted out of order. *)
Definition plain_dict_heap : heap := [PDict [("detail", PStr "boom"); ("code", PInt 7)]].

(** * Proofs *)

(** ** Induction on documents *)

Lemma doc_rect' (P : doc -> Prop) :
  P DNone -> (forall b, P (DBool b)) -> (forall z, P (DInt z)) -> (forall s, P (DStr s)) ->
  (forall xs, Forall P xs -> P (DList xs)) ->
  (forall items, Forall (fun kx => P kx.2) items -> P (DDict items)) ->
  forall d, P d.
Proof.
  intros HN HB HI HS HL HD.
  fix IH 1. intros [ | b | z | s | xs | items ];
    [ exact HN | apply HB | apply HI | apply HS | | ].
  - apply HL. induction xs as [ | x r IHr ]; constructor; [ apply IH | exact IHr ].
  - apply HD. induction items as [ | [k x] r IHr ]; constructor; [ apply IH | exact IHr ].
Qed.

Lemma node_rect' (P : node -> Prop) :
  (forall tag value style, P (ScalarNode tag value style)) ->
  (forall tag value flow, Forall P value -> P (SequenceNode tag value flow)) ->
  (forall tag value flow, Forall (fun kv => P kv.1 /\ P kv.2) value ->
     P (MappingNode tag value flow)) ->
  (forall k, P (SharedNode k)) ->
  forall nd, P nd.
Proof.
  intros HS HQ HM HA. fix IH 1.
  intros [ tag value style | tag value flow | tag value flow | k ];
    [ apply HS | apply HQ | apply HM | apply HA ].
  - induction value as [ | x r IHr ]; constructor; [ apply IH | exact IHr ].
  - induction value as [ | [kn vn] r IHr ]; constructor;
      [ split; apply IH | exact IHr ].
Qed.

(** ** Lists, options and bounds *)

Lemma max_bound_Forall {A} (f : A -> nat) (xs : list A) (m : nat) :
  foldr Nat.max 0 (map f xs) <= m <-> Forall (fun x => f x <= m) xs.
Proof.
  induction xs as [ | x r IH ]; simpl.
  - split; [ constructor | lia ].
  - rewrite Forall_cons, <- IH. lia.
Qed.

Lemma mapM_ext_Forall {A B} (f g : A -> option B) (l : list A) :
  Forall (fun x => f x = g x) l -> mapM f l = mapM g l.
Proof.
  induction 1 as [ | x r Hx _ IH ]; simpl; [ reflexivity | ].
  rewrite Hx, IH. reflexivity.
Qed.

Lemma Forall2_Forall_r {A B} (P R : A -> B -> Prop) (Q : B -> Prop) l k :
  Forall2 P l k -> Forall Q k -> (forall x y, P x y -> Q y -> R x y) -> Forall2 R l k.
Proof.
  intros H. induction H as [ | x y l k Hxy _ IH ]; intros HQ HR; constructor.
  - apply HR; [ exact Hxy | inversion HQ; assumption ].
  - apply IH; [ inversion HQ; assumption | exact HR ].
Qed.

Lemma between_weaken a b a' b' p : a' <= a -> b <= b' -> between a b p -> between a' b' p.
Proof. unfold between. lia. Qed.

Lemma val_in_impl (P Q : loc -> Prop) v : (forall p, P p -> Q p) -> val_in P v -> val_in Q v.
Proof. destruct v; simpl; auto. Qed.

(** ** Reading a tree back *)

Lemma reify_fuel_depth n : forall h v d, reify_fuel n h v = Some d -> depth d <= n.
Proof.
  induction n as [ | n IH ]; intros h v d H.
  - destruct v; simpl in H; inversion H; simpl; lia.
  - destruct v as [ | b | z | s | l ]; simpl in H; try (inversion H; simpl; lia).
    destruct (h !! l) as [ [ items | elems | items ] | ]; [ | | discriminate | discriminate ].
    + destruct (mapM (reify_fuel n h) items.*2) as [ xs | ] eqn:E; [ | discriminate ].
      simpl in H. inversion H; subst d; clear H. simpl.
      apply le_n_S, max_bound_Forall.
      apply mapM_Some in E. clear -E IH.
      assert (Hxs : Forall (fun x => depth x <= n) xs).
      { induction E; constructor; eauto. }
      apply Forall2_length in E. rewrite length_fmap in E.
      revert xs E Hxs. induction items as [ | [k v] r IHr ]; intros [ | x xs ] E Hxs;
        simpl in *; try discriminate; constructor.
      * simpl. inversion Hxs; assumption.
      * apply IHr; [ lia | inversion Hxs; assumption ].
    + destruct (mapM (reify_fuel n h) elems) as [ xs | ] eqn:E; [ | discriminate ].
      simpl in H. inversion H; subst d; clear H. simpl.
      apply le_n_S, max_bound_Forall.
      apply mapM_Some in E. induction E; constructor; eauto.
Qed.

Lemma depth_zip_bound (keys : list string) (xs : list doc) (m : nat) :
  Forall (fun kx : string * doc => depth kx.2 <= m) (zip keys xs) ->
  length keys = length xs -> Forall (fun x => depth x <= m) xs.
Proof.
  revert xs. induction keys as [ | k r IH ]; intros [ | x xs ] H E; simpl in *;
    try discriminate; constructor.
  - inversion H; assumption.
  - apply IH; [ inversion H; assumption | lia ].
Qed.

(** Fuel beyond the depth of the tree changes nothing. *)
Lemma reify_fuel_any n : forall h v d m,
  reify_fuel n h v = Some d -> depth d <= m -> reify_fuel m h v = Some d.
Proof.
  induction n as [ | n IH ]; intros h v d m H Hm.
  - destruct v; simpl in H; inversion H; subst; destruct m; reflexivity.
  - destruct v as [ | b | z | s | l ]; simpl in H;
      try (inversion H; subst; destruct m; reflexivity).
    destruct (h !! l) as [ [ items | elems | items ] | ] eqn:El;
      [ | | discriminate | discriminate ].
    + destruct (mapM (reify_fuel n h) items.*2) as [ xs | ] eqn:E; [ | discriminate ].
      simpl in H. inversion H; subst d; clear H. simpl in Hm.
      destruct m as [ | m ]; [ lia | ]. simpl. rewrite El.
      apply le_S_n in Hm. apply max_bound_Forall in Hm.
      apply mapM_Some in E.
      assert (Hl : length items.*1 = length xs).
      { apply Forall2_length in E. rewrite !length_fmap in *. exact E. }
      apply depth_zip_bound in Hm; [ | exact Hl ].
      assert (E' : mapM (reify_fuel m h) items.*2 = Some xs).
      { apply mapM_Some. eapply Forall2_Forall_r; [ exact E | exact Hm | ].
        intros v x Hv Hx. simpl in Hx. eapply IH; eauto. }
      rewrite E'. reflexivity.
    + destruct (mapM (reify_fuel n h) elems) as [ xs | ] eqn:E; [ | discriminate ].
      simpl in H. inversion H; subst d; clear H. simpl in Hm.
      destruct m as [ | m ]; [ lia | ]. simpl. rewrite El.
      apply le_S_n in Hm. apply max_bound_Forall in Hm.
      apply mapM_Some in E.
      assert (E' : mapM (reify_fuel m h) elems = Some xs).
      { apply mapM_Some. eapply Forall2_Forall_r; [ exact E | exact Hm | ].
        intros v x Hv Hx. simpl in Hx. eapply IH; eauto. }
      rewrite E'. reflexivity.
Qed.

Lemma reify_fuel_mono n m h v d :
  reify_fuel n h v = Some d -> n <= m -> reify_fuel m h v = Some d.
Proof.
  intros H Hle. eapply reify_fuel_any; [ exact H | ].
  apply reify_fuel_depth in H. lia.
Qed.

(** The walk only looks at the objects it passes through: two heaps that
    agree on a closed region give the same tree for a value of that region. *)
Lemma reify_fuel_agree (P : loc -> Prop) h h' n :
  closed_in P h -> agree_on P h h' ->
  forall v, val_in P v -> reify_fuel n h' v = reify_fuel n h v.
Proof.
  intros Hc Ha. induction n as [ | n IH ]; intros v Hv.
  - destruct v; reflexivity.
  - destruct v as [ | b | z | s | l ]; try reflexivity.
    simpl in Hv. simpl. rewrite (Ha l Hv).
    destruct (h !! l) as [ o | ] eqn:El; [ | reflexivity ].
    pose proof (Hc l o Hv El) as Ho.
    destruct o as [ items | elems | items ]; simpl in Ho; [ | | reflexivity ].
    + rewrite (mapM_ext_Forall (reify_fuel n h') (reify_fuel n h) items.*2); [ reflexivity | ].
      eapply Forall_impl; [ exact Ho | ]. intros v' Hv'. apply IH. exact Hv'.
    + rewrite (mapM_ext_Forall (reify_fuel n h') (reify_fuel n h) elems); [ reflexivity | ].
      eapply Forall_impl; [ exact Ho | ]. intros v' Hv'. apply IH. exact Hv'.
Qed.

Lemma reify_fuel_prefix n : forall h h' v d,
  h `prefix_of` h' -> reify_fuel n h v = Some d -> reify_fuel n h' v = Some d.
Proof.
  induction n as [ | n IH ]; intros h h' v d Hp H.
  - destruct v; simpl in *; congruence.
  - destruct v as [ | b | z | s | l ]; simpl in *; try congruence.
    destruct (h !! l) as [ o | ] eqn:El; [ | discriminate ].
    pose proof (prefix_lookup_Some _ _ _ _ El Hp) as El'. rewrite El'.
    destruct o as [ items | elems | items ]; [ | | discriminate ].
    + destruct (mapM (reify_fuel n h) items.*2) as [ xs | ] eqn:E; [ | discriminate ].
      assert (E' : mapM (reify_fuel n h') items.*2 = Some xs).
      { apply mapM_Some. apply mapM_Some in E. eapply Forall2_impl; [ exact E | ].
        intros; eapply IH; eauto. }
      rewrite E'. exact H.
    + destruct (mapM (reify_fuel n h) elems) as [ xs | ] eqn:E; [ | discriminate ].
      assert (E' : mapM (reify_fuel n h') elems = Some xs).
      { apply mapM_Some. apply mapM_Some in E. eapply Forall2_impl; [ exact E | ].
        intros; eapply IH; eauto. }
      rewrite E'. exact H.
Qed.

(** ** Allocation of a tree *)

Lemma alloc_all_spec {A} (f : A -> heap -> pyval * heap) (g : A -> doc) (xs : list A) :
  Forall (fun x => forall h v h', f x h = (v, h') -> allocated (g x) h v h') xs ->
  forall h vs h', alloc_all f xs h = (vs, h') ->
    h `prefix_of` h' /\
    length h + foldr Nat.max 0 (map (fun x => depth (g x)) xs) <= length h' /\
    Forall (val_in (between (length h) (length h'))) vs /\
    (forall p o, length h <= p -> h' !! p = Some o ->
       Forall (val_in (between (length h) (length h'))) (obj_values o)) /\
    Forall2 (fun v x => reify_fuel (depth (g x)) h' v = Some (g x)) vs xs.
Proof.
  induction 1 as [ | x r Hx _ IH ]; intros h vs h' E; simpl in E.
  - inversion E; subst. split5; simpl; try constructor; try lia; try reflexivity.
    intros p o Hp Ho. apply lookup_lt_Some in Ho. lia.
  - destruct (f x h) as [v h1] eqn:E1. destruct (alloc_all f r h1) as [vs' h2] eqn:E2.
    inversion E; subst vs h'; clear E.
    destruct (Hx _ _ _ E1) as (P1 & L1 & V1 & C1 & R1).
    destruct (IH _ _ _ E2) as (P2 & L2 & V2 & C2 & R2).
    pose proof (prefix_length _ _ P1) as Len1. pose proof (prefix_length _ _ P2) as Len2.
    split5.
    + etransitivity; eassumption.
    + simpl. lia.
    + constructor.
      * eapply val_in_impl; [ | exact V1 ]. intros p. apply between_weaken; lia.
      * eapply Forall_impl; [ exact V2 | ]. intros v' Hv'.
        eapply val_in_impl; [ | exact Hv' ]. intros p. apply between_weaken; lia.
    + intros p o Hp Ho. destruct (decide (p < length h1)) as [ Hlt | Hge ].
      * rewrite <- (prefix_lookup_lt _ _ _ Hlt P2) in Ho.
        eapply Forall_impl; [ exact (C1 p o Hp Ho) | ]. intros v' Hv'.
        eapply val_in_impl; [ | exact Hv' ]. intros q. apply between_weaken; lia.
      * eapply Forall_impl; [ apply (C2 p o); [ lia | exact Ho ] | ]. intros v' Hv'.
        eapply val_in_impl; [ | exact Hv' ]. intros q. apply between_weaken; lia.
    + constructor; [ | exact R2 ]. eapply reify_fuel_prefix; eassumption.
Qed.

Lemma alloc_spec d : forall h v h', alloc d h = (v, h') -> allocated d h v h'.
Proof.
  induction d as [ | b | z | s | xs IH | items IH ] using doc_rect'; intros h v h' E;
    simpl in E;
    try (inversion E; subst; split5; simpl; try reflexivity; try lia; try exact I;
         intros p o Hp Ho; apply lookup_lt_Some in Ho; lia).
  - destruct (alloc_all alloc xs h) as [vs h1] eqn:E1. inversion E; subst v h'; clear E.
    destruct (alloc_all_spec alloc (fun x => x) xs IH _ _ _ E1) as (P1 & L1 & V1 & C1 & R1).
    pose proof (prefix_length _ _ P1) as Len1.
    assert (L1' : length h + foldr Nat.max 0 (map depth xs) <= length h1) by exact L1.
    split5.
    + etransitivity; [ exact P1 | ]. apply prefix_app_r. reflexivity.
    + rewrite length_app. simpl. lia.
    + simpl. unfold between. rewrite length_app. simpl. lia.
    + intros p o Hp Ho. rewrite length_app. simpl.
      destruct (decide (p < length h1)) as [ Hlt | Hge ].
      * rewrite lookup_app_l in Ho by exact Hlt.
        eapply Forall_impl; [ exact (C1 p o Hp Ho) | ]. intros v' Hv'.
        eapply val_in_impl; [ | exact Hv' ]. intros q. apply between_weaken; lia.
      * assert (p = length h1) as ->.
        { apply lookup_lt_Some in Ho. rewrite length_app in Ho. simpl in Ho. lia. }
        rewrite list_lookup_middle in Ho by reflexivity. inversion Ho; subst o. simpl.
        eapply Forall_impl; [ exact V1 | ]. intros v' Hv'.
        eapply val_in_impl; [ | exact Hv' ]. intros q. apply between_weaken; lia.
    + simpl. rewrite list_lookup_middle by reflexivity.
      assert (E' : mapM (reify_fuel (foldr Nat.max 0 (map depth xs)) (h1 ++ [PList vs])) vs
                   = Some xs).
      { apply mapM_Some.
        eapply Forall2_Forall_r;
          [ exact R1 | apply (max_bound_Forall depth xs); reflexivity | ].
        intros v' x Hv' Hx. cbv beta in Hx, Hv'.
        eapply reify_fuel_prefix; [ apply prefix_app_r; reflexivity | ].
        eapply reify_fuel_any; eassumption. }
      rewrite E'. reflexivity.
  - destruct (alloc_all (fun kx => alloc kx.2) items h) as [vs h1] eqn:E1.
    inversion E; subst v h'; clear E.
    destruct (alloc_all_spec (fun kx => alloc kx.2) snd items IH _ _ _ E1)
      as (P1 & L1 & V1 & C1 & R1).
    pose proof (prefix_length _ _ P1) as Len1.
    assert (L1' : length h + foldr Nat.max 0 (map (fun kx => depth kx.2) items) <= length h1)
      by exact L1.
    assert (Hlen : length vs = length items) by (eapply Forall2_length; exact R1).
    assert (Hvals : (zip items.*1 vs).*2 = vs).
    { apply snd_zip. rewrite length_fmap. lia. }
    assert (Hkeys : (zip items.*1 vs).*1 = items.*1).
    { apply fst_zip. rewrite length_fmap. lia. }
    split5.
    + etransitivity; [ exact P1 | ]. apply prefix_app_r. reflexivity.
    + rewrite length_app. simpl. lia.
    + simpl. unfold between. rewrite length_app. simpl. lia.
    + intros p o Hp Ho. rewrite length_app. simpl.
      destruct (decide (p < length h1)) as [ Hlt | Hge ].
      * rewrite lookup_app_l in Ho by exact Hlt.
        eapply Forall_impl; [ exact (C1 p o Hp Ho) | ]. intros v' Hv'.
        eapply val_in_impl; [ | exact Hv' ]. intros q. apply between_weaken; lia.
      * assert (p = length h1) as ->.
        { apply lookup_lt_Some in Ho. rewrite length_app in Ho. simpl in Ho. lia. }
        rewrite list_lookup_middle in Ho by reflexivity. inversion Ho; subst o.
        simpl. rewrite Hvals.
        eapply Forall_impl; [ exact V1 | ]. intros v' Hv'.
        eapply val_in_impl; [ | exact Hv' ]. intros q. apply between_weaken; lia.
    + simpl. rewrite list_lookup_middle by reflexivity. rewrite Hvals, Hkeys.
      assert (E' : mapM (reify_fuel (foldr Nat.max 0 (map (fun kx => depth kx.2) items))
                           (h1 ++ [POrderedDict (zip items.*1 vs)])) vs
                   = Some items.*2).
      { apply mapM_Some. apply Forall2_fmap_r.
        eapply Forall2_Forall_r;
          [ exact R1 | apply (max_bound_Forall (fun kx => depth kx.2) items); reflexivity | ].
        intros v' x Hv' Hx. cbv beta in Hx, Hv'.
        eapply reify_fuel_prefix; [ apply prefix_app_r; reflexivity | ].
        eapply reify_fuel_any; eassumption. }
      rewrite E'. simpl. rewrite zip_fst_snd. reflexivity.
Qed.

(** ** [copy.deepcopy] builds an independent copy *)

Lemma memo_ok_prefix h0 h h' memo :
  h `prefix_of` h' -> memo_ok h0 h memo -> memo_ok h0 h' memo.
Proof.
  intros Hp Hm l y Hl. destruct (Hm l y Hl) as [Hy Hr]. split; [ exact Hy | ].
  intros m d Hd. eapply reify_fuel_prefix; [ exact Hp | ]. apply Hr. exact Hd.
Qed.

Lemma copy_all_spec n h0 f :
  (forall v memo h d, h0 `prefix_of` h -> memo_ok h0 h memo ->
     reify_fuel n h0 v = Some d -> copy_ok n h0 f v memo h d) ->
  forall vs xs, Forall2 (fun v x => reify_fuel n h0 v = Some x) vs xs ->
  forall memo h, h0 `prefix_of` h -> memo_ok h0 h memo ->
  exists vs' memo' h',
    copy_all f vs memo h = Some (vs', memo', h') /\
    h `prefix_of` h' /\
    memo_ok h0 h' memo' /\
    Forall (val_in (from (length h0))) vs' /\
    Forall2 (fun v' x => reify_fuel n h' v' = Some x) vs' xs /\
    (forall p o, length h <= p -> h' !! p = Some o ->
       Forall (val_in (from (length h0))) (obj_values o)).
Proof.
  intros Hf vs xs H. induction H as [ | v x vs xs Hv _ IH ]; intros memo h Hp Hm.
  - exists [], memo, h. simpl.
    split; [ reflexivity | ]. split; [ reflexivity | ]. split; [ exact Hm | ].
    split; [ constructor | ]. split; [ constructor | ].
    intros p o Hlt Ho. apply lookup_lt_Some in Ho. lia.
  - destruct (Hf v memo h x Hp Hm Hv) as (v' & memo1 & h1 & E1 & P1 & M1 & V1 & R1 & C1).
    destruct (IH memo1 h1 (transitivity Hp P1) M1)
      as (vs' & memo2 & h2 & E2 & P2 & M2 & V2 & R2 & C2).
    exists (v' :: vs'), memo2, h2. simpl. rewrite E1, E2.
    split; [ reflexivity | ]. split; [ etransitivity; eassumption | ].
    split; [ exact M2 | ]. split; [ constructor; assumption | ].
    split; [ constructor; [ eapply reify_fuel_prefix; eassumption | exact R2 ] | ].
    intros p o Hlt Ho. destruct (decide (p < length h1)) as [ Hlt1 | Hge1 ].
    + rewrite <- (prefix_lookup_lt _ _ _ Hlt1 P2) in Ho. exact (C1 p o Hlt Ho).
    + apply (C2 p o); [ lia | exact Ho ].
Qed.

Lemma deepcopy_fuel_spec n h0 : forall v memo h d,
  h0 `prefix_of` h -> memo_ok h0 h memo -> reify_fuel n h0 v = Some d ->
  copy_ok n h0 (deepcopy_fuel n) v memo h d.
Proof.
  induction n as [ | n IH ]; intros v memo h d Hp Hm Hd.
  - destruct v as [ | b | z | s | l ]; simpl in Hd; try discriminate;
      (eexists _, memo, h; simpl; split; [ reflexivity | ];
       split; [ reflexivity | ]; split; [ exact Hm | ]; split; [ exact I | ];
       split; [ exact Hd | ];
       intros p o Hlt Ho; apply lookup_lt_Some in Ho; lia).
  - destruct v as [ | b | z | s | l ];
      try (eexists _, memo, h; simpl; split; [ reflexivity | ];
           split; [ reflexivity | ]; split; [ exact Hm | ]; split; [ exact I | ];
           split; [ exact Hd | ];
           intros p o Hlt Ho; apply lookup_lt_Some in Ho; lia).
    unfold copy_ok. simpl. destruct (memo !! l) as [ y | ] eqn:Ememo.
    { destruct (Hm l y Ememo) as [Hy Hr].
      exists (PRef y), memo, h. split; [ reflexivity | ]. split; [ reflexivity | ].
      split; [ exact Hm | ]. split; [ exact Hy | ]. split; [ exact (Hr _ _ Hd) | ].
      intros p o Hlt Ho. apply lookup_lt_Some in Ho. lia. }
    pose proof Hd as Hd0. simpl in Hd.
    destruct (h0 !! l) as [ o | ] eqn:El0; [ | discriminate ].
    pose proof (prefix_lookup_Some _ _ _ _ El0 Hp) as El. rewrite El.
    assert (Hch : exists xs, Forall2 (fun v x => reify_fuel n h0 v = Some x) (obj_values o) xs
                  /\ d = match o with
                         | POrderedDict items => DDict (zip items.*1 xs)
                         | PList _ => DList xs
                         | PDict _ => d
                         end /\
                  (forall items, o <> PDict items)).
    { destruct o as [ items | elems | items ]; simpl; [ | | discriminate ].
      - destruct (mapM (reify_fuel n h0) items.*2) as [ xs | ] eqn:E; [ | discriminate ].
        exists xs. split; [ apply mapM_Some; exact E | ]. simpl in Hd.
        split; [ congruence | discriminate ].
      - destruct (mapM (reify_fuel n h0) elems) as [ xs | ] eqn:E; [ | discriminate ].
        exists xs. split; [ apply mapM_Some; exact E | ]. simpl in Hd.
        split; [ congruence | discriminate ]. }
    destruct Hch as (xs & Hxs & Hdeq & Hplain).
    destruct (copy_all_spec n h0 (deepcopy_fuel n) IH _ _ Hxs memo h Hp Hm)
      as (vs' & memo' & h' & E & P1 & M1 & V1 & R1 & C1).
    rewrite E.
    set (o' := match o with
               | POrderedDict items => POrderedDict (zip items.*1 vs')
               | PList _ => PList vs'
               | PDict items => PDict (zip items.*1 vs')
               end).
    assert (Hlen : length vs' = length (obj_values o)).
    { apply Forall2_length in R1. apply Forall2_length in Hxs. lia. }
    assert (Hvals : obj_values o' = vs').
    { destruct o as [ items | elems | items ]; simpl; [ | reflexivity | ];
        apply snd_zip; simpl in Hlen; rewrite length_fmap in Hlen; rewrite length_fmap; lia. }
    assert (Hnew : reify_fuel (S n) (h' ++ [o']) (PRef (length h')) = Some d).
    { simpl. rewrite list_lookup_middle by reflexivity.
      assert (E' : mapM (reify_fuel n (h' ++ [o'])) vs' = Some xs).
      { apply mapM_Some. eapply Forall2_impl; [ exact R1 | ].
        intros v' x Hv'. eapply reify_fuel_prefix; [ apply prefix_app_r; reflexivity | ].
        exact Hv'. }
      subst o'. destruct o as [ items | elems | items ].
      - simpl in Hlen. rewrite length_fmap in Hlen.
        rewrite snd_zip, fst_zip by (rewrite length_fmap; lia).
        rewrite E'. simpl. congruence.
      - rewrite E'. simpl. congruence.
      - exfalso. exact (Hplain items eq_refl). }
    pose proof (prefix_length _ _ Hp) as Len0. pose proof (prefix_length _ _ P1) as Len1.
    exists (PRef (length h')), (<[l := length h']> memo'), (h' ++ [o']).
    split; [ reflexivity | ].
    split; [ etransitivity; [ exact P1 | apply prefix_app_r; reflexivity ] | ].
    split.
    { intros l' y Hl'. rewrite lookup_insert in Hl'. destruct (decide (l = l')) as [ <- | Hne ].
      - inversion Hl'; subst y. split; [ lia | ].
        intros m d2 Hd2.
        assert (d2 = d) as ->.
        { pose proof (reify_fuel_mono _ (Nat.max m (S n)) _ _ _ Hd2 (Nat.le_max_l _ _)) as A.
          pose proof (reify_fuel_mono _ (Nat.max m (S n)) _ _ _ Hd0 (Nat.le_max_r _ _)) as B.
          congruence. }
        eapply reify_fuel_any; [ exact Hnew | ]. eapply reify_fuel_depth; exact Hd2.
      - eapply memo_ok_prefix; [ | exact M1 | exact Hl' ]. apply prefix_app_r. reflexivity. }
    split; [ simpl; unfold from; lia | ].
    split; [ exact Hnew | ].
    intros p o2 Hlt Ho2. destruct (decide (p < length h')) as [ Hlt1 | Hge1 ].
    + rewrite lookup_app_l in Ho2 by exact Hlt1. exact (C1 p o2 Hlt Ho2).
    + assert (p = length h') as ->.
      { apply lookup_lt_Some in Ho2. rewrite length_app in Ho2. simpl in Ho2. lia. }
      rewrite list_lookup_middle in Ho2 by reflexivity. inversion Ho2; subst o2.
      rewrite Hvals. exact V1.
Qed.

Lemma memo_ok_empty h0 h : memo_ok h0 h ∅.
Proof. intros l y Hl. rewrite lookup_empty in Hl. discriminate. Qed.

(** A deep copy denotes the same tree and lives in objects that did not exist
    before the call. *)
Lemma deepcopy_spec h v d :
  reify h v = Some d ->
  exists c h',
    deepcopy h v = Some (c, h') /\
    h `prefix_of` h' /\
    val_in (from (length h)) c /\
    reify h' c = Some d /\
    closed_in (from (length h)) h'.
Proof.
  intros Hd. unfold reify in Hd.
  destruct (deepcopy_fuel_spec (length h) h v ∅ h d (reflexivity _) (memo_ok_empty _ _) Hd)
    as (c & memo' & h' & E & P & _ & V & R & C).
  exists c, h'. unfold deepcopy. rewrite E.
  split; [ reflexivity | ]. split; [ exact P | ]. split; [ exact V | ].
  split; [ | exact C ].
  unfold reify. eapply reify_fuel_mono; [ exact R | ]. apply prefix_length. exact P.
Qed.

(** ** Reachability stays inside a closed region *)

Lemma reach_closed (P : loc -> Prop) h l p :
  closed_in P h -> P l -> reach h l p -> P p.
Proof.
  intros Hc Hl Hr. induction Hr as [ p | p q r (o & Ho & Hq) _ IH ]; [ exact Hl | ].
  apply IH. pose proof (Hc p o Hl Ho) as Hall.
  rewrite Forall_forall in Hall. exact (Hall (PRef q) Hq).
Qed.

Lemma reach_from_closed (P : loc -> Prop) h v p :
  closed_in P h -> val_in P v -> reach_from h v p -> P p.
Proof.
  intros Hc Hv (l & -> & Hr). eapply reach_closed; eauto.
Qed.

(** ** Validators keep to the copy they are given *)

Lemma _validate_flex_frame env : environment_frame env -> validator_frame (_validate_flex env).
Proof.
  intros [Hf _] h v. unfold _validate_flex.
  destruct (flex env) as [ e | ] eqn:E; [ | simpl; split; [ lia | reflexivity ] ].
  pose proof (Hf e eq_refl h v) as He.
  destruct (e h v) as [h' [ | msg | ex ]]; exact He.
Qed.

Lemma _validate_swagger_spec_validator_frame env :
  environment_frame env -> validator_frame (_validate_swagger_spec_validator env).
Proof.
  intros [_ Hs] h v. unfold _validate_swagger_spec_validator.
  destruct (swagger_spec_validator env) as [ e | ] eqn:E;
    [ | simpl; split; [ lia | reflexivity ] ].
  pose proof (Hs e eq_refl h v) as He.
  destruct (e h v) as [h' [ | msg | ex ]]; exact He.
Qed.

Lemma VALIDATORS_lookup name f :
  VALIDATORS !! name = Some f ->
  (name = "flex" /\ f = _validate_flex) \/
  (name = "ssv" /\ f = _validate_swagger_spec_validator).
Proof.
  unfold VALIDATORS. intros H.
  rewrite lookup_insert in H. destruct (decide ("flex" = name)) as [ <- | _ ].
  { left. split; [ reflexivity | congruence ]. }
  rewrite lookup_insert in H. destruct (decide ("ssv" = name)) as [ <- | _ ].
  { right. split; [ reflexivity | congruence ]. }
  rewrite lookup_empty in H. discriminate.
Qed.

Lemma VALIDATORS_frame env name f :
  environment_frame env -> VALIDATORS !! name = Some f -> validator_frame (f env).
Proof.
  intros He H. destruct (VALIDATORS_lookup _ _ H) as [ [_ ->] | [_ ->] ].
  - apply _validate_flex_frame. exact He.
  - apply _validate_swagger_spec_validator_frame. exact He.
Qed.

(** ** The spec stays intact through the loop *)

Lemma intact_agree a b spec d h h' :
  intact a b spec d h -> agree_on (between a b) h h' -> length h <= length h' ->
  intact a b spec d h'.
Proof.
  intros (Hc & Hv & Hb & Hr) Ha Hlen. split; [ | split; [ exact Hv | split; [ lia | ] ] ].
  - intros p o Hp Ho. rewrite (Ha p Hp) in Ho. exact (Hc p o Hp Ho).
  - unfold reify. rewrite (reify_fuel_agree _ h h' _ Hc Ha spec Hv).
    eapply reify_fuel_mono; [ exact Hr | exact Hlen ].
Qed.

Lemma generate_swagger_object_intact self items h spec h1 :
  generate_swagger_object self items h = (spec, h1) ->
  intact (length h) (length h1) spec (DDict items) h1.
Proof.
  intros E. unfold generate_swagger_object, as_odict in E.
  destruct (alloc_spec _ _ _ _ E) as (P & L & V & C & R).
  split; [ | split; [ exact V | split; [ lia | ] ] ].
  - intros p o [Hp _] Ho. exact (C p o Hp Ho).
  - unfold reify. eapply reify_fuel_mono; [ exact R | lia ].
Qed.

Lemma deepcopy_intact a b spec d h :
  intact a b spec d h ->
  exists c h1,
    deepcopy h spec = Some (c, h1) /\
    intact a b spec d h1 /\
    reify h1 c = Some d /\
    disjoint_from h1 c spec /\
    (forall p, between a b p -> p < length h1 /\ ~ reach_from h1 c p).
Proof.
  intros Hi. pose proof Hi as (Hc & Hv & Hb & Hr).
  destruct (deepcopy_spec h spec d Hr) as (c & h1 & E & P & V & R & C).
  pose proof (prefix_length _ _ P) as Hlen.
  assert (Hi1 : intact a b spec d h1).
  { eapply intact_agree; [ exact Hi | | exact Hlen ].
    intros p [_ Hp]. symmetry. apply prefix_lookup_lt; [ lia | exact P ]. }
  assert (Hout : forall p, between a b p -> ~ reach_from h1 c p).
  { intros p [_ Hp] Hreach.
    pose proof (reach_from_closed _ _ _ _ C V Hreach) as Hge. unfold from in Hge. lia. }
  exists c, h1. split; [ exact E | ]. split; [ exact Hi1 | ]. split; [ exact R | ].
  split.
  - intros p Hcp Hsp. destruct Hi1 as (Hc1 & _).
    pose proof (reach_from_closed _ _ _ _ Hc1 Hv Hsp) as Hin. exact (Hout p Hin Hcp).
  - intros p Hp. split; [ destruct Hp; lia | exact (Hout p Hp) ].
Qed.

Section SpecIntact.

Variable env : environment.
Hypothesis env_frame : environment_frame env.
Variables (a b : nat) (spec : pyval) (d : doc).

Lemma call_validator_intact name h :
  intact a b spec d h -> intact a b spec d (call_validator env name spec h).1.
Proof.
  intros Hi. unfold call_validator.
  destruct (VALIDATORS !! name) as [ f | ] eqn:Ef; [ | exact Hi ].
  destruct (deepcopy_intact _ _ _ _ _ Hi) as (c & h1 & E & Hi1 & _ & _ & Hout).
  rewrite E. destruct (VALIDATORS_frame env name f env_frame Ef h1 c) as [Hlen Hframe].
  eapply intact_agree; [ exact Hi1 | | exact Hlen ].
  intros p Hp. destruct (Hout p Hp) as [Hlt Hnr]. exact (Hframe p Hlt Hnr).
Qed.

Lemma validate_one_heap name h errors :
  (validate_one env name spec h errors).1 = (call_validator env name spec h).1.
Proof.
  unfold validate_one. destruct (call_validator env name spec h) as [h2 [ [] | e ]];
    [ reflexivity | destruct e; reflexivity ].
Qed.

Lemma run_validators_intact vs : forall h errors,
  intact a b spec d h -> intact a b spec d (run_validators env vs spec h errors).1.
Proof.
  induction vs as [ | name rest IH ]; intros h errors Hi; simpl; [ exact Hi | ].
  pose proof (call_validator_intact name h Hi) as Hi'.
  rewrite <- (validate_one_heap name h errors) in Hi'.
  destruct (validate_one env name spec h errors) as [h' [ errors' | e ]]; simpl in Hi'.
  - apply IH; assumption.
  - exact Hi'.
Qed.


End SpecIntact.

(** ** The YAML representer on a tree *)

Section Loops.

(** The two loops, for any representer [rd] that represents the children as
    the trees they denote and leaves the registry alone. *)
Variable self : dumper.
Variable rd : pyval -> gset loc -> option (node * gset loc).

Lemma represent_elems_tree (vs : list pyval) (xs : list doc) :
  Forall2 (fun v x => forall ro, rd v ro = Some (represent_doc self x, ro)) vs xs ->
  forall ro, represent_elems rd vs ro =
    Some (map (represent_doc self) xs, forallb plain_scalar (map (represent_doc self) xs), ro).
Proof.
  induction 1 as [ | v x vs xs Hv _ IH ]; intros ro; simpl; [ reflexivity | ].
  rewrite Hv, IH. reflexivity.
Qed.

Lemma represent_items_tree (items : list (string * pyval)) (xs : list doc) :
  (forall s ro, rd (PStr s) ro = Some (represent_text self s, ro)) ->
  Forall2 (fun v x => forall ro, rd v ro = Some (represent_doc self x, ro)) items.*2 xs ->
  forall ro,
    let value := map (fun kx => (represent_text self kx.1, represent_doc self kx.2))
                   (zip items.*1 xs) in
    represent_items rd items ro =
      Some (value, forallb (fun kv => plain_scalar kv.1 && plain_scalar kv.2) value, ro).
Proof.
  intros Hs. revert xs. induction items as [ | [k v] r IH ]; intros xs H ro.
  - inversion H; subst. reflexivity.
  - simpl in H. inversion H as [ | v' x vs' xs' Hv Hr ]; subst. simpl.
    rewrite Hs, Hv. specialize (IH _ Hr ro). simpl in IH. rewrite IH. reflexivity.
Qed.

End Loops.

(** With aliases ignored the graph of an object is the graph of the tree it
    denotes, whatever has been represented before. *)
Lemma represent_data_tree (self : dumper) n :
  (forall v, ignore_aliases self v = true) ->
  forall h v d ro,
    reify_fuel n h v = Some d ->
    represent_data self n h v ro = Some (represent_doc self d, ro).
Proof.
  intros Hig. induction n as [ | n IH ]; intros h v d ro H.
  - destruct v; simpl in H; inversion H; subst; reflexivity.
  - destruct v as [ | b | z | s | l ]; simpl in H; try (inversion H; subst; reflexivity).
    simpl. rewrite Hig.
    rewrite bool_decide_eq_false_2 by (intros [? _]; discriminate).
    destruct (h !! l) as [ [ items | elems | items ] | ]; [ | | discriminate | discriminate ].
    + destruct (mapM (reify_fuel n h) items.*2) as [ xs | ] eqn:E; [ | discriminate ].
      simpl in H. inversion H; subst d; clear H. apply mapM_Some in E.
      unfold represent_odict.
      rewrite (represent_items_tree self _ items xs).
      * reflexivity.
      * intros s ro'. destruct n; reflexivity.
      * eapply Forall2_impl; [ exact E | ]. intros v x Hv ro'. apply IH. exact Hv.
    + destruct (mapM (reify_fuel n h) elems) as [ xs | ] eqn:E; [ | discriminate ].
      simpl in H. inversion H; subst d; clear H. apply mapM_Some in E.
      unfold represent_list.
      rewrite (represent_elems_tree self _ elems xs).
      * reflexivity.
      * eapply Forall2_impl; [ exact E | ]. intros v x Hv ro'. apply IH. exact Hv.
Qed.

Lemma yaml_sane_dump_tree lib h v d binary :
  reify h v = Some d ->
  yaml_sane_dump lib h v binary = Ok (yaml_emit lib (represent_doc SaneYamlDumper d)).
Proof.
  intros H. unfold yaml_sane_dump.
  rewrite (represent_data_tree SaneYamlDumper (length h) (fun _ => eq_refl) h v d ∅ H).
  reflexivity.
Qed.

(** On a document [json.dumps] walks the tree the document denotes. *)
Lemma json_tree_fuel_reify n : forall h v d,
  reify_fuel n h v = Some d -> json_tree_fuel n h v = Some d.
Proof.
  induction n as [ | n IH ]; intros h v d H.
  - destruct v; simpl in *; congruence.
  - destruct v as [ | b | z | s | l ]; simpl in *; try congruence.
    destruct (h !! l) as [ [ items | elems | items ] | ]; [ | | discriminate | discriminate ].
    + destruct (mapM (reify_fuel n h) items.*2) as [ xs | ] eqn:E; [ | discriminate ].
      assert (E' : mapM (json_tree_fuel n h) items.*2 = Some xs).
      { apply mapM_Some. apply mapM_Some in E. eapply Forall2_impl; [ exact E | ].
        intros; eapply IH; eauto. }
      rewrite E'. exact H.
    + destruct (mapM (reify_fuel n h) elems) as [ xs | ] eqn:E; [ | discriminate ].
      assert (E' : mapM (json_tree_fuel n h) elems = Some xs).
      { apply mapM_Some. apply mapM_Some in E. eapply Forall2_impl; [ exact E | ].
        intros; eapply IH; eauto. }
      rewrite E'. exact H.
Qed.

Lemma _dump_dict_tree self lib h spec d :
  reify h spec = Some d -> _dump_dict self lib h spec = dump_doc self lib d.
Proof.
  intros H. destruct self as [ vs pretty mt | vs mt ]; simpl.
  - unfold json_tree. rewrite (json_tree_fuel_reify _ _ _ _ H). reflexivity.
  - apply yaml_sane_dump_tree. exact H.
Qed.

(** ** Texts *)

Lemma append_cons (x : ascii) (a b : string) : String x a +:+ b = String x (a +:+ b).
Proof. reflexivity. Qed.

Lemma append_nil_l (b : string) : EmptyString +:+ b = b.
Proof. reflexivity. Qed.

Lemma append_assoc (a b c : string) : (a +:+ b) +:+ c = a +:+ (b +:+ c).
Proof.
  induction a as [ | x a IH ]; [ reflexivity | ].
  rewrite !append_cons, IH. reflexivity.
Qed.

Lemma append_nil_r (a : string) : a +:+ EmptyString = a.
Proof.
  induction a as [ | x a IH ]; [ reflexivity | ].
  rewrite append_cons, IH. reflexivity.
Qed.

Lemma string_forall_app P (a b : string) :
  string_forall P (a +:+ b) = string_forall P a && string_forall P b.
Proof.
  induction a as [ | x a IH ]; [ reflexivity | ].
  rewrite append_cons. simpl. rewrite IH. apply andb_assoc.
Qed.

Lemma string_forall_impl (P Q : ascii -> bool) (s : string) :
  (forall c, P c = true -> Q c = true) -> string_forall P s = true -> string_forall Q s = true.
Proof.
  intros H. induction s as [ | x s IH ]; simpl; [ reflexivity | ].
  intros E. apply andb_true_iff in E as [E1 E2].
  rewrite (H x E1), (IH E2). reflexivity.
Qed.

Lemma last_char_app_Some (a b : string) (c : ascii) :
  last_char b = Some c -> last_char (a +:+ b) = Some c.
Proof.
  intros H. induction a as [ | x a IH ]; [ exact H | ].
  rewrite append_cons. simpl.
  destruct (a +:+ b) eqn:E; [ discriminate | exact IH ].
Qed.

Lemma last_char_snoc (s : string) (c : ascii) : last_char (s +:+ chr c) = Some c.
Proof. apply last_char_app_Some. reflexivity. Qed.

Lemma last_char_forall P (s : string) (c : ascii) :
  string_forall P s = true -> last_char s = Some c -> P c = true.
Proof.
  induction s as [ | x s IH ]; simpl; [ discriminate | ].
  intros E H. apply andb_true_iff in E as [E1 E2].
  destruct s as [ | y s ]; [ inversion H; subst; exact E1 | exact (IH E2 H) ].
Qed.

Lemma last_char_nonempty (s : string) : s <> EmptyString -> exists c, last_char s = Some c.
Proof.
  induction s as [ | x s IH ]; intros H; [ congruence | ].
  destruct s as [ | y s ]; [ exists x; reflexivity | ].
  destruct IH as [c Hc]; [ discriminate | ]. exists c. exact Hc.
Qed.

Lemma contains_char_forall (c : ascii) (s : string) :
  contains_char c s = negb (string_forall (fun x => negb (Ascii.eqb c x)) s).
Proof.
  induction s as [ | x s IH ]; simpl; [ reflexivity | ].
  rewrite IH. destruct (Ascii.eqb c x); simpl; [ reflexivity | reflexivity ].
Qed.

(** ** Decimal numerals *)

Lemma string_of_uint_digits (d : Decimal.uint) :
  string_forall is_digit_or_minus (NilEmpty.string_of_uint d) = true.
Proof. induction d; simpl; auto. Qed.

Lemma string_of_Z_digits (z : Z) : string_forall is_digit_or_minus (string_of_Z z) = true.
Proof.
  unfold string_of_Z, NilZero.string_of_int.
  destruct (Z.to_int z) as [ d | d ]; unfold NilZero.string_of_uint;
    destruct d; try reflexivity; simpl; apply string_of_uint_digits.
Qed.

Lemma string_of_Z_nonempty (z : Z) : string_of_Z z <> EmptyString.
Proof.
  unfold string_of_Z, NilZero.string_of_int.
  destruct (Z.to_int z) as [ d | d ]; unfold NilZero.string_of_uint;
    destruct d; simpl; discriminate.
Qed.

(** ** [json.dumps]: shape of the output *)

Lemma json_escape_char_no_newline (c : ascii) :
  string_forall not_newline (json_escape_char c) = true.
Proof. destruct c as [ [] [] [] [] [] [] [] [] ]; reflexivity. Qed.

Lemma string_bind_forall P f (s : string) :
  (forall c, string_forall P (f c) = true) -> string_forall P (string_bind f s) = true.
Proof.
  intros H. induction s as [ | x s IH ]; simpl; [ reflexivity | ].
  rewrite string_forall_app, H, IH. reflexivity.
Qed.

Lemma py_encode_basestring_no_newline (s : string) :
  string_forall not_newline (py_encode_basestring s) = true.
Proof.
  unfold py_encode_basestring. rewrite !string_forall_app.
  rewrite (string_bind_forall _ _ _ json_escape_char_no_newline). reflexivity.
Qed.

(** Whatever the options, the output ends with a character that is not a
    line break: a bracket, a quote, a digit or a letter. *)
Lemma json_encode_last (o : json_options) (level : nat) (d : doc) :
  exists c, last_char (json_encode o level d) = Some c /\ c <> newline.
Proof.
  destruct d as [ | [ | ] | z | s | [ | x xs ] | [ | kx items ] ];
    try (eexists; split; [ reflexivity | discriminate ]).
  - destruct (last_char_nonempty _ (string_of_Z_nonempty z)) as [c Hc].
    exists c. split; [ exact Hc | ].
    pose proof (last_char_forall _ _ _ (string_of_Z_digits z) Hc) as Hd.
    intros ->. discriminate.
  - exists dquote. split; [ | discriminate ].
    unfold json_encode, py_encode_basestring.
    do 2 apply last_char_app_Some. reflexivity.
  - exists "]"%char. split; [ | discriminate ].
    cbn [json_encode]. do 4 apply last_char_app_Some. reflexivity.
  - exists "}"%char. split; [ | discriminate ].
    cbn [json_encode]. do 4 apply last_char_app_Some. reflexivity.
Qed.

(** [OpenAPICodecJson._dump_dict] always returns; in pretty mode the line
    break is always added, since [json.dumps] never ends with one. *)
Lemma json_dump_dict_pretty (d : doc) :
  json_dump_dict true d = Ok (json_dumps pretty_options d +:+ chr newline).
Proof.
  unfold json_dump_dict, json_dumps.
  destruct (json_encode_last pretty_options 0 d) as (c & Hc & Hn). rewrite Hc.
  destruct (Ascii.eqb_spec c newline) as [ -> | _ ]; [ congruence | reflexivity ].
Qed.

Lemma json_dump_dict_total (pretty : bool) (d : doc) :
  exists out, json_dump_dict pretty d = Ok out.
Proof.
  destruct pretty; [ rewrite json_dump_dict_pretty | ]; eexists; reflexivity.
Qed.

Lemma dump_doc_total self lib d : exists out, dump_doc self lib d = Ok out.
Proof.
  destruct self as [ vs pretty mt | vs mt ]; simpl;
    [ apply json_dump_dict_total | eexists; reflexivity ].
Qed.

(** ** The loop and its trace *)

Lemma validate_one_call env name spec h errors :
  validate_one env name spec h errors =
    let '(h', r) := call_validator env name spec h in
    (h', if crashed r then match r with Raise e => Raise e | Ok _ => Ok errors end
         else match failure_msg r with
              | Some e => Ok (dict_set errors name e)
              | None => Ok errors
              end).
Proof.
  unfold validate_one. destruct (call_validator env name spec h) as [h' [ [] | e ]];
    [ reflexivity | destruct e; reflexivity ].
Qed.

(** The loop against its trace: it ends with the first crash, and otherwise
    visits every validator and stores exactly the failures. *)
Lemma run_validators_trace env spec vs : forall h errors,
  let trace := validation_trace env vs spec h in
  match (run_validators env vs spec h errors).2 with
  | Ok errors' =>
      no_crash trace = true /\ trace.*1 = vs /\
      errors' = foldl (fun d kv => dict_set d kv.1 kv.2) errors (failures trace)
  | Raise e =>
      no_crash trace = false /\ crashed (Raise e) = true /\
      exists name, last trace = Some (name, Raise e)
  end.
Proof.
  induction vs as [ | name rest IH ]; intros h errors; simpl.
  - repeat split.
  - rewrite validate_one_call.
    destruct (call_validator env name spec h) as [h' r] eqn:Ec.
    destruct (crashed r) eqn:Ecr.
    + destruct r as [ [] | e ]; [ discriminate | ]. simpl in Ecr |- *. rewrite Ecr.
      split; [ reflexivity | ]. split; [ reflexivity | ]. exists name. reflexivity.
    + assert (Hstep : exists errors1,
                (match failure_msg r with
                 | Some e => Ok (dict_set errors name e)
                 | None => Ok errors
                 end) = Ok errors1 /\
                foldl (fun d kv => dict_set d kv.1 kv.2) errors
                  (failures ((name, r) :: validation_trace env rest spec h')) =
                foldl (fun d kv => dict_set d kv.1 kv.2) errors1
                  (failures (validation_trace env rest spec h'))).
      { unfold failures. simpl. destruct (failure_msg r) as [ e | ]; eexists; split;
          reflexivity. }
      destruct Hstep as (errors1 & -> & Hfold).
      specialize (IH h' errors1). simpl in IH.
      destruct ((run_validators env rest spec h' errors1).2) as [ errors' | e ] eqn:Er.
      * destruct IH as (Hnc & Hnames & Herr).
        unfold no_crash in *. simpl. rewrite Ecr. simpl.
        split; [ exact Hnc | ]. split; [ f_equal; exact Hnames | ].
        etransitivity; [ exact Herr | symmetry; exact Hfold ].
      * destruct IH as (Hnc & Hcr & name' & Hlast).
        unfold no_crash in *. simpl. rewrite Ecr. simpl.
        split; [ exact Hnc | ]. split; [ exact Hcr | ]. exists name'.
        destruct (validation_trace env rest spec h'); [ discriminate | exact Hlast ].
Qed.


Lemma validation_loop_unique env spec h vs trace inputs h' :
  validation_loop env spec h vs trace inputs h' ->
  trace = validation_trace env vs spec h /\
  forall errors, h' = (run_validators env vs spec h errors).1.
Proof.
  induction 1 as [ h | h name rest Hn | h name rest f Hf Hc
                 | h name rest f copy h1 h2 r trace inputs h' Hf Hc Hcall Hcr Hloop IH
                 | h name rest f copy h1 h2 r Hf Hc Hcall Hcr ].
  - split; [ reflexivity | intros; reflexivity ].
  - assert (E : call_validator env name spec h = (h, Raise (KeyError name))).
    { unfold call_validator. rewrite Hn. reflexivity. }
    split; [ simpl; rewrite E; reflexivity | ].
    intros errors. simpl. rewrite validate_one_call, E. reflexivity.
  - assert (E : call_validator env name spec h = (h, Raise RecursionError)).
    { unfold call_validator. rewrite Hf, Hc. reflexivity. }
    split; [ simpl; rewrite E; reflexivity | ].
    intros errors. simpl. rewrite validate_one_call, E. reflexivity.
  - assert (E : call_validator env name spec h = (h2, r)).
    { unfold call_validator. rewrite Hf, Hc. exact Hcall. }
    destruct IH as [-> IH].
    split; [ simpl; rewrite E, Hcr; reflexivity | ].
    intros errors. simpl. rewrite validate_one_call, E, Hcr.
    destruct (failure_msg r); apply IH.
  - assert (E : call_validator env name spec h = (h2, r)).
    { unfold call_validator. rewrite Hf, Hc. exact Hcall. }
    split; [ simpl; rewrite E, Hcr; reflexivity | ].
    intros errors. simpl. rewrite validate_one_call, E, Hcr.
    destruct r as [ [] | e ]; [ discriminate | reflexivity ].
Qed.

(** A loop that no call ended has called every validator. *)
Lemma validation_loop_complete env spec h vs trace inputs h' :
  validation_loop env spec h vs trace inputs h' ->
  no_crash trace = true ->
  trace.*1 = vs /\ length inputs = length vs.
Proof.
  induction 1 as [ h | h name rest Hn | h name rest f Hf Hc
                 | h name rest f copy h1 h2 r trace inputs h' Hf Hc Hcall Hcr Hloop IH
                 | h name rest f copy h1 h2 r Hf Hc Hcall Hcr ]; intros Hnc.
  - split; reflexivity.
  - discriminate.
  - discriminate.
  - unfold no_crash in Hnc. simpl in Hnc. rewrite Hcr in Hnc. simpl in Hnc.
    destruct (IH Hnc) as [Hn Hl]. simpl. rewrite Hl.
    split; [ f_equal; exact Hn | reflexivity ].
  - unfold no_crash in Hnc. simpl in Hnc. rewrite Hcr in Hnc. discriminate.
Qed.

(** ** Insertion-ordered dicts *)

Lemma dict_set_fresh {V} (d : list (string * V)) k v :
  k ∉ d.*1 -> dict_set d k v = d ++ [(k, v)].
Proof.
  induction d as [ | [k' v'] r IH ]; simpl; intros H; [ reflexivity | ].
  rewrite not_elem_of_cons in H. destruct H as [Hne Hr].
  destruct (String.eqb_spec k k') as [ -> | _ ]; [ congruence | ].
  rewrite (IH Hr). reflexivity.
Qed.

Lemma dict_set_keys {V} (d : list (string * V)) k v k0 :
  k0 ∈ (dict_set d k v).*1 <-> k0 ∈ d.*1 \/ k0 = k.
Proof.
  induction d as [ | [k' v'] r IH ]; simpl.
  - rewrite list_elem_of_singleton. split; [ auto | intros [ H | H ]; [ inversion H | exact H ] ].
  - destruct (String.eqb_spec k k') as [ -> | Hne ]; simpl.
    + rewrite !elem_of_cons. tauto.
    + rewrite !elem_of_cons, IH. tauto.
Qed.

Lemma dict_set_elem {V} (d : list (string * V)) k v kv :
  kv ∈ dict_set d k v -> kv ∈ d \/ kv = (k, v).
Proof.
  induction d as [ | [k' v'] r IH ]; simpl.
  - rewrite list_elem_of_singleton. auto.
  - destruct (String.eqb_spec k k') as [ -> | Hne ]; rewrite !elem_of_cons.
    + intros [ H | H ]; auto.
    + intros [ H | H ]; [ auto | ]. destruct (IH H); auto.
Qed.

Lemma foldl_dict_set_keys {V} (l d : list (string * V)) k0 :
  k0 ∈ (foldl (fun d kv => dict_set d kv.1 kv.2) d l).*1 <-> k0 ∈ d.*1 \/ k0 ∈ l.*1.
Proof.
  revert d. induction l as [ | [k v] r IH ]; intros d; simpl.
  - rewrite elem_of_nil. tauto.
  - rewrite IH, dict_set_keys, elem_of_cons. tauto.
Qed.

Lemma foldl_dict_set_elem {V} (l d : list (string * V)) kv :
  kv ∈ foldl (fun d kv => dict_set d kv.1 kv.2) d l -> kv ∈ d \/ kv ∈ l.
Proof.
  revert d. induction l as [ | [k v] r IH ]; intros d; simpl; [ auto | ].
  intros H. destruct (IH _ H) as [ H1 | H1 ]; [ | right; apply elem_of_cons; auto ].
  destruct (dict_set_elem _ _ _ _ H1) as [ H2 | -> ]; [ auto | ].
  right. apply elem_of_cons. auto.
Qed.

Lemma foldl_dict_set_NoDup {V} (l d : list (string * V)) :
  NoDup (d ++ l).*1 -> foldl (fun d kv => dict_set d kv.1 kv.2) d l = d ++ l.
Proof.
  revert d. induction l as [ | [k v] r IH ]; intros d H; simpl.
  - rewrite app_nil_r. reflexivity.
  - assert (Hk : k ∉ d.*1).
    { rewrite fmap_app in H. simpl in H. apply NoDup_app in H as (_ & Hd & _).
      intros Hin. apply (Hd k Hin). apply elem_of_cons. auto. }
    rewrite (dict_set_fresh d k v Hk). rewrite IH.
    + rewrite <- app_assoc. reflexivity.
    + rewrite <- app_assoc. exact H.
Qed.

(** [OrderedDict(pairs)] keeps pairs with distinct keys as they are. *)
Lemma OrderedDict_of_pairs_NoDup {V} (l : list (string * V)) :
  NoDup l.*1 -> OrderedDict_of_pairs l = l.
Proof. intros H. unfold OrderedDict_of_pairs. apply (foldl_dict_set_NoDup l []). exact H. Qed.

(** ** What the error message mentions *)

Lemma substring_of_refl s : substring_of s s.
Proof. exists EmptyString, EmptyString. rewrite append_nil_r. reflexivity. Qed.

Lemma substring_of_app_l s a t : substring_of s t -> substring_of s (a +:+ t).
Proof.
  intros (pre & post & ->). exists (a +:+ pre), post. rewrite append_assoc. reflexivity.
Qed.

Lemma substring_of_app_r s t b : substring_of s t -> substring_of s (t +:+ b).
Proof.
  intros (pre & post & ->). exists pre, (post +:+ b). rewrite !append_assoc. reflexivity.
Qed.

Lemma concat_cons sep x y (l : list string) :
  String.concat sep (x :: y :: l) = x +:+ sep +:+ String.concat sep (y :: l).
Proof. reflexivity. Qed.

Lemma substring_of_concat sep (l : list string) x :
  x ∈ l -> substring_of x (String.concat sep l).
Proof.
  induction l as [ | y [ | z r ] IH ]; intros H.
  - inversion H.
  - apply list_elem_of_singleton in H as ->. apply substring_of_refl.
  - rewrite concat_cons. apply elem_of_cons in H as [ -> | H ].
    + apply substring_of_app_r. apply substring_of_refl.
    + do 2 apply substring_of_app_l. apply IH. exact H.
Qed.

Lemma dict_repr_mentions lib (d : list (string * string)) k e :
  (k, e) ∈ d -> substring_of (py_repr lib k +:+ ": " +:+ py_repr lib e) (dict_repr lib d).
Proof.
  intros H. unfold dict_repr. apply substring_of_app_l, substring_of_app_r.
  apply substring_of_concat.
  apply (list_elem_of_fmap_2 (fun kv : string * string => py_repr lib kv.1 +:+ ": " +:+ py_repr lib kv.2) _ _ H).
Qed.

(** ** [encode] *)

Lemma encode_Swagger env lib self items h :
  let spec := (generate_swagger_object self items h).1 in
  let h1 := (generate_swagger_object self items h).2 in
  let run := run_validators env (validators self) spec h1 [] in
  encode env lib self (Swagger items) h =
    (run.1,
     match run.2 with
     | Raise e => Raise e
     | Ok [] =>
         match _dump_dict self lib run.1 spec with
         | Ok out => Ok (force_bytes out)
         | Raise e => Raise e
         end
     | Ok (kv :: errors) =>
         Raise (SwaggerValidationError
                  ("spec validation failed: " +:+ dict_repr lib (kv :: errors))
                  (Some (kv :: errors)) (Some spec) (Some self))
     end).
Proof.
  simpl. unfold encode. destruct (generate_swagger_object self items h) as [spec h1]. simpl.
  destruct (run_validators env (validators self) spec h1 []) as [h2 [ [ | kv errors ] | e ]];
    simpl; [ | reflexivity | reflexivity ].
  destruct (_dump_dict self lib h2 spec); reflexivity.
Qed.

Lemma _dump_dict_not_validation_error self lib h spec msg errors sp c :
  _dump_dict self lib h spec <> Raise (SwaggerValidationError msg errors sp c).
Proof.
  destruct self as [ vs pretty mt | vs mt ]; simpl.
  - destruct (json_tree h spec) as [ d | ]; [ | discriminate ].
    destruct (json_dump_dict_total pretty d) as [out ->]. discriminate.
  - unfold yaml_sane_dump.
    destruct (represent_data SaneYamlDumper (length h) h spec ∅) as [ [n ro] | ]; discriminate.
Qed.

Lemma run_validators_app env spec l1 : forall l2 h errors,
  run_validators env (l1 ++ l2) spec h errors =
    match run_validators env l1 spec h errors with
    | (h', Ok errors') => run_validators env l2 spec h' errors'
    | (h', Raise e) => (h', Raise e)
    end.
Proof.
  induction l1 as [ | name rest IH ]; intros l2 h errors; simpl; [ reflexivity | ].
  destruct (validate_one env name spec h errors) as [h' [ errors' | e ]];
    [ apply IH | reflexivity ].
Qed.

Lemma failures_names_sublist (trace : list (string * result unit)) :
  (failures trace).*1 `sublist_of` trace.*1.
Proof.
  induction trace as [ | [name r] t IH ]; [ constructor | ].
  unfold failures. simpl. destruct (failure_msg r); simpl.
  - apply sublist_skip. exact IH.
  - apply sublist_cons. exact IH.
Qed.

Lemma failures_elem (trace : list (string * result unit)) name e :
  (name, e) ∈ failures trace <-> exists r, (name, r) ∈ trace /\ failure_msg r = Some e.
Proof.
  unfold failures. rewrite list_elem_of_omap. split.
  - intros ([n r] & Hin & H). simpl in H. destruct (failure_msg r) eqn:E; [ | discriminate ].
    inversion H; subst. exists r. auto.
  - intros (r & Hin & H). exists (name, r). simpl. rewrite H. auto.
Qed.

Lemma sample_engine_frame msg : engine_frame (annotating_engine msg).
Proof.
  intros h v. unfold annotating_engine.
  destruct v as [ | b | z | s | l ]; simpl; try (split; [ lia | reflexivity ]).
  destruct (h !! l) as [ [ items | elems | items ] | ] eqn:El; simpl;
    try (split; [ lia | reflexivity ]).
  rewrite length_insert. split; [ lia | ].
  intros p Hp Hnr. apply list_lookup_insert_ne. intros ->.
  apply Hnr. exists p. split; [ reflexivity | constructor ].
Qed.

Lemma sample_environment_frame : environment_frame sample_environment.
Proof.
  split; intros e H; inversion H; subst; apply sample_engine_frame.
Qed.


(** What [encode] returns on success is the dump of the document as it was
    converted. *)
Lemma encode_Ok_dump env lib self items h out :
  environment_frame env ->
  (encode env lib self (Swagger items) h).2 = Ok out ->
  exists text, dump_doc self lib (DDict items) = Ok text /\ out = force_bytes text.
Proof.
  intros He Hout.
  pose proof (encode_Swagger env lib self items h) as Henc. cbv zeta in Henc.
  rewrite Henc in Hout. clear Henc. simpl in Hout.
  destruct (generate_swagger_object self items h) as [spec h1] eqn:Eg. simpl in Hout.
  pose proof (generate_swagger_object_intact self items h spec h1 Eg) as Hi.
  pose proof (run_validators_intact env He _ _ spec _ (validators self) h1 [] Hi)
    as (_ & _ & _ & Hrf).
  destruct (run_validators env (validators self) spec h1 []) as [hf [ [ | kv errs ] | e ]];
    simpl in *; try discriminate.
  rewrite (_dump_dict_tree _ _ _ _ _ Hrf) in Hout.
  destruct (dump_doc self lib (DDict items)) as [ text | e ]; [ | discriminate ].
  exists text. split; [ reflexivity | congruence ].
Qed.


(** * The claims *)

(** C10.  With an empty validator list [encode] calls no validator and raises
    no validation error: for every Swagger document it returns the bytes of
    [_dump_dict] on the converted document, which always succeeds. *)
Theorem encode_without_validators env lib self items h :
  validators self = [] ->
  let spec := (generate_swagger_object self items h).1 in
  let h1 := (generate_swagger_object self items h).2 in
  validation_trace env (validators self) spec h1 = [] /\
  exists out,
    _dump_dict self lib h1 spec = Ok out /\
    dump_doc self lib (DDict items) = Ok out /\
    encode env lib self (Swagger items) h = (h1, Ok (force_bytes out)).
Proof.
  intros Hv spec h1. split; [ rewrite Hv; reflexivity | ].
  pose proof (generate_swagger_object_intact self items h spec h1) as Hi.
  destruct Hi as (_ & _ & _ & Hr).
  { subst spec h1. destruct (generate_swagger_object self items h); reflexivity. }
  destruct (dump_doc_total self lib (DDict items)) as [out Hout].
  exists out. rewrite (_dump_dict_tree self lib h1 spec _ Hr).
  split; [ exact Hout | ]. split; [ exact Hout | ].
  rewrite encode_Swagger. fold spec h1. rewrite Hv. simpl.
  rewrite (_dump_dict_tree self lib h1 spec _ Hr), Hout. reflexivity.
Qed.

Lemma encode_without_validators_witness :
  encode bare_environment sample_library (OpenAPICodecJson [] false "application/json")
    (Swagger [("a", DInt 1)]) [] =
  ([POrderedDict [("a", PInt 1)]],
   Ok (force_bytes (json_dumps default_options (DDict [("a", DInt 1)])))).
Proof.
  destruct (encode_without_validators bare_environment sample_library
              (OpenAPICodecJson [] false "application/json") [("a", DInt 1)] [] eq_refl)
    as (_ & out & _ & Hd & He).
  simpl in Hd. inversion Hd; subst out. exact He.
Defined.



Lemma failures_nil_iff (trace : list (string * result unit)) :
  failures trace = [] <-> ~ exists name res e, (name, res) ∈ trace /\ failure_msg res = Some e.
Proof.
  split.
  - intros H (name & res & e & Hin & Hm).
    assert (Hf : (name, e) ∈ failures trace) by (apply failures_elem; eauto).
    rewrite H in Hf. inversion Hf.
  - intros H. destruct (failures trace) as [ | [name e] l ] eqn:E; [ reflexivity | ].
    exfalso. apply H.
    assert (Hf : (name, e) ∈ failures trace) by (rewrite E; constructor).
    apply failures_elem in Hf as (res & Hin & Hm). eauto.
Qed.

Lemma OrderedDict_of_pairs_nil {V} (l : list (string * V)) :
  OrderedDict_of_pairs l = [] -> l = [].
Proof.
  intros H. destruct l as [ | [k v] r ]; [ reflexivity | ].
  assert (Hk : k ∈ (OrderedDict_of_pairs ((k, v) :: r)).*1).
  { unfold OrderedDict_of_pairs. apply foldl_dict_set_keys. right. simpl. constructor. }
  rewrite H in Hk. inversion Hk.
Qed.

(** C2, as the code has it.  When no call of the loop ends with anything but
    a return or a [SwaggerValidationError], which needs every configured name
    to be registered, [encode] calls every configured validator, in the
    configured order, each on its own copy of the spec, also after a failure;
    it raises a [SwaggerValidationError] exactly when some validator raised
    one; the error carries the dict built from the failures in the order they
    happened, whose keys are the names of the failing validators, and its
    message shows every entry of that dict. *)
Theorem encode_aggregates_failures env lib self items h trace inputs hf :
  let spec := (generate_swagger_object self items h).1 in
  let h1 := (generate_swagger_object self items h).2 in
  let r := (encode env lib self (Swagger items) h).2 in
  validation_loop env spec h1 (validators self) trace inputs hf ->
  no_crash trace = true ->
  trace.*1 = validators self /\
  length inputs = length (validators self) /\
  (encode env lib self (Swagger items) h).1 = hf /\
  ((exists msg errors sp c, r = Raise (SwaggerValidationError msg errors sp c)) <->
   (exists name res e, (name, res) ∈ trace /\ failure_msg res = Some e)) /\
  (forall msg errors sp c, r = Raise (SwaggerValidationError msg errors sp c) ->
     errors = Some (OrderedDict_of_pairs (failures trace)) /\
     msg = "spec validation failed: " +:+ dict_repr lib (OrderedDict_of_pairs (failures trace)) /\
     (forall name, name ∈ (OrderedDict_of_pairs (failures trace)).*1 <->
                   exists res e, (name, res) ∈ trace /\ failure_msg res = Some e) /\
     (NoDup (validators self) -> OrderedDict_of_pairs (failures trace) = failures trace) /\
     (forall name e, (name, e) ∈ OrderedDict_of_pairs (failures trace) ->
        (exists res, (name, res) ∈ trace /\ failure_msg res = Some e) /\
        substring_of (py_repr lib name +:+ ": " +:+ py_repr lib e) msg)).
Proof.
  intros spec h1 r Hloop Hnc.
  destruct (validation_loop_complete _ _ _ _ _ _ _ Hloop Hnc) as [Hnames Hlen].
  destruct (validation_loop_unique _ _ _ _ _ _ _ Hloop) as [Etrace Hhf].
  pose proof (encode_Swagger env lib self items h) as Henc. cbv zeta in Henc.
  fold spec h1 in Henc.
  assert (Hres : r = (encode env lib self (Swagger items) h).2) by reflexivity.
  rewrite Henc in Hres. simpl in Hres.
  pose proof (run_validators_trace env spec (validators self) h1 []) as Htr.
  cbv zeta in Htr. rewrite <- Etrace in Htr.
  split; [ exact Hnames | ]. split; [ exact Hlen | ].
  split; [ rewrite Henc; symmetry; apply Hhf | ]. clear Henc.
  destruct ((run_validators env (validators self) spec h1 []).2) as [ errs | e ];
    [ | destruct Htr as (Hf & _); congruence ].
  destruct Htr as (_ & _ & Herrs).
  change (errs = OrderedDict_of_pairs (failures trace)) in Herrs.
  assert (Hkeys : forall name, name ∈ (OrderedDict_of_pairs (failures trace)).*1 <->
                    exists res e, (name, res) ∈ trace /\ failure_msg res = Some e).
  { intros name. unfold OrderedDict_of_pairs. split.
    - intros H. apply foldl_dict_set_keys in H as [ H | H ]; [ inversion H | ].
      apply list_elem_of_fmap in H as ([n e] & -> & Hin).
      apply failures_elem in Hin as (res & Hin & Hm). eauto.
    - intros (res & e & Hin & Hm). apply foldl_dict_set_keys. right.
      apply list_elem_of_fmap. exists (name, e). split; [ reflexivity | ].
      apply failures_elem. eauto. }
  destruct errs as [ | kv errs ].
  - (* no failure was recorded *)
    symmetry in Herrs. apply OrderedDict_of_pairs_nil in Herrs.
    assert (Hno : forall msg errors sp c, r <> Raise (SwaggerValidationError msg errors sp c)).
    { intros msg errors sp c Hr. rewrite Hr in Hres.
      destruct (_dump_dict self lib (run_validators env (validators self) spec h1 []).1 spec)
        as [ text | e ] eqn:Ed; [ discriminate | ].
      inversion Hres; subst e.
      exact (_dump_dict_not_validation_error _ _ _ _ _ _ _ _ Ed). }
    split.
    + split.
      * intros (msg & errors & sp & c & Hr). exfalso. exact (Hno _ _ _ _ Hr).
      * intros Hex. exfalso. apply failures_nil_iff in Herrs. exact (Herrs Hex).
    + intros msg errors sp c Hr. exfalso. exact (Hno _ _ _ _ Hr).
  - (* some failure was recorded *)
    split.
    + split.
      * intros _. exists kv.1. apply Hkeys. rewrite <- Herrs. simpl. constructor.
      * intros _. eexists _, _, _, _. exact Hres.
    + intros msg errors sp c Hr. rewrite Hr in Hres. inversion Hres; subst.
      rewrite Herrs. split; [ reflexivity | ]. split; [ reflexivity | ].
      split; [ exact Hkeys | ]. split.
      * intros Hnd. apply OrderedDict_of_pairs_NoDup.
        eapply sublist_NoDup; [ | apply failures_names_sublist ].
        rewrite Hnames. exact Hnd.
      * intros name e Hin. split.
        -- unfold OrderedDict_of_pairs in Hin. apply foldl_dict_set_elem in Hin.
           destruct Hin as [ Hin | Hin ]; [ inversion Hin | ].
           apply failures_elem. exact Hin.
        -- apply substring_of_app_l. apply dict_repr_mentions. exact Hin.
Qed.

Lemma encode_aggregates_failures_witness :
  exists trace inputs hf,
    validation_loop mixed_environment
      (generate_swagger_object sample_codec sample_items []).1
      (generate_swagger_object sample_codec sample_items []).2
      ["flex"; "ssv"] trace inputs hf /\
    trace = [("flex", Raise (SwaggerValidationError "flex says no" None None None));
             ("ssv", Ok tt)] /\
    length inputs = 2 /\
    exists msg sp c,
      (encode mixed_environment sample_library sample_codec (Swagger sample_items) []).2
      = Raise (SwaggerValidationError msg (Some [("flex", "flex says no")]) sp c).
Proof.
  assert (Hloop : exists inputs hf,
             validation_loop mixed_environment
               (generate_swagger_object sample_codec sample_items []).1
               (generate_swagger_object sample_codec sample_items []).2
               ["flex"; "ssv"]
               [("flex", Raise (SwaggerValidationError "flex says no" None None None));
                ("ssv", Ok tt)] inputs hf).
  { eexists _, _.
    eapply (loop_goes_on _ _ _ _ _ _validate_flex);
      [ vm_compute; reflexivity | vm_compute; reflexivity | vm_compute; reflexivity
      | reflexivity | ].
    eapply (loop_goes_on _ _ _ _ _ _validate_swagger_spec_validator);
      [ vm_compute; reflexivity | vm_compute; reflexivity | vm_compute; reflexivity
      | reflexivity | ].
    apply loop_end. }
  destruct Hloop as (inputs & hf & Hloop).
  destruct (encode_aggregates_failures mixed_environment sample_library sample_codec
              sample_items [] _ inputs hf Hloop eq_refl)
    as (_ & Hlen & _ & [_ Hraise] & Hreport).
  destruct Hraise as (msg & errors & sp & c & Hr).
  { exists "flex", (Raise (SwaggerValidationError "flex says no" None None None)),
      "flex says no".
    split; [ left | reflexivity ]. }
  destruct (Hreport msg errors sp c Hr) as (-> & _).
  exists [("flex", Raise (SwaggerValidationError "flex says no" None None None));
          ("ssv", Ok tt)], inputs, hf.
  split; [ exact Hloop | ]. split; [ reflexivity | ].
  split; [ exact Hlen | ]. exists msg, sp, c. exact Hr.
Defined.

(** C2 as stated fails.  The loop catches [SwaggerValidationError] and
    nothing else.  A codec configured with [flex], which rejects the
    document, and then with a name that is not registered raises the
    [KeyError] of the lookup, not a validation error, although a validator
    has raised one; and when the engine behind the first validator fails with
    an exception of its own, the validator configured after it is never
    called. *)
Lemma aggregation_counterexample :
  (exists inputs hf,
     validation_loop mixed_environment
       (generate_swagger_object sample_codec sample_items []).1
       (generate_swagger_object sample_codec sample_items []).2
       ["flex"; "nope"]
       [("flex", Raise (SwaggerValidationError "flex says no" None None None));
        ("nope", Raise (KeyError "nope"))] inputs hf /\
     (encode mixed_environment sample_library
        (OpenAPICodecJson ["flex"; "nope"] true "application/json")
        (Swagger sample_items) []).2
     = Raise (KeyError "nope")) /\
  (exists inputs hf,
     validation_loop crashing_environment
       (generate_swagger_object sample_codec sample_items []).1
       (generate_swagger_object sample_codec sample_items []).2
       ["ssv"; "flex"]
       [("ssv", Raise (ForeignError "AttributeError" "no attribute"))] inputs hf /\
     length inputs = 1 /\
     (encode crashing_environment sample_library
        (OpenAPICodecJson ["ssv"; "flex"] true "application/json")
        (Swagger sample_items) []).2
     = Raise (ForeignError "AttributeError" "no attribute")).
Proof.
  split.
  - eexists _, _. split; [ | vm_compute; reflexivity ].
    eapply (loop_goes_on _ _ _ _ _ _validate_flex);
      [ vm_compute; reflexivity | vm_compute; reflexivity | vm_compute; reflexivity
      | reflexivity | ].
    apply loop_unregistered. vm_compute. reflexivity.
  - eexists _, _. split.
    + eapply (loop_crashes _ _ _ _ _ _validate_swagger_spec_validator);
        [ vm_compute; reflexivity | vm_compute; reflexivity | vm_compute; reflexivity
        | reflexivity ].
    + split; [ reflexivity | vm_compute; reflexivity ].
Qed.

(** C9, as the code has it.  There is no [UnknownValidatorError]: a name that
    is not a key of [VALIDATORS] makes the lookup fail with [KeyError], and
    that is what [encode] raises for a Swagger document once the loop reaches
    the name, that is when no earlier validator ended the loop with an
    exception of its own. *)
Theorem encode_unregistered_validator env lib self items h before bad after :
  let spec := (generate_swagger_object self items h).1 in
  let h1 := (generate_swagger_object self items h).2 in
  validators self = before ++ bad :: after ->
  VALIDATORS !! bad = None ->
  no_crash (validation_trace env before spec h1) = true ->
  (encode env lib self (Swagger items) h).2 = Raise (KeyError bad) /\
  (forall v, (encode env lib self (NotSwagger v) h).2
             = Raise (TypeError "Expected a `openapi.Swagger` instance")).
Proof.
  intros spec h1 Hvs Hbad Hnc. split; [ | reflexivity ].
  pose proof (encode_Swagger env lib self items h) as Henc. cbv zeta in Henc.
  fold spec h1 in Henc. rewrite Henc. clear Henc. simpl. rewrite Hvs.
  rewrite run_validators_app.
  pose proof (run_validators_trace env spec before h1 []) as Htr. cbv zeta in Htr.
  destruct (run_validators env before spec h1 []) as [h2 [ errs | e ]]; simpl in Htr.
  - simpl. unfold validate_one, call_validator. rewrite Hbad. reflexivity.
  - destruct Htr as (Hf & _). congruence.
Qed.

Lemma encode_unregistered_validator_witness :
  (encode mixed_environment sample_library
     (OpenAPICodecJson ["flex"; "nope"; "ssv"] false "application/json")
     (Swagger sample_items) []).2 = Raise (KeyError "nope").
Proof.
  refine (proj1 (encode_unregistered_validator mixed_environment sample_library
                   (OpenAPICodecJson ["flex"; "nope"; "ssv"] false "application/json")
                   sample_items [] ["flex"] "nope" ["ssv"] eq_refl _ _)).
  - vm_compute. reflexivity.
  - vm_compute. reflexivity.
Defined.

(** C9 as stated fails: the exception for an unregistered name is a
    [KeyError], and an argument that is not a Swagger object is refused with a
    [TypeError] before any validator is resolved. *)
Lemma unregistered_validator_counterexample :
  VALIDATORS !! "nope" = None /\
  (exists e,
     (encode bare_environment sample_library
        (OpenAPICodecJson ["nope"] false "application/json") (Swagger sample_items) []).2
     = Raise e /\ exn_class e = "KeyError" /\ exn_class e <> "UnknownValidatorError") /\
  (exists e,
     (encode bare_environment sample_library
        (OpenAPICodecJson ["nope"] false "application/json") (NotSwagger PNone) []).2
     = Raise e /\ exn_class e = "TypeError").
Proof.
  split; [ vm_compute; reflexivity | ]. split.
  - exists (KeyError "nope"). split; [ vm_compute; reflexivity | ].
    split; [ reflexivity | discriminate ].
  - eexists. split; reflexivity.
Qed.

(** C5, as the code has it.  [_validate_flex] is a no-op whenever [flex]
    cannot be imported at the time of the call: it returns normally, raises
    nothing and leaves every object as it was. *)
Theorem _validate_flex_without_engine env h spec f :
  VALIDATORS !! "flex" = Some f ->
  flex env = None ->
  f env h spec = (h, Ok tt).
Proof.
  intros Hf Hnone. destruct (VALIDATORS_lookup _ _ Hf) as [ [_ ->] | [Habs _] ];
    [ | discriminate ].
  unfold _validate_flex. rewrite Hnone. reflexivity.
Qed.

Lemma _validate_flex_without_engine_witness :
  _validate_flex bare_environment [PList []] (PRef 0) = ([PList []], Ok tt).
Proof.
  refine (_validate_flex_without_engine bare_environment [PList []] (PRef 0) _validate_flex _ _).
  - vm_compute. reflexivity.
  - reflexivity.
Defined.

(** C5 as stated fails.  The validator registered as [ssv] raises the import
    error when it is called without its engine; and whether the registered
    [flex] validator is a no-op depends on what can be imported when it is
    called, not on anything fixed at registration. *)
Lemma missing_engine_counterexample :
  (exists f,
     VALIDATORS !! "ssv" = Some f /\ swagger_spec_validator bare_environment = None /\
     f bare_environment [PList []] (PRef 0)
       = ([PList []], Raise (ImportError "swagger_spec_validator"))) /\
  (exists f,
     VALIDATORS !! "flex" = Some f /\
     f bare_environment [PList []] (PRef 0) = ([PList []], Ok tt) /\
     f sample_environment [PList []] (PRef 0)
       = ([PList []], Raise (SwaggerValidationError "flex says no" None None None))).
Proof.
  split.
  - exists _validate_swagger_spec_validator.
    split; [ vm_compute; reflexivity | ]. split; reflexivity.
  - exists _validate_flex. split; [ vm_compute; reflexivity | ]. split; reflexivity.
Qed.

(** ** JSON formatting *)

Lemma string_forall_concat P sep (l : list string) :
  string_forall P sep = true -> Forall (fun s => string_forall P s = true) l ->
  string_forall P (String.concat sep l) = true.
Proof.
  intros Hsep H. induction H as [ | x r Hx Hr IH ]; [ reflexivity | ].
  destruct r as [ | y r ]; [ exact Hx | ].
  rewrite concat_cons, !string_forall_app, Hx, Hsep, IH. reflexivity.
Qed.

Lemma json_encode_single_line (o : json_options) :
  indent o = None ->
  string_forall not_newline (item_separator o) = true ->
  string_forall not_newline (key_separator o) = true ->
  forall d level, string_forall not_newline (json_encode o level d) = true.
Proof.
  intros Hind Hitem Hkey.
  assert (Hnl : forall level, newline_indent o level = EmptyString).
  { intros level. unfold newline_indent. rewrite Hind. reflexivity. }
  induction d as [ | b | z | s | xs IH | items IH ] using doc_rect'; intros level.
  - reflexivity.
  - destruct b; reflexivity.
  - simpl. eapply string_forall_impl; [ | apply string_of_Z_digits ].
    intros c. destruct c as [ [] [] [] [] [] [] [] [] ]; vm_compute; intros H;
      first [ reflexivity | discriminate H ].
  - apply py_encode_basestring_no_newline.
  - destruct xs as [ | x xs ]; [ reflexivity | ]. cbn [json_encode].
    rewrite !Hnl, append_nil_r, !string_forall_app.
    rewrite string_forall_concat; [ reflexivity | exact Hitem | ].
    apply Forall_map. eapply Forall_impl; [ exact IH | ]. intros y Hy. apply Hy.
  - destruct items as [ | kx items ]; [ reflexivity | ]. cbn [json_encode].
    rewrite !Hnl, append_nil_r, !string_forall_app.
    rewrite string_forall_concat; [ reflexivity | exact Hitem | ].
    apply Forall_map. eapply Forall_impl; [ exact IH | ]. intros [k y] Hy. cbn [fst snd] in *.
    rewrite !string_forall_app, py_encode_basestring_no_newline, Hkey. apply Hy.
Qed.

(** C6, as the code has it.  Pretty mode: every nesting level is indented by
    four more spaces, the items of a container are separated by a comma and a
    line break and a key from its value by a colon and a space, and the text
    always ends with exactly the one line break that [_dump_dict] adds.
    Compact mode: the default separators of [json.dumps], a comma and a space
    and a colon and a space, on a single line with no line break at the end.
    In both modes the bytes of a character outside ASCII are written as they
    are. *)
Theorem json_formatting (d : doc) :
  json_dump_dict true d = Ok (json_dumps pretty_options d +:+ chr newline) /\
  (exists c, last_char (json_dumps pretty_options d) = Some c /\ c <> newline) /\
  (forall level kx items,
     json_encode pretty_options level (DDict (kx :: items)) =
       "{" +:+ chr newline +:+ spaces (4 * S level)
         +:+ String.concat ("," +:+ chr newline +:+ spaces (4 * S level))
               (map (json_entry pretty_options (S level)) (kx :: items))
         +:+ chr newline +:+ spaces (4 * level) +:+ "}") /\
  (forall level x xs,
     json_encode pretty_options level (DList (x :: xs)) =
       "[" +:+ chr newline +:+ spaces (4 * S level)
         +:+ String.concat ("," +:+ chr newline +:+ spaces (4 * S level))
               (map (json_encode pretty_options (S level)) (x :: xs))
         +:+ chr newline +:+ spaces (4 * level) +:+ "]") /\
  json_dump_dict false d = Ok (json_dumps default_options d) /\
  string_forall not_newline (json_dumps default_options d) = true /\
  (forall level kx items,
     json_encode default_options level (DDict (kx :: items)) =
       "{" +:+ String.concat ", " (map (json_entry default_options (S level)) (kx :: items))
         +:+ "}") /\
  (forall level x xs,
     json_encode default_options level (DList (x :: xs)) =
       "[" +:+ String.concat ", " (map (json_encode default_options (S level)) (x :: xs))
         +:+ "]") /\
  (forall o k level x,
     json_entry o level (k, x) = py_encode_basestring k +:+ key_separator o
                                   +:+ json_encode o level x) /\
  key_separator pretty_options = ": " /\ key_separator default_options = ": " /\
  (forall c, (128 <= N_of_ascii c)%N -> json_escape_char c = chr c).
Proof.
  split; [ apply json_dump_dict_pretty | ].
  split; [ apply json_encode_last | ].
  split; [ intros; reflexivity | ]. split; [ intros; reflexivity | ].
  split; [ reflexivity | ].
  split; [ apply json_encode_single_line; reflexivity | ].
  split; [ intros; cbn [json_encode]; unfold newline_indent; simpl;
           rewrite append_nil_r; reflexivity | ].
  split; [ intros; cbn [json_encode]; unfold newline_indent; simpl;
           rewrite append_nil_r; reflexivity | ].
  split; [ intros; reflexivity | ]. split; [ reflexivity | ]. split; [ reflexivity | ].
  intros c Hc. destruct c as [ [] [] [] [] [] [] [] [] ]; try reflexivity;
    vm_compute in Hc; exfalso; apply Hc; reflexivity.
Qed.

(** The example of the formatting rules in pretty mode. *)
Example json_pretty_example :
  json_dump_dict true format_example =
    Ok ("{" +:+ chr newline
        +:+ "    " +:+ py_encode_basestring "a" +:+ ": 1," +:+ chr newline
        +:+ "    " +:+ py_encode_basestring "b" +:+ ": [" +:+ chr newline
        +:+ "        1," +:+ chr newline
        +:+ "        2" +:+ chr newline
        +:+ "    ]" +:+ chr newline
        +:+ "}" +:+ chr newline).
Proof. vm_compute. reflexivity. Qed.

(** C6 as stated fails on its own example: compact mode writes a space after
    every comma and colon, and pretty mode never writes a comma followed by a
    space. *)
Lemma json_formatting_counterexample :
  json_dumps default_options format_example =
    "{" +:+ py_encode_basestring "a" +:+ ": 1, " +:+ py_encode_basestring "b" +:+ ": [1, 2]}" /\
  contains_char " " (json_dumps default_options format_example) = true /\
  occurs ", " (json_dumps pretty_options format_example) = false /\
  occurs ("," +:+ chr newline) (json_dumps pretty_options format_example) = true.
Proof. repeat split; vm_compute; reflexivity. Qed.

(** ** Key order in the output *)







Lemma represent_text_value self s : scalar_value (represent_text self s) = s.
Proof. unfold represent_text. destruct (contains_char newline s); reflexivity. Qed.





(** ** YAML: aliases *)

Lemma represent_items_alias_free rd items :
  never_aliases rd -> forall ro,
  match represent_items rd items ro with
  | Some (value, _, ro') =>
      forallb (fun kv => alias_free kv.1 && alias_free kv.2) value = true /\ ro' = ro
  | None => True
  end.
Proof.
  intros Hrd. induction items as [ | [k v] r IH ]; intros ro; simpl; [ auto | ].
  pose proof (Hrd (PStr k) ro) as Hk.
  destruct (rd (PStr k) ro) as [ [nk ro1] | ]; [ | exact I ]. destruct Hk as [Hk ->].
  pose proof (Hrd v ro) as Hv.
  destruct (rd v ro) as [ [nv ro2] | ]; [ | exact I ]. destruct Hv as [Hv ->].
  specialize (IH ro).
  destruct (represent_items rd r ro) as [ [ [value best] ro3 ] | ]; [ | exact I ].
  destruct IH as [IH ->]. simpl. rewrite Hk, Hv, IH. auto.
Qed.

Lemma represent_elems_alias_free rd elems :
  never_aliases rd -> forall ro,
  match represent_elems rd elems ro with
  | Some (value, _, ro') => forallb alias_free value = true /\ ro' = ro
  | None => True
  end.
Proof.
  intros Hrd. induction elems as [ | v r IH ]; intros ro; simpl; [ auto | ].
  pose proof (Hrd v ro) as Hv.
  destruct (rd v ro) as [ [nv ro1] | ]; [ | exact I ]. destruct Hv as [Hv ->].
  specialize (IH ro).
  destruct (represent_elems rd r ro) as [ [ [value best] ro2 ] | ]; [ | exact I ].
  destruct IH as [IH ->]. simpl. rewrite Hv, IH. auto.
Qed.

Lemma represent_data_never_aliases n h : never_aliases (represent_data SaneYamlDumper n h).
Proof.
  induction n as [ | n IH ]; intros v ro.
  - destruct v as [ | b | z | s | l ]; simpl; auto.
    unfold represent_text. destruct (contains_char newline s); simpl; auto.
  - destruct v as [ | b | z | s | l ]; simpl; auto.
    + unfold represent_text. destruct (contains_char newline s); simpl; auto.
    + destruct (h !! l) as [ [ items | elems | items ] | ]; [ | | | exact I ].
      * unfold represent_odict. simpl.
        pose proof (represent_items_alias_free _ items IH ro) as H.
        destruct (represent_items (represent_data SaneYamlDumper n h) items ro)
          as [ [ [value best] ro' ] | ]; [ | exact I ].
        exact H.
      * unfold represent_list. simpl.
        pose proof (represent_elems_alias_free _ elems IH ro) as H.
        destruct (represent_elems (represent_data SaneYamlDumper n h) elems ro)
          as [ [ [value best] ro' ] | ]; [ | exact I ].
        exact H.
      * unfold represent_dict, represent_odict. simpl.
        pose proof (represent_items_alias_free _ (sorted_items items) IH ro) as H.
        destruct (represent_items (represent_data SaneYamlDumper n h) (sorted_items items) ro)
          as [ [ [value best] ro' ] | ]; [ | exact I ].
        exact H.
Qed.

Lemma represent_doc_alias_free (d : doc) : alias_free (represent_doc SaneYamlDumper d) = true.
Proof.
  induction d as [ | b | z | s | xs IH | items IH ] using doc_rect'; try reflexivity.
  - simpl. unfold represent_text. destruct (contains_char newline s); reflexivity.
  - simpl. apply forallb_forall. intros nd Hin. apply in_map_iff in Hin as (x & <- & Hx).
    rewrite Forall_forall in IH. apply IH. apply list_elem_of_In. exact Hx.
  - simpl. apply forallb_forall. intros kv Hin. apply in_map_iff in Hin as ([k x] & <- & Hx).
    rewrite Forall_forall in IH. cbn [fst snd].
    pose proof (IH (k, x) (proj2 (list_elem_of_In _ _) Hx)) as Hx'. cbn [snd] in Hx'.
    rewrite Hx'. unfold represent_text. destruct (contains_char newline k); reflexivity.
Qed.

(** C4.  [SaneYamlDumper] never registers an object for aliasing and never
    returns the node of an object met before: the graph it builds has no
    shared node, so the serializer writes no anchor and no alias.  For an
    object that denotes the tree [d] the graph is the one of [d], in which
    every occurrence of a sub-mapping is written out in full, whether the
    occurrences are one object or several. *)
Theorem yaml_never_aliases lib h v :
  (forall n ro,
     match represent_data SaneYamlDumper n h v ro with
     | Some (nd, ro') => alias_free nd = true /\ ro' = ro
     | None => True
     end) /\
  (forall d binary,
     reify h v = Some d ->
     represent_data SaneYamlDumper (length h) h v ∅ = Some (represent_doc SaneYamlDumper d, ∅) /\
     alias_free (represent_doc SaneYamlDumper d) = true /\
     yaml_sane_dump lib h v binary = Ok (yaml_emit lib (represent_doc SaneYamlDumper d))).
Proof.
  split.
  - intros n ro. apply represent_data_never_aliases.
  - intros d binary Hd. split; [ | split ].
    + apply (represent_data_tree SaneYamlDumper (length h) (fun _ => eq_refl)). exact Hd.
    + apply represent_doc_alias_free.
    + apply yaml_sane_dump_tree. exact Hd.
Qed.

Lemma yaml_never_aliases_witness :
  reify shared_heap (PRef 1) =
    Some (DDict [("200", DDict [("description", DStr "ok")]);
                 ("404", DDict [("description", DStr "ok")])]) /\
  represent_data SaneYamlDumper (length shared_heap) shared_heap (PRef 1) ∅ =
    Some (represent_doc SaneYamlDumper
            (DDict [("200", DDict [("description", DStr "ok")]);
                    ("404", DDict [("description", DStr "ok")])]), ∅).
Proof.
  split; [ reflexivity | ].
  exact (proj1 (proj2 (yaml_never_aliases sample_library shared_heap (PRef 1)) _ true
                  eq_refl)).
Defined.

(** The same settings on the library's own [ignore_aliases] do alias the
    second occurrence of the shared mapping. *)
Example SafeDumper_aliases_shared_object :
  exists first ro,
    represent_data SafeDumper (length shared_heap) shared_heap (PRef 1) ∅ =
      Some (MappingNode YAML_MAP_TAG
              [(ScalarNode YAML_STR_TAG "200" None, first);
               (ScalarNode YAML_STR_TAG "404" None, SharedNode 0)] (Some false), ro) /\
    alias_free first = true.
Proof. eexists _, _. split; vm_compute; reflexivity. Qed.

(** ** YAML: string styles *)

Lemma represent_text_style text :
  represent_text SaneYamlDumper text = ScalarNode YAML_STR_TAG text (text_style text).
Proof.
  unfold represent_text, text_style. destruct (contains_char newline text); reflexivity.
Qed.

Lemma text_style_ok text : text_styles_ok (represent_text SaneYamlDumper text) = true.
Proof.
  rewrite represent_text_style. simpl. apply bool_decide_eq_true. reflexivity.
Qed.

Lemma represent_doc_text_styles (d : doc) :
  text_styles_ok (represent_doc SaneYamlDumper d) = true.
Proof.
  induction d as [ | b | z | s | xs IH | items IH ] using doc_rect'; try reflexivity.
  - apply text_style_ok.
  - simpl. apply forallb_forall. intros nd Hin. apply in_map_iff in Hin as (x & <- & Hx).
    rewrite Forall_forall in IH. apply IH. apply list_elem_of_In. exact Hx.
  - simpl. apply forallb_forall. intros kv Hin. apply in_map_iff in Hin as ([k x] & <- & Hx).
    rewrite Forall_forall in IH. cbn [fst snd].
    rewrite text_style_ok. apply (IH (k, x)). apply list_elem_of_In. exact Hx.
Qed.

(** C8.  The scalar node of a string asks for the literal block style
    exactly when the text has a line break, and for no style at all, leaving
    the default to the emitter, otherwise; this holds for every string the
    dumper represents, keys and values, at every depth. *)
Theorem strings_block_style :
  (forall text, represent_text SaneYamlDumper text
                = ScalarNode YAML_STR_TAG text (text_style text)) /\
  (forall text, contains_char newline text = true -> text_style text = Some "|"%char) /\
  (forall text, contains_char newline text = false -> text_style text = None) /\
  (forall n h s ro,
     represent_data SaneYamlDumper n h (PStr s) ro
     = Some (ScalarNode YAML_STR_TAG s (text_style s), ro)) /\
  (forall d, text_styles_ok (represent_doc SaneYamlDumper d) = true) /\
  (forall h v d,
     reify h v = Some d ->
     exists nd, represent_data SaneYamlDumper (length h) h v ∅ = Some (nd, ∅) /\
                text_styles_ok nd = true).
Proof.
  split; [ exact represent_text_style | ].
  split; [ intros text H; unfold text_style; rewrite H; reflexivity | ].
  split; [ intros text H; unfold text_style; rewrite H; reflexivity | ].
  split; [ intros n h s ro; destruct n; simpl; rewrite represent_text_style; reflexivity | ].
  split; [ exact represent_doc_text_styles | ].
  intros h v d Hd. exists (represent_doc SaneYamlDumper d).
  split; [ | apply represent_doc_text_styles ].
  apply (represent_data_tree SaneYamlDumper (length h) (fun _ => eq_refl)). exact Hd.
Qed.

Lemma strings_block_style_witness :
  text_style ("line1" +:+ chr newline +:+ "line2") = Some "|"%char /\
  text_style "plain" = None.
Proof.
  split.
  - exact (proj1 (proj2 strings_block_style) ("line1" +:+ chr newline +:+ "line2") eq_refl).
  - exact (proj1 (proj2 (proj2 strings_block_style)) "plain" eq_refl).
Defined.

(** ** YAML: loading what was dumped *)

(** The digits of a decimal numeral, read from the left. *)
Lemma py_digits_uint (u : Decimal.uint) : forall acc,
  py_digits 10 acc (NilEmpty.string_of_uint u) =
    Some (match acc with
          | N0 => Pos.of_uint u
          | Npos p => Npos (Pos.of_uint_acc u p)
          end).
Proof.
  induction u as [ | u IH | u IH | u IH | u IH | u IH | u IH | u IH | u IH | u IH | u IH ];
    intros acc;
    [ destruct acc; reflexivity | .. ];
    cbn [NilEmpty.string_of_uint py_digits];
    match goal with
    | |- context [digit_value ?c] =>
        let v := eval vm_compute in (digit_value c) in
        change (digit_value c) with v; cbv iota beta
    end;
    match goal with
    | |- context [(?v <? 10)%N] => change (v <? 10)%N with true; cbv iota
    end;
    rewrite IH; destruct acc as [ | p ]; cbn [Pos.of_uint Pos.of_uint_acc];
    first [ reflexivity | do 3 f_equal; lia ].
Qed.

Lemma digits_plain (s : string) :
  string_forall is_digit_or_minus s = true ->
  remove_underscores s = s /\ lstrip s = s /\ rstrip s = s.
Proof.
  induction s as [ | c r IH ]; intros H; [ repeat split | ].
  simpl in H. apply andb_prop in H as [Hc Hr]. destruct (IH Hr) as (IH1 & IH2 & IH3).
  assert (Hu : Ascii.eqb c "_" = false /\ is_space c = false).
  { revert Hc. clear. destruct c as [[] [] [] [] [] [] [] []]; vm_compute;
      intros H; first [ split; reflexivity | discriminate H ]. }
  destruct Hu as [Hu Hs]. split; [ | split ].
  - unfold remove_underscores in *. cbn [string_bind]. rewrite Hu, IH1. reflexivity.
  - cbn [lstrip]. rewrite Hs. reflexivity.
  - cbn [rstrip]. rewrite IH3, Hs. destruct r; reflexivity.
Qed.

Lemma digits_no_prefix (c : ascii) (r : string) :
  string_forall is_digit_or_minus (String c r) = true ->
  startswith "0b" (String c r) = false /\
  startswith "0x" (String c r) = false /\
  startswith "0o" (String c r) = false.
Proof.
  intros H. destruct r as [ | c' r ].
  - clear H. destruct c as [[] [] [] [] [] [] [] []]; vm_compute; repeat split.
  - simpl in H. apply andb_prop in H as [_ H]. apply andb_prop in H as [H _].
    assert (Hc' : Ascii.eqb c' "b" = false /\ Ascii.eqb c' "x" = false /\
                  Ascii.eqb c' "o" = false).
    { revert H. clear. destruct c' as [[] [] [] [] [] [] [] []]; vm_compute;
        intros H; first [ repeat split; reflexivity | discriminate H ]. }
    destruct Hc' as (Hb & Hx & Ho).
    unfold startswith. cbn [String.prefix].
    destruct (ascii_dec "0" c) as [ <- | Hne ]; [ | repeat split ].
    destruct (ascii_dec "b" c') as [ <- | _ ]; [ discriminate Hb | ].
    destruct (ascii_dec "x" c') as [ <- | _ ]; [ discriminate Hx | ].
    destruct (ascii_dec "o" c') as [ <- | _ ]; [ discriminate Ho | ].
    repeat split.
Qed.

(** [int] reads the decimal numeral of a positive number. *)
Lemma py_int_to_uint (p : positive) :
  exists c r,
    NilEmpty.string_of_uint (Pos.to_uint p) = String c r /\
    Ascii.eqb c "-" = false /\ Ascii.eqb c "+" = false /\
    String.eqb (String c r) "0" = false /\
    py_int 10 (String c r) = Some (Z.pos p).
Proof.
  pose proof (py_digits_uint (Pos.to_uint p) 0) as Hd. cbv iota in Hd.
  rewrite Unsigned.of_to in Hd.
  pose proof (string_of_uint_digits (Pos.to_uint p)) as Hf.
  destruct (NilEmpty.string_of_uint (Pos.to_uint p)) as [ | c r ] eqn:E.
  { simpl in Hd. discriminate. }
  exists c, r. split; [ reflexivity | ].
  assert (Hsign : Ascii.eqb c "-" = false /\ Ascii.eqb c "+" = false).
  { destruct (Ascii.eqb_spec c "-") as [ -> | _ ]; [ simpl in Hd; discriminate | ].
    destruct (Ascii.eqb_spec c "+") as [ -> | _ ]; [ simpl in Hd; discriminate | ].
    split; reflexivity. }
  destruct Hsign as [Hm Hp]. split; [ exact Hm | ]. split; [ exact Hp | ].
  split.
  - destruct (String.eqb_spec (String c r) "0") as [ E0 | _ ]; [ | reflexivity ].
    rewrite E0 in Hd. simpl in Hd. discriminate.
  - destruct (digits_plain _ Hf) as (_ & Hl & Hr).
    unfold py_int. rewrite Hl, Hr.
    assert (Hs : forall q, startswith q (String c r) =
                   match q with
                   | EmptyString => true
                   | String a q' => if ascii_dec a c then String.prefix q' r else false
                   end).
    { intros [ | a q' ]; reflexivity. }
    rewrite !Hs.
    destruct (ascii_dec "-" c) as [ <- | _ ]; [ discriminate Hm | ].
    destruct (ascii_dec "+" c) as [ <- | _ ]; [ discriminate Hp | ].
    cbn [orb]. cbv iota.
    assert (Hb : strip_base_prefix 10 (String c r) = String c r).
    { unfold strip_base_prefix. destruct r; reflexivity. }
    rewrite Hb, Hd. reflexivity.
Qed.

Lemma construct_yaml_int_string_of_Z (z : Z) : construct_yaml_int (string_of_Z z) = Some z.
Proof.
  destruct z as [ | p | p ]; [ reflexivity | | ].
  - destruct (py_int_to_uint p) as (c & r & E & Hm & Hp & H0 & Hi).
    pose proof (string_of_uint_digits (Pos.to_uint p)) as Hf. rewrite E in Hf.
    assert (Es : string_of_Z (Z.pos p) = String c r).
    { unfold string_of_Z, NilZero.string_of_int, NilZero.string_of_uint. simpl.
      pose proof (Unsigned.to_uint_nonnil p) as Hn.
      destruct (Pos.to_uint p); [ congruence | exact E .. ]. }
    rewrite Es. unfold construct_yaml_int.
    rewrite (proj1 (digits_plain _ Hf)). rewrite Hm, Hp. cbn [orb]. rewrite H0.
    destruct (digits_no_prefix c r Hf) as (-> & -> & ->). rewrite Hi.
    simpl. reflexivity.
  - destruct (py_int_to_uint p) as (c & r & E & Hm & Hp & H0 & Hi).
    pose proof (string_of_uint_digits (Pos.to_uint p)) as Hf. rewrite E in Hf.
    assert (Es : string_of_Z (Z.neg p) = String "-" (String c r)).
    { unfold string_of_Z, NilZero.string_of_int, NilZero.string_of_uint. simpl.
      pose proof (Unsigned.to_uint_nonnil p) as Hn.
      destruct (Pos.to_uint p); [ congruence | rewrite E; reflexivity .. ]. }
    rewrite Es. unfold construct_yaml_int.
    assert (Hall : string_forall is_digit_or_minus (String "-" (String c r)) = true).
    { rewrite <- Es. apply string_of_Z_digits. }
    rewrite (proj1 (digits_plain _ Hall)).
    change (Ascii.eqb "-" "-") with true. change (Ascii.eqb "-" "+") with false.
    cbn [orb]. cbv iota. rewrite H0.
    destruct (digits_no_prefix c r Hf) as (-> & -> & ->). rewrite Hi.
    simpl. reflexivity.
Qed.

Lemma option_all_Some {A B} (f : A -> option B) (l : list A) (k : list B) :
  Forall2 (fun x y => f x = Some y) l k -> option_all f l = Some k.
Proof.
  induction 1 as [ | x y l k Hxy _ IH ]; simpl; [ reflexivity | ].
  rewrite Hxy, IH. reflexivity.
Qed.

Lemma map_eq_Forall2 {A B C} (f : A -> C) (g : B -> C) (l : list A) : forall k,
  map f l = map g k -> Forall2 (fun x y => f x = g y) l k.
Proof.
  induction l as [ | x l IH ]; intros [ | y k ] H; simpl in H; try discriminate;
    constructor; [ congruence | apply IH; congruence ].
Qed.

Lemma flatten_scan_plain (f : node -> option (list (node * node))) (value : list (node * node))
    (merge : list (node * node)) :
  Forall (fun kv => node_tag kv.1 = YAML_STR_TAG) value ->
  flatten_scan f value merge = Some (merge, value).
Proof.
  induction 1 as [ | [kn vn] r Hk _ IH ]; simpl; [ reflexivity | ].
  rewrite IH. simpl in Hk. rewrite Hk. reflexivity.
Qed.

Lemma node_size_erase (nd : node) : node_size (erase nd) = node_size nd.
Proof.
  induction nd as [ tag value style | tag value flow IH | tag value flow IH | k ]
    using node_rect'; simpl; try reflexivity.
  - do 2 f_equal. rewrite map_map. apply map_ext_Forall. exact IH.
  - do 2 f_equal. rewrite map_map. apply map_ext_Forall.
    eapply Forall_impl; [ exact IH | ]. intros [kn vn] [Hk Hv]. simpl in *.
    rewrite Hk, Hv. reflexivity.
Qed.

Lemma doc_height_pos (d : doc) : 0 < doc_height d.
Proof. destruct d; simpl; lia. Qed.

Lemma represent_doc_size (d : doc) :
  doc_height d <= node_size (represent_doc SaneYamlDumper d).
Proof.
  induction d as [ | b | z | s | xs IH | items IH ] using doc_rect'; simpl; try lia.
  - unfold represent_text. destruct (contains_char newline s); simpl; lia.
  - apply le_n_S. rewrite map_map.
    induction IH as [ | x r Hx _ IHr ]; simpl; lia.
  - apply le_n_S. rewrite map_map.
    induction IH as [ | [k x] r Hx _ IHr ]; simpl in *; lia.
Qed.

(** A graph that differs from the graph of [d] only in presentation is
    constructed into [d]. *)
Lemma construct_object_represent (d : doc) : forall nd n,
  erase nd = erase (represent_doc SaneYamlDumper d) ->
  unique_keys d = true ->
  doc_height d <= n ->
  construct_object n nd = Some d.
Proof.
  induction d as [ | b | z | s | xs IH | items IH ] using doc_rect'; intros nd n He Hu Hn;
    (destruct n as [ | n ]; [ simpl in Hn; lia | ]).
  - destruct nd; simpl in He; inversion He; subst. reflexivity.
  - destruct nd; simpl in He; inversion He; subst. simpl. tag_cases.
    destruct b; reflexivity.
  - destruct nd; simpl in He; inversion He; subst. simpl. tag_cases.
    rewrite construct_yaml_int_string_of_Z. reflexivity.
  - simpl in He. rewrite represent_text_style in He.
    destruct nd; simpl in He; inversion He; subst. reflexivity.
  - destruct nd as [ | tag value flow | | ]; simpl in He; inversion He as [ [Ht Hv] ];
      subst tag. simpl. tag_cases.
    simpl in Hn, Hu. apply le_S_n in Hn.
    rewrite (option_all_Some _ value xs); [ reflexivity | ].
    rewrite map_map in Hv. apply map_eq_Forall2 in Hv.
    rewrite forallb_forall in Hu. apply max_bound_Forall in Hn.
    assert (HQ : Forall (fun x => forall y, erase y = erase (represent_doc SaneYamlDumper x) ->
                                   construct_object n y = Some x) xs).
    { apply Forall_forall. intros x Hx y Hy.
      rewrite Forall_forall in IH, Hn.
      apply (IH x Hx); [ exact Hy | apply Hu, list_elem_of_In, Hx | apply Hn, Hx ]. }
    eapply Forall2_Forall_r; [ exact Hv | exact HQ | ].
    intros y x Hy Hx. apply Hx. exact Hy.
  - destruct nd as [ | | tag value flow | ]; simpl in He; inversion He as [ [Ht Hv] ];
      subst tag.
    cbn [construct_object]. tag_cases. unfold construct_odict. cbn [flatten_mapping].
    simpl in Hn, Hu. apply le_S_n in Hn. apply andb_true_iff in Hu as [Hnd Hu].
    apply bool_decide_eq_true in Hnd.
    rewrite map_map in Hv. apply map_eq_Forall2 in Hv.
    rewrite forallb_forall in Hu. apply max_bound_Forall in Hn.
    assert (HQ : Forall (fun kx : string * doc =>
                   forall kv : node * node,
                     (erase kv.1, erase kv.2) =
                       (erase (represent_text SaneYamlDumper kx.1),
                        erase (represent_doc SaneYamlDumper kx.2)) ->
                     node_tag kv.1 = YAML_STR_TAG /\
                     construct_object n kv.1 = Some (DStr kx.1) /\
                     construct_object n kv.2 = Some kx.2) items).
    { apply Forall_forall. intros [k x] Hx [kn vn] Hy. cbn [fst snd] in *.
      rewrite represent_text_style in Hy. inversion Hy as [ [Hk Hvn] ].
      rewrite Forall_forall in IH, Hn.
      pose proof (Hn _ Hx) as Hnx. cbn [snd] in Hnx.
      pose proof (doc_height_pos x) as Hpos.
      destruct n as [ | n ]; [ lia | ].
      destruct kn; simpl in Hk; inversion Hk; subst.
      split; [ reflexivity | ]. split; [ reflexivity | ].
      apply (IH _ Hx); [ exact Hvn | | exact Hnx ].
      apply (Hu (k, x)), list_elem_of_In, Hx. }
    rewrite flatten_scan_plain.
    2:{ apply Forall_forall. intros kv Hkv.
        apply list_elem_of_lookup in Hkv as [i Hi].
        destruct (Forall2_lookup_l _ _ _ _ _ Hv Hi) as (kx & Hkx & Hy).
        rewrite Forall_forall in HQ.
        apply (HQ kx (list_elem_of_lookup_2 _ _ _ Hkx) kv Hy). }
    simpl. unfold construct_pairs.
    rewrite (option_all_Some _ value items).
    + rewrite OrderedDict_of_pairs_NoDup by exact Hnd. reflexivity.
    + eapply Forall2_Forall_r; [ exact Hv | exact HQ | ].
      intros kv [k x] Hy Hx. destruct (Hx kv Hy) as (_ & Hk & Hvn).
      cbn [fst snd] in *. rewrite Hk, Hvn. reflexivity.
Qed.

(** C7.  Provided the text layer of the YAML library reads back the graph it
    wrote, up to the presentation it is free to choose, loading what
    [yaml_sane_dump] produced for a document with distinct keys gives the
    document again, with every mapping in its order. *)
Theorem yaml_round_trip lib h v d nd :
  reify h v = Some d ->
  unique_keys d = true ->
  yaml_compose lib (yaml_emit lib (represent_doc SaneYamlDumper d)) = Some nd ->
  erase nd = erase (represent_doc SaneYamlDumper d) ->
  exists text,
    yaml_sane_dump lib h v false = Ok text /\
    yaml_sane_load lib text = Some d.
Proof.
  intros Hd Hu Hc He. exists (yaml_emit lib (represent_doc SaneYamlDumper d)).
  split; [ apply yaml_sane_dump_tree; exact Hd | ].
  unfold yaml_sane_load. rewrite Hc.
  apply construct_object_represent; [ exact He | exact Hu | ].
  rewrite <- node_size_erase, He, node_size_erase. apply represent_doc_size.
Qed.

Lemma yaml_round_trip_witness :
  exists text,
    yaml_sane_dump round_trip_library (alloc round_trip_example []).2
      (alloc round_trip_example []).1 false = Ok text /\
    yaml_sane_load round_trip_library text = Some round_trip_example.
Proof.
  refine (yaml_round_trip round_trip_library (alloc round_trip_example []).2
            (alloc round_trip_example []).1 round_trip_example _ _ _ _ _).
  - vm_compute. reflexivity.
  - vm_compute. reflexivity.
  - vm_compute. reflexivity.
  - vm_compute. reflexivity.
Defined.

(** * Further properties of the module *)

(** ** The loop of [encode]: exceptions and results *)

Lemma validation_trace_prefix env spec vs : forall h,
  (validation_trace env vs spec h).*1 `prefix_of` vs.
Proof.
  induction vs as [ | name rest IH ]; intros h; simpl; [ reflexivity | ].
  destruct (call_validator env name spec h) as [h' r]. simpl.
  apply prefix_cons. destruct (crashed r); [ apply prefix_nil | apply IH ].
Qed.

Lemma no_crash_elem (trace : list (string * result unit)) nr :
  no_crash trace = true -> nr ∈ trace -> crashed nr.2 = false.
Proof.
  unfold no_crash. rewrite forallb_forall. intros H Hin.
  apply list_elem_of_In in Hin. specialize (H nr Hin). apply negb_true_iff in H. exact H.
Qed.

Lemma encode_result env lib self items h :
  let spec := (generate_swagger_object self items h).1 in
  let h1 := (generate_swagger_object self items h).2 in
  let run := run_validators env (validators self) spec h1 [] in
  (encode env lib self (Swagger items) h).2 =
     match run.2 with
     | Raise e => Raise e
     | Ok [] =>
         match _dump_dict self lib run.1 spec with
         | Ok out => Ok (force_bytes out)
         | Raise e => Raise e
         end
     | Ok (kv :: errors) =>
         Raise (SwaggerValidationError
                  ("spec validation failed: " +:+ dict_repr lib (kv :: errors))
                  (Some (kv :: errors)) (Some spec) (Some self))
     end.
Proof.
  intros spec h1 run. pose proof (encode_Swagger env lib self items h) as Henc.
  cbv zeta in Henc. rewrite Henc. reflexivity.
Qed.

(** X1.  The loop catches [SwaggerValidationError] only: the first validator
    that ends with any other exception ends [encode] with that very exception,
    whatever failures were recorded before, and no validator after it is
    called. *)
Theorem encode_propagates_crash env lib self items h name e :
  let spec := (generate_swagger_object self items h).1 in
  let h1 := (generate_swagger_object self items h).2 in
  let trace := validation_trace env (validators self) spec h1 in
  last trace = Some (name, Raise e) ->
  crashed (Raise e) = true ->
  (encode env lib self (Swagger items) h).2 = Raise e /\
  trace.*1 `prefix_of` validators self /\
  last trace.*1 = Some name.
Proof.
  intros spec h1 trace Hlast Hcr.
  split; [ | split; [ apply validation_trace_prefix | ] ].
  - rewrite encode_result. fold spec h1.
    pose proof (run_validators_trace env spec (validators self) h1 []) as Htr.
    cbv zeta in Htr. fold trace in Htr.
    destruct ((run_validators env (validators self) spec h1 []).2) as [ errs | e' ].
    + destruct Htr as (Hnc & _). apply last_Some_elem_of in Hlast.
      pose proof (no_crash_elem _ _ Hnc Hlast) as Hno. simpl in Hno, Hcr. congruence.
    + destruct Htr as (_ & _ & name' & Hlast'). congruence.
  - rewrite fmap_last, Hlast. reflexivity.
Qed.

Lemma encode_propagates_crash_witness :
  (encode crashing_environment sample_library
     (OpenAPICodecJson ["flex"; "ssv"; "flex"] false "application/json")
     (Swagger sample_items) []).2
  = Raise (ForeignError "AttributeError" "no attribute").
Proof.
  refine (proj1 (encode_propagates_crash crashing_environment sample_library
                   (OpenAPICodecJson ["flex"; "ssv"; "flex"] false "application/json")
                   sample_items [] "ssv" (ForeignError "AttributeError" "no attribute") _ _)).
  - vm_compute. reflexivity.
  - reflexivity.
Defined.

(** X2.  [encode] returns bytes only when every configured validator was
    called and returned normally. *)
Theorem encode_success_all_passed env lib self items h out :
  let spec := (generate_swagger_object self items h).1 in
  let h1 := (generate_swagger_object self items h).2 in
  let trace := validation_trace env (validators self) spec h1 in
  (encode env lib self (Swagger items) h).2 = Ok out ->
  trace.*1 = validators self /\ Forall (fun nr => nr.2 = Ok tt) trace.
Proof.
  intros spec h1 trace Hout. rewrite encode_result in Hout. fold spec h1 in Hout.
  pose proof (run_validators_trace env spec (validators self) h1 []) as Htr.
  cbv zeta in Htr. fold trace in Htr.
  destruct ((run_validators env (validators self) spec h1 []).2) as [ [ | kv errs ] | e ];
    try discriminate.
  destruct Htr as (Hnc & Hnames & Herrs). split; [ exact Hnames | ].
  symmetry in Herrs. apply (OrderedDict_of_pairs_nil (failures trace)) in Herrs.
  apply Forall_forall. intros [name r] Hin. simpl.
  pose proof (no_crash_elem _ _ Hnc Hin) as Hno. simpl in Hno.
  destruct r as [ [] | e ]; [ reflexivity | ].
  exfalso. destruct e; try discriminate.
  assert (Hf : (name, msg) ∈ failures trace) by (apply failures_elem; eauto).
  rewrite Herrs in Hf. inversion Hf.
Qed.

Lemma encode_success_all_passed_witness :
  Forall (fun nr : string * result unit => nr.2 = Ok tt)
    (validation_trace bare_environment ["flex"]
       (generate_swagger_object (OpenAPICodecJson ["flex"] false "application/json")
          sample_items []).1
       (generate_swagger_object (OpenAPICodecJson ["flex"] false "application/json")
          sample_items []).2).
Proof.
  refine (proj2 (encode_success_all_passed bare_environment sample_library
                   (OpenAPICodecJson ["flex"] false "application/json") sample_items []
                   (force_bytes (json_dumps default_options (DDict sample_items))) _)).
  vm_compute. reflexivity.
Defined.

(** ** [encode] only allocates *)

Lemma agree_prefix (h h' : heap) :
  length h <= length h' -> (forall p, p < length h -> h' !! p = h !! p) -> h `prefix_of` h'.
Proof.
  intros Hlen Hag. assert (Heq : h = take (length h) h').
  { apply list_eq. intros p. destruct (decide (p < length h)) as [ Hlt | Hge ].
    - rewrite lookup_take_lt by exact Hlt. symmetry. apply Hag. exact Hlt.
    - rewrite lookup_take_ge by lia. apply lookup_ge_None. lia. }
  rewrite Heq at 1. apply prefix_take.
Qed.

Section Growth.

Variable env : environment.
Hypothesis env_frame : environment_frame env.
Variables (a b : nat) (spec : pyval) (d : doc).

(** A validator is handed fresh objects only, so under the frame condition
    every object that existed before the call is as it was. *)
Lemma call_validator_grows name h :
  intact a b spec d h -> h `prefix_of` (call_validator env name spec h).1.
Proof.
  intros (_ & _ & _ & Hr). unfold call_validator.
  destruct (VALIDATORS !! name) as [ f | ] eqn:Ef; [ | reflexivity ].
  destruct (deepcopy_spec h spec d Hr) as (c & h1 & E & P & V & _ & C).
  rewrite E. destruct (VALIDATORS_frame env name f env_frame Ef h1 c) as [Hlen Hframe].
  pose proof (prefix_length _ _ P) as Hlen1.
  apply agree_prefix; [ lia | ].
  intros p Hp. rewrite Hframe.
  - symmetry. apply prefix_lookup_lt; assumption.
  - lia.
  - intros Hreach. pose proof (reach_from_closed _ _ _ _ C V Hreach) as Hge.
    unfold from in Hge. lia.
Qed.

Lemma run_validators_grows vs : forall h errors,
  intact a b spec d h -> h `prefix_of` (run_validators env vs spec h errors).1.
Proof.
  induction vs as [ | name rest IH ]; intros h errors Hi; simpl; [ reflexivity | ].
  pose proof (call_validator_grows name h Hi) as Hg.
  pose proof (call_validator_intact env env_frame a b spec d name h Hi) as Hi'.
  rewrite <- (validate_one_heap env spec name h errors) in Hg, Hi'.
  destruct (validate_one env name spec h errors) as [h' [ errors' | e ]]; simpl in *.
  - etransitivity; [ exact Hg | apply IH; exact Hi' ].
  - exact Hg.
Qed.

End Growth.

(** X3.  Under the frame condition on the engines [encode] has no effect on
    the objects that exist when it is called, whatever it is called with and
    however it ends: it only adds objects to the heap. *)
Theorem encode_only_allocates env lib self document h :
  environment_frame env ->
  h `prefix_of` (encode env lib self document h).1.
Proof.
  intros He. destruct document as [ items | v ]; [ | reflexivity ].
  pose proof (encode_Swagger env lib self items h) as Henc. cbv zeta in Henc.
  rewrite Henc. clear Henc. simpl.
  destruct (generate_swagger_object self items h) as [spec h1] eqn:Eg. simpl.
  pose proof (generate_swagger_object_intact self items h spec h1 Eg) as Hi.
  unfold generate_swagger_object, as_odict in Eg.
  destruct (alloc_spec _ _ _ _ Eg) as (P & _).
  etransitivity; [ exact P | ].
  apply (run_validators_grows env He _ _ spec _ (validators self) h1 [] Hi).
Qed.

Lemma encode_only_allocates_witness :
  [PList [PInt 5]] `prefix_of`
    (encode sample_environment sample_library sample_codec (Swagger sample_items)
       [PList [PInt 5]]).1.
Proof.
  exact (encode_only_allocates sample_environment sample_library sample_codec
           (Swagger sample_items) [PList [PInt 5]] sample_environment_frame).
Defined.

(** ** The error report *)

Lemma dict_set_NoDup {V} (d : list (string * V)) k v :
  NoDup d.*1 -> NoDup (dict_set d k v).*1.
Proof.
  induction d as [ | [k' v'] r IH ]; simpl; intros H.
  - repeat constructor. apply not_elem_of_nil.
  - apply NoDup_cons in H as [Hk' Hr].
    destruct (String.eqb_spec k k') as [ -> | Hne ]; simpl.
    + apply NoDup_cons. split; assumption.
    + apply NoDup_cons. split; [ | apply IH; exact Hr ].
      rewrite dict_set_keys. intros [ Hin | Heq ]; [ exact (Hk' Hin) | congruence ].
Qed.

Lemma foldl_dict_set_keys_NoDup {V} (l d : list (string * V)) :
  NoDup d.*1 -> NoDup (foldl (fun d kv => dict_set d kv.1 kv.2) d l).*1.
Proof.
  revert d. induction l as [ | [k v] r IH ]; intros d H; simpl; [ exact H | ].
  apply IH. apply dict_set_NoDup. exact H.
Qed.

Lemma dict_get_set {V} (d : list (string * V)) k v k0 :
  dict_get (dict_set d k v) k0 = if String.eqb k0 k then Some v else dict_get d k0.
Proof.
  induction d as [ | [k' v'] r IH ]; simpl; [ reflexivity | ].
  destruct (String.eqb_spec k k') as [ -> | Hne ]; simpl.
  - destruct (String.eqb k0 k'); reflexivity.
  - rewrite IH. destruct (String.eqb_spec k0 k') as [ -> | Hne' ]; [ | reflexivity ].
    destruct (String.eqb_spec k' k); [ congruence | reflexivity ].
Qed.

Lemma foldl_dict_set_get {V} (l d : list (string * V)) k :
  dict_get (foldl (fun d kv => dict_set d kv.1 kv.2) d l) k =
    match last_binding l k with
    | Some v => Some v
    | None => dict_get d k
    end.
Proof.
  revert d. induction l as [ | [k' v] r IH ]; intros d; [ reflexivity | ].
  simpl. rewrite IH. unfold last_binding. simpl.
  rewrite dict_get_set.
  destruct (String.eqb k k'); [ | reflexivity ].
  rewrite last_cons.
  destruct (last _); reflexivity.
Qed.

(** [OrderedDict(pairs)]: distinct keys, and each key bound to the value of
    its last pair. *)
Lemma OrderedDict_of_pairs_spec {V} (pairs : list (string * V)) :
  NoDup (OrderedDict_of_pairs pairs).*1 /\
  forall k, dict_get (OrderedDict_of_pairs pairs) k = last_binding pairs k.
Proof.
  split.
  - apply foldl_dict_set_keys_NoDup. constructor.
  - intros k. unfold OrderedDict_of_pairs. rewrite foldl_dict_set_get.
    destruct (last_binding pairs k); reflexivity.
Qed.

(** X4.  The report of a validation error is a dict: it is not empty, its keys
    are distinct names of configured validators, and each name is bound to the
    message of the last failing run of that validator, also when a validator
    is configured more than once; the error names the codec that raised it. *)
Theorem encode_error_report env lib self items h msg errors sp c :
  let spec := (generate_swagger_object self items h).1 in
  let h1 := (generate_swagger_object self items h).2 in
  let trace := validation_trace env (validators self) spec h1 in
  (encode env lib self (Swagger items) h).2
    = Raise (SwaggerValidationError msg errors sp c) ->
  exists errs,
    errors = Some errs /\ errs <> [] /\
    NoDup errs.*1 /\
    (forall name, name ∈ errs.*1 -> name ∈ validators self) /\
    (forall name, dict_get errs name = last_binding (failures trace) name) /\
    c = Some self.
Proof.
  intros spec h1 trace Hr. rewrite encode_result in Hr. fold spec h1 in Hr.
  pose proof (run_validators_trace env spec (validators self) h1 []) as Htr.
  cbv zeta in Htr. fold trace in Htr.
  destruct ((run_validators env (validators self) spec h1 []).2) as [ [ | kv errs ] | e ].
  - destruct (_dump_dict self lib (run_validators env (validators self) spec h1 []).1 spec)
      as [ text | e ] eqn:Ed; [ discriminate | ].
    inversion Hr; subst e. exfalso.
    exact (_dump_dict_not_validation_error _ _ _ _ _ _ _ _ Ed).
  - destruct Htr as (_ & Hnames & Herrs).
    change (kv :: errs = OrderedDict_of_pairs (failures trace)) in Herrs.
    inversion Hr; subst. exists (kv :: errs).
    split; [ reflexivity | ]. split; [ discriminate | ].
    destruct (OrderedDict_of_pairs_spec (failures trace)) as [Hnd Hget].
    rewrite Herrs. split; [ exact Hnd | ]. split; [ | split; [ exact Hget | reflexivity ] ].
    intros name Hin. unfold OrderedDict_of_pairs in Hin.
    apply foldl_dict_set_keys in Hin as [ Hin | Hin ]; [ inversion Hin | ].
    rewrite <- Hnames. eapply elem_of_sublist; [ exact Hin | apply failures_names_sublist ].
  - destruct Htr as (_ & Hcr & _). inversion Hr; subst e. discriminate.
Qed.

Lemma encode_error_report_witness :
  exists errs,
    dict_get errs "flex" = Some "flex says no" /\ NoDup errs.*1 /\
    exists msg sp c,
      (encode mixed_environment sample_library
         (OpenAPICodecJson ["flex"; "ssv"; "flex"] false "application/json")
         (Swagger sample_items) []).2
      = Raise (SwaggerValidationError msg (Some errs) sp c).
Proof.
  assert (E : exists msg errs sp c,
             (encode mixed_environment sample_library
                (OpenAPICodecJson ["flex"; "ssv"; "flex"] false "application/json")
                (Swagger sample_items) []).2
             = Raise (SwaggerValidationError msg (Some errs) sp c)).
  { eexists _, _, _, _. vm_compute. reflexivity. }
  destruct E as (msg & errs & sp & c & E).
  destruct (encode_error_report mixed_environment sample_library
              (OpenAPICodecJson ["flex"; "ssv"; "flex"] false "application/json")
              sample_items [] msg (Some errs) sp c E) as (errs' & He & _ & Hnd & _ & Hget & _).
  inversion He; subst errs'. exists errs.
  split; [ rewrite Hget; vm_compute; reflexivity | ].
  split; [ exact Hnd | ]. exists msg, sp, c. exact E.
Defined.

(** ** [encode_error] *)

(** X5.  [encode_error] consults no validator: for a payload that denotes a
    tree it always returns, and what it returns is the dump of that tree; for
    the document [encode] converted it returns the bytes [encode] returns when
    validation passes. *)
Theorem encode_error_dumps self lib err h d :
  reify h err = Some d ->
  (exists text, dump_doc self lib d = Ok text /\
                encode_error self lib err h = Ok (force_bytes text)) /\
  (forall env items h0 out,
     environment_frame env ->
     d = DDict items ->
     (encode env lib self (Swagger items) h0).2 = Ok out ->
     encode_error self lib err h = Ok out).
Proof.
  intros Hr.
  destruct (dump_doc_total self lib d) as [text Ht].
  assert (He : encode_error self lib err h = Ok (force_bytes text)).
  { unfold encode_error. rewrite (_dump_dict_tree _ _ _ _ _ Hr), Ht. reflexivity. }
  split; [ exists text; split; assumption | ].
  intros env items h0 out Henv -> Hout.
  destruct (encode_Ok_dump env lib self items h0 out Henv Hout) as (text' & Ht' & ->).
  rewrite He. congruence.
Qed.

Lemma encode_error_dumps_witness :
  exists text,
    dump_doc sample_codec sample_library (DDict [("detail", DStr "boom")]) = Ok text /\
    encode_error sample_codec sample_library (PRef 0) [POrderedDict [("detail", PStr "boom")]]
    = Ok (force_bytes text).
Proof.
  exact (proj1 (encode_error_dumps sample_codec sample_library (PRef 0)
                  [POrderedDict [("detail", PStr "boom")]] (DDict [("detail", DStr "boom")])
                  eq_refl)).
Defined.

(** ** Validation does not depend on the output format *)

(** X6.  Validation is the same for every codec: two codecs configured with
    the same validators, be they JSON or YAML, pretty or not, leave the same
    heap, and either both return bytes or both raise the same exception, the
    validation errors differing only in the codec they name. *)
Theorem codecs_agree_on_validation env lib self1 self2 items h :
  environment_frame env ->
  validators self1 = validators self2 ->
  (encode env lib self1 (Swagger items) h).1 = (encode env lib self2 (Swagger items) h).1 /\
  outcome (encode env lib self1 (Swagger items) h).2
    = outcome (encode env lib self2 (Swagger items) h).2.
Proof.
  intros He Hv.
  pose proof (encode_Swagger env lib self1 items h) as E1.
  pose proof (encode_Swagger env lib self2 items h) as E2.
  cbv zeta in E1, E2. rewrite E1, E2. clear E1 E2.
  rewrite <- Hv. unfold generate_swagger_object. cbn [fst snd].
  destruct (as_odict items h) as [spec h1] eqn:Eg. cbn [fst snd].
  split; [ reflexivity | ].
  pose proof (generate_swagger_object_intact self1 items h spec h1 Eg) as Hi.
  pose proof (run_validators_intact env He _ _ spec _ (validators self1) h1 [] Hi)
    as (_ & _ & _ & Hrf).
  destruct (run_validators env (validators self1) spec h1 []) as [hf [ [ | kv errs ] | e ]];
    cbn [fst snd] in *; [ | reflexivity | reflexivity ].
  rewrite !(_dump_dict_tree _ _ _ _ _ Hrf).
  destruct (dump_doc_total self1 lib (DDict items)) as [t1 ->].
  destruct (dump_doc_total self2 lib (DDict items)) as [t2 ->].
  reflexivity.
Qed.

Lemma codecs_agree_on_validation_witness :
  outcome (encode mixed_environment sample_library
             (OpenAPICodecJson ["flex"; "ssv"] true "application/json")
             (Swagger sample_items) []).2
  = outcome (encode mixed_environment sample_library
               (OpenAPICodecYaml ["flex"; "ssv"] "application/yaml")
               (Swagger sample_items) []).2.
Proof.
  refine (proj2 (codecs_agree_on_validation mixed_environment sample_library
                   (OpenAPICodecJson ["flex"; "ssv"] true "application/json")
                   (OpenAPICodecYaml ["flex"; "ssv"] "application/yaml")
                   sample_items [] _ eq_refl)).
  split; intros e E; inversion E; subst e.
  - apply sample_engine_frame.
  - intros h v. split; [ simpl; lia | intros; reflexivity ].
Defined.

(** ** The graph of [yaml_sane_dump] *)

Lemma represent_text_sane self text : sane_graph (represent_text self text) = true.
Proof. unfold represent_text. destruct (contains_char newline text); reflexivity. Qed.

Lemma represent_items_sane rd items :
  (forall v ro nd ro', rd v ro = Some (nd, ro') -> sane_graph nd = true) ->
  forall ro value best ro',
    represent_items rd items ro = Some (value, best, ro') ->
    forallb (fun kv => sane_graph kv.1 && sane_graph kv.2) value = true.
Proof.
  intros Hrd. induction items as [ | [k v] r IH ]; intros ro value best ro' H; simpl in H.
  - inversion H. reflexivity.
  - destruct (rd (PStr k) ro) as [ [nk ro1] | ] eqn:Ek; [ | discriminate ].
    destruct (rd v ro1) as [ [nv ro2] | ] eqn:Ev; [ | discriminate ].
    destruct (represent_items rd r ro2) as [ [ [value' best'] ro3 ] | ] eqn:Er; [ | discriminate ].
    inversion H; subst. simpl.
    rewrite (Hrd _ _ _ _ Ek), (Hrd _ _ _ _ Ev), (IH _ _ _ _ Er). reflexivity.
Qed.

Lemma represent_elems_sane rd elems :
  (forall v ro nd ro', rd v ro = Some (nd, ro') -> sane_graph nd = true) ->
  forall ro value best ro',
    represent_elems rd elems ro = Some (value, best, ro') ->
    forallb sane_graph value = true.
Proof.
  intros Hrd. induction elems as [ | v r IH ]; intros ro value best ro' H; simpl in H.
  - inversion H. reflexivity.
  - destruct (rd v ro) as [ [nv ro1] | ] eqn:Ev; [ | discriminate ].
    destruct (represent_elems rd r ro1) as [ [ [value' best'] ro2 ] | ] eqn:Er; [ | discriminate ].
    inversion H; subst. simpl.
    rewrite (Hrd _ _ _ _ Ev), (IH _ _ _ _ Er). reflexivity.
Qed.

Lemma represent_data_sane n h : forall v ro nd ro',
  represent_data SaneYamlDumper n h v ro = Some (nd, ro') -> sane_graph nd = true.
Proof.
  induction n as [ | n IH ]; intros v ro nd ro' H.
  - destruct v as [ | b | z | s | l ]; simpl in H; inversion H; subst; try reflexivity.
    apply represent_text_sane.
  - destruct v as [ | b | z | s | l ]; simpl in H.
    + inversion H. reflexivity.
    + inversion H. reflexivity.
    + inversion H. reflexivity.
    + inversion H. apply represent_text_sane.
    + destruct (h !! l) as [ [ items | elems | items ] | ]; [ | | | discriminate ].
      * unfold represent_odict in H. simpl in H.
        destruct (represent_items (represent_data SaneYamlDumper n h) items ro)
          as [ [ [value best] ro1 ] | ] eqn:Ei; [ | discriminate ].
        inversion H; subst. simpl.
        exact (represent_items_sane _ items IH _ _ _ _ Ei).
      * unfold represent_list in H. simpl in H.
        destruct (represent_elems (represent_data SaneYamlDumper n h) elems ro)
          as [ [ [value best] ro1 ] | ] eqn:Ei; [ | discriminate ].
        inversion H; subst. simpl.
        exact (represent_elems_sane _ elems IH _ _ _ _ Ei).
      * unfold represent_dict, represent_odict in H. simpl in H.
        destruct (represent_items (represent_data SaneYamlDumper n h) (sorted_items items) ro)
          as [ [ [value best] ro1 ] | ] eqn:Ei; [ | discriminate ].
        inversion H; subst. simpl.
        exact (represent_items_sane _ _ IH _ _ _ _ Ei).
Qed.

(** X7.  Whatever [yaml_sane_dump] returns is the library's rendering of a
    graph in which every mapping is a regular mapping (never an [!!odict]),
    every sequence a regular sequence, every collection in block style at
    every depth, and every scalar a string, integer, boolean or null. *)
Theorem yaml_sane_dump_graph lib h data binary text :
  yaml_sane_dump lib h data binary = Ok text ->
  exists nd,
    represent_data SaneYamlDumper (length h) h data ∅ = Some (nd, ∅) /\
    sane_graph nd = true /\
    text = yaml_emit lib nd.
Proof.
  unfold yaml_sane_dump. intros H.
  pose proof (represent_data_never_aliases (length h) h data ∅) as Ha.
  destruct (represent_data SaneYamlDumper (length h) h data ∅) as [ [nd ro] | ] eqn:E;
    [ | discriminate ].
  destruct Ha as [_ ->]. exists nd.
  split; [ reflexivity | ]. split; [ exact (represent_data_sane _ _ _ _ _ _ E) | ].
  inversion H. reflexivity.
Qed.

Lemma yaml_sane_dump_graph_witness :
  exists nd,
    represent_data SaneYamlDumper (length shared_heap) shared_heap (PRef 1) ∅ = Some (nd, ∅) /\
    sane_graph nd = true /\
    yaml_emit sample_library nd = yaml_emit sample_library nd.
Proof.
  exact (yaml_sane_dump_graph sample_library shared_heap (PRef 1) true _ eq_refl).
Defined.

(** ** The flow style [represent_odict] picks *)

Lemma represent_items_best rd items : forall ro value best ro',
  represent_items rd items ro = Some (value, best, ro') ->
  length value = length items /\
  best = forallb (fun kv => plain_scalar kv.1 && plain_scalar kv.2) value.
Proof.
  induction items as [ | [k v] r IH ]; intros ro value best ro' H; simpl in H.
  - inversion H. split; reflexivity.
  - destruct (rd (PStr k) ro) as [ [nk ro1] | ]; [ | discriminate ].
    destruct (rd v ro1) as [ [nv ro2] | ]; [ | discriminate ].
    destruct (represent_items rd r ro2) as [ [ [value' best'] ro3 ] | ] eqn:Er; [ | discriminate ].
    inversion H; subst. destruct (IH _ _ _ _ Er) as [L B].
    simpl. rewrite L, <- B. split; reflexivity.
Qed.

(** X8.  The node [represent_odict] returns is a mapping tagged as a regular
    map with one item per item of the mapping.  Its flow style is the one the
    caller asked for, else the dumper's default, and only when both are left
    open is the mapping written inline exactly when every key and every value
    came out as a plain scalar. *)
Theorem represent_odict_flow_style self rd alias_key mapping flow_style ro nd ro' :
  represent_odict self rd alias_key mapping flow_style ro = Some (nd, ro') ->
  exists value,
    length value = length mapping /\
    nd = MappingNode YAML_MAP_TAG value
           (Some (match flow_style, default_flow_style self with
                  | Some f, _ => f
                  | None, Some f => f
                  | None, None =>
                      forallb (fun kv => plain_scalar kv.1 && plain_scalar kv.2) value
                  end)).
Proof.
  unfold represent_odict. intros H.
  destruct (represent_items rd mapping (register alias_key ro))
    as [ [ [value best] ro1 ] | ] eqn:Ei; [ | discriminate ].
  destruct (represent_items_best _ _ _ _ _ _ Ei) as [L B].
  inversion H; subst. exists value. split; [ exact L | ].
  unfold pick_flow_style. destruct flow_style as [ f | ]; [ reflexivity | ].
  destruct (default_flow_style self); reflexivity.
Qed.

Lemma represent_odict_flow_style_witness :
  exists value,
    length value = 2 /\
    MappingNode YAML_MAP_TAG
      [(ScalarNode YAML_STR_TAG "a" None, ScalarNode YAML_INT_TAG "1" None);
       (ScalarNode YAML_STR_TAG "b" None,
        MappingNode YAML_MAP_TAG [] (Some true))] (Some false)
    = MappingNode YAML_MAP_TAG value
        (Some (forallb (fun kv => plain_scalar kv.1 && plain_scalar kv.2) value)).
Proof.
  exact (represent_odict_flow_style open_style_dumper
           (represent_data open_style_dumper 1 [POrderedDict []]) None
           [("a", PInt 1); ("b", PRef 0)] None ∅ _ _ eq_refl).
Defined.

(** ** Registration under the alias key *)

Lemma represent_items_grows rd items :
  (forall v ro nd ro', rd v ro = Some (nd, ro') -> ro ⊆ ro') ->
  forall ro value best ro',
    represent_items rd items ro = Some (value, best, ro') -> ro ⊆ ro'.
Proof.
  intros Hrd. induction items as [ | [k v] r IH ]; intros ro value best ro' H; simpl in H.
  - inversion H. reflexivity.
  - destruct (rd (PStr k) ro) as [ [nk ro1] | ] eqn:Ek; [ | discriminate ].
    destruct (rd v ro1) as [ [nv ro2] | ] eqn:Ev; [ | discriminate ].
    destruct (represent_items rd r ro2) as [ [ [value' best'] ro3 ] | ] eqn:Er; [ | discriminate ].
    inversion H; subst.
    pose proof (Hrd _ _ _ _ Ek). pose proof (Hrd _ _ _ _ Ev). pose proof (IH _ _ _ _ Er).
    set_solver.
Qed.

Lemma represent_elems_grows rd elems :
  (forall v ro nd ro', rd v ro = Some (nd, ro') -> ro ⊆ ro') ->
  forall ro value best ro',
    represent_elems rd elems ro = Some (value, best, ro') -> ro ⊆ ro'.
Proof.
  intros Hrd. induction elems as [ | v r IH ]; intros ro value best ro' H; simpl in H.
  - inversion H. reflexivity.
  - destruct (rd v ro) as [ [nv ro1] | ] eqn:Ev; [ | discriminate ].
    destruct (represent_elems rd r ro1) as [ [ [value' best'] ro2 ] | ] eqn:Er; [ | discriminate ].
    inversion H; subst.
    pose proof (Hrd _ _ _ _ Ev). pose proof (IH _ _ _ _ Er). set_solver.
Qed.

Lemma register_grows alias_key ro : ro ⊆ register alias_key ro.
Proof. destruct alias_key; simpl; set_solver. Qed.

(** What a successful [represent_data] leaves in [represented_objects]:
    nothing is ever removed, and an object that may be aliased is in it. *)
Lemma represent_data_registered self n h : forall v ro nd ro',
  represent_data self n h v ro = Some (nd, ro') ->
  ro ⊆ ro' /\
  forall l, v = PRef l -> ignore_aliases self v = false -> l ∈ ro'.
Proof.
  induction n as [ | n IH ]; intros v ro nd ro' H.
  - destruct v as [ | b | z | s | l ]; simpl in H;
      try (inversion H; subst; split; [ reflexivity | intros; discriminate ]).
    destruct (ignore_aliases self (PRef l)) eqn:Ei.
    + rewrite bool_decide_eq_false_2 in H by (intros [? _]; discriminate). discriminate.
    + destruct (bool_decide_reflect (Some l = Some l /\ l ∈ ro)) as [ [_ Hin] | _ ];
        [ | discriminate ].
      inversion H; subst. split; [ reflexivity | ].
      intros l' E _. inversion E; subst. exact Hin.
  - destruct v as [ | b | z | s | l ]; simpl in H;
      try (inversion H; subst; split; [ reflexivity | intros; discriminate ]).
    assert (Hsub : forall v ro nd ro',
               represent_data self n h v ro = Some (nd, ro') -> ro ⊆ ro').
    { intros v0 ro0 nd0 ro0' H0. exact (proj1 (IH _ _ _ _ H0)). }
    destruct (bool_decide_reflect
                ((if ignore_aliases self (PRef l) then None else Some l) = Some l /\ l ∈ ro))
      as [ [_ Hin] | _ ].
    + inversion H; subst. split; [ reflexivity | ].
      intros l' E _. inversion E; subst. exact Hin.
    + assert (Hreg : ro ⊆ register (if ignore_aliases self (PRef l) then None else Some l) ro /\
                     (ignore_aliases self (PRef l) = false ->
                      l ∈ register (if ignore_aliases self (PRef l) then None else Some l) ro)).
      { split; [ apply register_grows | ]. intros ->. simpl. apply elem_of_union_l, elem_of_singleton. reflexivity. }
      destruct Hreg as [Hr1 Hr2].
      destruct (h !! l) as [ [ items | elems | items ] | ]; [ | | | discriminate ].
      * unfold represent_odict in H.
        destruct (represent_items (represent_data self n h) items
                    (register (if ignore_aliases self (PRef l) then None else Some l) ro))
          as [ [ [value best] ro1 ] | ] eqn:Ei; [ | discriminate ].
        inversion H; subst.
        pose proof (represent_items_grows _ items Hsub _ _ _ _ Ei) as Hg.
        split; [ etransitivity; [ exact Hr1 | exact Hg ] | ].
        intros l' E Hia. inversion E; subst. exact (Hg _ (Hr2 Hia)).
      * unfold represent_list in H.
        destruct (represent_elems (represent_data self n h) elems
                    (register (if ignore_aliases self (PRef l) then None else Some l) ro))
          as [ [ [value best] ro1 ] | ] eqn:Ei; [ | discriminate ].
        inversion H; subst.
        pose proof (represent_elems_grows _ elems Hsub _ _ _ _ Ei) as Hg.
        split; [ etransitivity; [ exact Hr1 | exact Hg ] | ].
        intros l' E Hia. inversion E; subst. exact (Hg _ (Hr2 Hia)).
      * unfold represent_dict, represent_odict in H.
        destruct (represent_items (represent_data self n h) (sorted_items items)
                    (register (if ignore_aliases self (PRef l) then None else Some l) ro))
          as [ [ [value best] ro1 ] | ] eqn:Ei; [ | discriminate ].
        inversion H; subst.
        pose proof (represent_items_grows _ _ Hsub _ _ _ _ Ei) as Hg.
        split; [ etransitivity; [ exact Hr1 | exact Hg ] | ].
        intros l' E Hia. inversion E; subst. exact (Hg _ (Hr2 Hia)).
Qed.

(** X9.  On a dumper that does not ignore aliases the registration of
    [represent_odict] takes effect: once an object has been represented it
    stays registered through everything that is represented afterwards, and
    every later occurrence of it comes out as the shared node, at any depth
    budget.  [SaneYamlDumper] is saved from this only by its
    [ignore_aliases]. *)
Theorem represent_data_shares_registered self n h l ro nd ro' :
  ignore_aliases self (PRef l) = false ->
  represent_data self n h (PRef l) ro = Some (nd, ro') ->
  l ∈ ro' /\
  forall m v ro1 nd1,
    represent_data self m h v ro' = Some (nd1, ro1) ->
    forall k, represent_data self k h (PRef l) ro1 = Some (SharedNode l, ro1).
Proof.
  intros Hia H.
  destruct (represent_data_registered self n h _ _ _ _ H) as [_ Hin].
  specialize (Hin l eq_refl Hia). split; [ exact Hin | ].
  intros m v ro1 nd1 H1 k.
  destruct (represent_data_registered self m h _ _ _ _ H1) as [Hsub _].
  assert (Hin1 : l ∈ ro1) by set_solver.
  destruct k as [ | k ]; simpl; rewrite Hia;
    rewrite bool_decide_eq_true_2 by (split; [ reflexivity | exact Hin1 ]); reflexivity.
Qed.

Lemma represent_data_shares_registered_witness :
  exists nd ro',
    represent_data SafeDumper 2 shared_heap (PRef 0) ∅ = Some (nd, ro') /\
    0 ∈ ro' /\
    represent_data SafeDumper 0 shared_heap (PRef 0) ro' = Some (SharedNode 0, ro').
Proof.
  assert (E : exists nd ro', represent_data SafeDumper 2 shared_heap (PRef 0) ∅ = Some (nd, ro')).
  { eexists _, _. vm_compute. reflexivity. }
  destruct E as (nd & ro' & E). exists nd, ro'.
  destruct (represent_data_shares_registered SafeDumper 2 shared_heap 0 ∅ nd ro' eq_refl E)
    as [Hin Hlater].
  split; [ exact E | ]. split; [ exact Hin | ].
  exact (Hlater 0 PNone ro' _ eq_refl 0).
Defined.

(** ** Cyclic payloads *)

Lemma sorted_items_elem (items : list (string * pyval)) kv :
  kv ∈ sorted_items items <-> kv ∈ items.
Proof.
  assert (Hins : forall x l, kv ∈ insert_item x l <-> kv = x \/ kv ∈ l).
  { intros x l. induction l as [ | y r IH ]; simpl.
    - rewrite list_elem_of_singleton, elem_of_nil. tauto.
    - destruct (String.leb x.1 y.1); rewrite !elem_of_cons; [ tauto | ].
      rewrite IH. tauto. }
  induction items as [ | x r IH ]; simpl; [ reflexivity | ].
  rewrite Hins, elem_of_cons, IH. tauto.
Qed.

Lemma json_tree_fuel_endless h P :
  endless h P -> forall n l, P l -> json_tree_fuel n h (PRef l) = None.
Proof.
  intros He. induction n as [ | n IH ]; intros l Hl; [ reflexivity | ].
  destruct (He l Hl) as (o & q & Ho & Hq & HP). simpl. rewrite Ho.
  assert (Hnone : mapM (json_tree_fuel n h) (obj_values o) = None).
  { apply mapM_None_2, Exists_exists. exists (PRef q). split; [ exact Hq | exact (IH q HP) ]. }
  destruct o as [ items | elems | items ]; simpl in Hnone; rewrite Hnone; reflexivity.
Qed.

Lemma represent_items_fails rd items q :
  (forall ro, rd (PRef q) ro = None) -> PRef q ∈ items.*2 ->
  forall ro, represent_items rd items ro = None.
Proof.
  intros Hq. induction items as [ | [k v] r IH ]; intros Hin ro; simpl in *.
  - inversion Hin.
  - destruct (rd (PStr k) ro) as [ [nk ro1] | ]; [ | reflexivity ].
    apply elem_of_cons in Hin as [ <- | Hin ].
    + rewrite Hq. reflexivity.
    + destruct (rd v ro1) as [ [nv ro2] | ]; [ | reflexivity ].
      rewrite (IH Hin). reflexivity.
Qed.

Lemma represent_elems_fails rd elems q :
  (forall ro, rd (PRef q) ro = None) -> PRef q ∈ elems ->
  forall ro, represent_elems rd elems ro = None.
Proof.
  intros Hq. induction elems as [ | v r IH ]; intros Hin ro; simpl.
  - inversion Hin.
  - apply elem_of_cons in Hin as [ <- | Hin ].
    + rewrite Hq. reflexivity.
    + destruct (rd v ro) as [ [nv ro1] | ]; [ | reflexivity ].
      rewrite (IH Hin). reflexivity.
Qed.

Lemma represent_data_endless h P :
  endless h P -> forall n l ro, P l -> represent_data SaneYamlDumper n h (PRef l) ro = None.
Proof.
  intros He. induction n as [ | n IH ]; intros l ro Hl; [ reflexivity | ].
  destruct (He l Hl) as (o & q & Ho & Hq & HP). simpl. rewrite Ho.
  destruct o as [ items | elems | items ]; simpl in Hq.
  - unfold represent_odict. simpl.
    rewrite (represent_items_fails _ items q (fun ro0 => IH q ro0 HP) Hq). reflexivity.
  - unfold represent_list. simpl.
    rewrite (represent_elems_fails _ elems q (fun ro0 => IH q ro0 HP) Hq). reflexivity.
  - unfold represent_dict, represent_odict. simpl.
    assert (Hq' : PRef q ∈ (sorted_items items).*2).
    { apply list_elem_of_fmap in Hq as (kv & E & Hin). apply list_elem_of_fmap.
      exists kv. split; [ exact E | apply sorted_items_elem; exact Hin ]. }
    rewrite (represent_items_fails _ _ q (fun ro0 => IH q ro0 HP) Hq'). reflexivity.
Qed.

(** X10.  A payload that contains itself is never dumped.  The JSON codec
    refuses it with the [ValueError] of [json.dumps]; the YAML codec, whose
    dumper ignores aliases, descends until the recursion limit, whatever the
    depth budget. *)
Theorem cyclic_payload_not_dumped self lib h P l :
  endless h P -> P l ->
  encode_error self lib (PRef l) h =
    Raise (match self with
           | OpenAPICodecJson _ _ _ => ValueError "Circular reference detected"
           | OpenAPICodecYaml _ _ => RecursionError
           end) /\
  forall n ro, represent_data SaneYamlDumper n h (PRef l) ro = None.
Proof.
  intros He Hl. split; [ | intros n ro; exact (represent_data_endless h P He n l ro Hl) ].
  unfold encode_error, _dump_dict. destruct self as [ vs pretty mt | vs mt ].
  - unfold json_tree. rewrite (json_tree_fuel_endless h P He _ l Hl). reflexivity.
  - unfold yaml_sane_dump. rewrite (represent_data_endless h P He _ l ∅ Hl). reflexivity.
Qed.

Lemma cyclic_payload_not_dumped_witness :
  encode_error (OpenAPICodecYaml [] "application/yaml") sample_library (PRef 0) cyclic_heap
  = Raise RecursionError.
Proof.
  refine (proj1 (cyclic_payload_not_dumped (OpenAPICodecYaml [] "application/yaml")
                   sample_library cyclic_heap (fun l => l = 0) 0 _ eq_refl)).
  intros l ->. exists (PList [PInt 1; PRef 0]), 0.
  split; [ reflexivity | ]. split; [ | reflexivity ].
  simpl. right. left.
Defined.

(** The library's own dumper writes the same payload with an alias. *)
Example SafeDumper_closes_cycle :
  fst <$> represent_data SafeDumper 1 cyclic_heap (PRef 0) ∅ =
    Some (SequenceNode YAML_SEQ_TAG [ScalarNode YAML_INT_TAG "1" None; SharedNode 0]
            (Some false)).
Proof. vm_compute. reflexivity. Qed.

(** ** Mappings with repeated keys *)

Lemma dict_set_keys_eq {V} (d : list (string * V)) k v :
  (dict_set d k v).*1 = if decide (k ∈ d.*1) then d.*1 else d.*1 ++ [k].
Proof.
  induction d as [ | [k' v'] r IH ].
  - destruct (decide (k ∈ ([] : list (string * V)).*1)) as [ H | H ];
      [ inversion H | reflexivity ].
  - cbn [dict_set]. destruct (String.eqb_spec k k') as [ -> | Hne ].
    + destruct (decide (k' ∈ ((k', v') :: r).*1)) as [ H | H ]; [ reflexivity | ].
      exfalso. apply H. left.
    + change (k' :: (dict_set r k v).*1
              = if decide (k ∈ k' :: r.*1) then k' :: r.*1 else (k' :: r.*1) ++ [k]).
      rewrite IH.
      destruct (decide (k ∈ r.*1)) as [ Hin | Hin ];
        destruct (decide (k ∈ k' :: r.*1)) as [ Hin' | Hin' ]; try reflexivity.
      * exfalso. apply Hin'. right. exact Hin.
      * apply elem_of_cons in Hin' as [ E | E ]; [ exact (False_ind _ (Hne E)) | ].
        exact (False_ind _ (Hin E)).
Qed.

Lemma foldl_dict_set_first {V} (l d : list (string * V)) :
  (foldl (fun d kv => dict_set d kv.1 kv.2) d l).*1
  = d.*1 ++ filter (fun k => k ∉ d.*1) (first_occurrences l.*1).
Proof.
  revert d. induction l as [ | [k v] r IH ]; intros d; simpl.
  - rewrite filter_nil, app_nil_r. reflexivity.
  - rewrite IH, dict_set_keys_eq. destruct (decide (k ∈ d.*1)) as [ Hin | Hin ].
    + rewrite filter_cons_False by (intros H; exact (H Hin)).
      rewrite list_filter_filter. f_equal. apply list_filter_iff. intros x.
      split; [ intros H; split; [ exact H | intros ->; exact (H Hin) ] | intros [H _]; exact H ].
    + rewrite filter_cons_True by exact Hin.
      rewrite <- app_assoc. simpl. do 2 f_equal.
      rewrite list_filter_filter. apply list_filter_iff. intros x.
      rewrite elem_of_app, list_elem_of_singleton. tauto.
Qed.

Lemma OrderedDict_of_pairs_keys {V} (pairs : list (string * V)) :
  (OrderedDict_of_pairs pairs).*1 = first_occurrences pairs.*1.
Proof.
  unfold OrderedDict_of_pairs. rewrite foldl_dict_set_first. simpl.
  induction (first_occurrences pairs.*1) as [ | k r IH ]; [ reflexivity | ].
  rewrite filter_cons_True by apply not_elem_of_nil. f_equal. exact IH.
Qed.

Lemma option_all_inv {A B} (f : A -> option B) (l : list A) : forall k,
  option_all f l = Some k -> Forall2 (fun x y => f x = Some y) l k.
Proof.
  induction l as [ | x l IH ]; intros k H; simpl in H.
  - inversion H. constructor.
  - destruct (f x) as [ y | ] eqn:Ex; [ | discriminate ].
    destruct (option_all f l) as [ ys | ]; [ | discriminate ].
    inversion H; subst. constructor; [ exact Ex | apply IH; reflexivity ].
Qed.

(** X11.  A mapping in which a key is written more than once is loaded
    without complaint: [construct_odict] keeps one entry per key, at the place
    where the key first occurs and with the value of its last occurrence. *)
Theorem construct_odict_repeated_keys co nd d :
  construct_odict co nd = Some d ->
  exists value pairs items,
    flatten_mapping nd = Some value /\
    construct_pairs co value = Some pairs /\
    d = DDict items /\
    items.*1 = first_occurrences pairs.*1 /\
    NoDup items.*1 /\
    forall k, dict_get items k = last_binding pairs k.
Proof.
  unfold construct_odict. intros H.
  destruct (flatten_mapping nd) as [ value | ]; [ | discriminate ].
  destruct (construct_pairs co value) as [ pairs | ] eqn:Ep; [ | discriminate ].
  inversion H. exists value, pairs, (OrderedDict_of_pairs pairs).
  destruct (OrderedDict_of_pairs_spec pairs) as [Hnd Hget].
  split; [ reflexivity | ]. split; [ exact Ep | ]. split; [ reflexivity | ].
  split; [ apply OrderedDict_of_pairs_keys | ]. split; assumption.
Qed.

Lemma construct_odict_repeated_keys_witness :
  construct_odict (construct_object 1) duplicate_example
    = Some (DDict [("b", DInt 3); ("a", DInt 2)]) /\
  exists value pairs items,
    flatten_mapping duplicate_example = Some value /\
    construct_pairs (construct_object 1) value = Some pairs /\
    DDict [("b", DInt 3); ("a", DInt 2)] = DDict items /\
    items.*1 = first_occurrences pairs.*1 /\
    NoDup items.*1 /\
    forall k, dict_get items k = last_binding pairs k.
Proof.
  split; [ reflexivity | ].
  exact (construct_odict_repeated_keys (construct_object 1) duplicate_example _ eq_refl).
Defined.

Lemma construct_object_unique_keys n : forall nd d,
  construct_object n nd = Some d -> unique_keys d = true.
Proof.
  induction n as [ | n IH ]; intros nd d H; [ discriminate | ].
  destruct nd as [ tag value style | tag value flow | tag value flow | k ]; simpl in H.
  - destruct (String.eqb tag YAML_STR_TAG); [ inversion H; reflexivity | ].
    destruct (String.eqb tag YAML_INT_TAG).
    { destruct (construct_yaml_int value); inversion H. reflexivity. }
    destruct (String.eqb tag YAML_BOOL_TAG).
    { destruct (construct_yaml_bool value); inversion H. reflexivity. }
    destruct (String.eqb tag YAML_NULL_TAG); inversion H. reflexivity.
  - destruct (String.eqb tag YAML_SEQ_TAG); [ | discriminate ].
    destruct (option_all (construct_object n) value) as [ xs | ] eqn:Ex; inversion H.
    simpl. apply forallb_forall. intros x Hx. apply list_elem_of_In in Hx.
    pose proof (option_all_inv _ _ _ Ex) as HF.
    destruct (proj1 (list_elem_of_lookup _ _) Hx) as [i Hi].
    destruct (Forall2_lookup_r _ _ _ _ _ HF Hi) as (nd' & _ & Hc).
    exact (IH _ _ Hc).
  - destruct (String.eqb tag YAML_MAP_TAG); [ | discriminate ].
    destruct (construct_odict_repeated_keys _ _ _ H)
      as (value' & pairs & items & _ & Hp & -> & _ & Hnd & _).
    unfold construct_odict in H.
    destruct (flatten_mapping (MappingNode tag value flow)) as [ fl | ]; [ | discriminate ].
    destruct (construct_pairs (construct_object n) fl) as [ pairs' | ] eqn:Ep; [ | discriminate ].
    inversion H; subst items. simpl.
    rewrite bool_decide_eq_true_2 by exact Hnd. simpl.
    apply forallb_forall. intros [k x] Hx. apply list_elem_of_In in Hx. simpl.
    apply foldl_dict_set_elem in Hx as [ Hx | Hx ]; [ inversion Hx | ].
    pose proof (option_all_inv _ _ _ Ep) as HF.
    destruct (proj1 (list_elem_of_lookup _ _) Hx) as [i Hi].
    destruct (Forall2_lookup_r _ _ _ _ _ HF Hi) as ([kn vn] & _ & Hc). simpl in Hc.
    destruct (construct_object n kn) as [ [ | | | s | | ] | ]; try discriminate.
    destruct (construct_object n vn) as [ x' | ] eqn:Ev; [ | discriminate ].
    inversion Hc; subst. exact (IH _ _ Ev).
  - discriminate.
Qed.

(** X12.  Whatever [yaml_sane_load] returns has pairwise distinct keys in
    every mapping, at every depth, also when the stream repeats keys. *)
Theorem yaml_sane_load_unique_keys lib stream d :
  yaml_sane_load lib stream = Some d -> unique_keys d = true.
Proof.
  unfold yaml_sane_load. intros H.
  destruct (yaml_compose lib stream) as [ nd | ]; [ | discriminate ].
  exact (construct_object_unique_keys _ _ _ H).
Qed.

Lemma yaml_sane_load_unique_keys_witness :
  yaml_sane_load
    {| py_repr := quoting_repr;
       yaml_emit := fun _ => EmptyString;
       yaml_compose := fun _ => Some duplicate_example |} "{b: 1, a: 2, b: 3}"
    = Some (DDict [("b", DInt 3); ("a", DInt 2)]) /\
  unique_keys (DDict [("b", DInt 3); ("a", DInt 2)]) = true.
Proof.
  split; [ reflexivity | ].
  exact (yaml_sane_load_unique_keys
           {| py_repr := quoting_repr;
              yaml_emit := fun _ => EmptyString;
              yaml_compose := fun _ => Some duplicate_example |}
           "{b: 1, a: 2, b: 3}" _ eq_refl).
Defined.

(** ** Loading keeps the order of the stream *)

Lemma construct_pairs_keys n value : forall pairs,
  Forall (fun kv => exists style, kv.1 = ScalarNode YAML_STR_TAG (scalar_value kv.1) style)
    value ->
  construct_pairs (construct_object n) value = Some pairs ->
  pairs.*1 = map (fun kv => scalar_value kv.1) value.
Proof.
  unfold construct_pairs.
  induction value as [ | [kn vn] r IH ]; intros pairs HF H; simpl in H.
  - inversion H. reflexivity.
  - apply Forall_cons in HF as [ [style Hk] HF ]. simpl in Hk.
    destruct (construct_object n kn) as [ [ | | | s | | ] | ] eqn:Ek; try discriminate.
    destruct (construct_object n vn) as [ x | ]; [ | discriminate ].
    match type of H with
    | match ?o with _ => _ end = _ => destruct o as [ ps | ] eqn:Er; [ | discriminate ]
    end.
    inversion H; subst pairs. pose proof (IH ps HF eq_refl) as Hps.
    change (s :: ps.*1 = scalar_value kn :: map (fun kv : node * node => scalar_value kv.1) r).
    rewrite Hps. f_equal.
    rewrite Hk in Ek. destruct n as [ | n ]; [ discriminate | ].
    simpl in Ek. inversion Ek. rewrite Hk. reflexivity.
Qed.

(** X13.  [yaml_sane_load] preserves the input order of mapping items: a
    stream whose root is a mapping with string keys loads as a mapping whose
    keys stand in the order in which the stream first names them. *)
Theorem yaml_sane_load_keeps_order lib stream tag value flow d :
  yaml_compose lib stream = Some (MappingNode tag value flow) ->
  Forall (fun kv => exists style, kv.1 = ScalarNode YAML_STR_TAG (scalar_value kv.1) style)
    value ->
  yaml_sane_load lib stream = Some d ->
  exists items,
    d = DDict items /\
    items.*1 = first_occurrences (map (fun kv => scalar_value kv.1) value).
Proof.
  unfold yaml_sane_load. intros -> HF H.
  remember (node_size (MappingNode tag value flow)) as n eqn:En. clear En.
  destruct n as [ | n ]; [ discriminate | ]. simpl in H.
  destruct (String.eqb tag YAML_MAP_TAG); [ | discriminate ].
  destruct (construct_odict_repeated_keys _ _ _ H)
    as (fl & pairs & items & Hfl & Hp & -> & Hk & _).
  exists items. split; [ reflexivity | ].
  simpl in Hfl. rewrite flatten_scan_plain in Hfl.
  - inversion Hfl; subst fl. rewrite Hk, (construct_pairs_keys _ _ _ HF Hp). reflexivity.
  - eapply Forall_impl; [ exact HF | ]. intros kv [style ->]. reflexivity.
Qed.

Lemma yaml_sane_load_keeps_order_witness :
  exists items,
    DDict [("b", DInt 3); ("a", DInt 2)] = DDict items /\
    items.*1 = first_occurrences ["b"; "a"; "b"].
Proof.
  refine (yaml_sane_load_keeps_order
            {| py_repr := quoting_repr;
               yaml_emit := fun _ => EmptyString;
               yaml_compose := fun _ => Some duplicate_example |}
            "{b: 1, a: 2, b: 3}" _ _ _ _ eq_refl _ eq_refl).
  repeat constructor; exists None; reflexivity.
Defined.

(** ** Plain dicts *)

Lemma insert_item_ascending kv (l : list (string * pyval)) :
  ascending l.*1 = true -> ascending (insert_item kv l).*1 = true.
Proof.
  induction l as [ | x r IH ]; intros H; [ reflexivity | ].
  cbn [insert_item]. destruct (String.leb kv.1 x.1) eqn:E.
  - change (String.leb kv.1 x.1 && ascending (x :: r).*1 = true). rewrite E. exact H.
  - assert (Hx : String.leb x.1 kv.1 = true).
    { destruct (String.leb_total kv.1 x.1) as [ H' | H' ]; [ congruence | exact H' ]. }
    destruct r as [ | y r ].
    + simpl. rewrite Hx. reflexivity.
    + change (String.leb x.1 y.1 && ascending (y :: r).*1 = true) in H.
      apply andb_prop in H as [Hxy Hr]. specialize (IH Hr).
      cbn [insert_item] in IH |- *. destruct (String.leb kv.1 y.1) eqn:Ey.
      * change (String.leb x.1 kv.1 && (String.leb kv.1 y.1 && ascending (y :: r).*1) = true).
        rewrite Hx, Ey. exact Hr.
      * change (String.leb x.1 y.1 && ascending (y :: insert_item kv r).*1 = true).
        rewrite Hxy. exact IH.
Qed.

Lemma sorted_items_ascending (items : list (string * pyval)) :
  ascending (sorted_items items).*1 = true.
Proof.
  induction items as [ | kv r IH ]; [ reflexivity | ].
  simpl. apply insert_item_ascending. exact IH.
Qed.

Lemma represent_items_keys rd items :
  (forall k ro nd ro', rd (PStr k) ro = Some (nd, ro') -> scalar_value nd = k) ->
  forall ro value best ro',
    represent_items rd items ro = Some (value, best, ro') ->
    map (fun kv => scalar_value kv.1) value = items.*1.
Proof.
  intros Hrd. induction items as [ | [k v] r IH ]; intros ro value best ro' H; simpl in H.
  - inversion H. reflexivity.
  - destruct (rd (PStr k) ro) as [ [nk ro1] | ] eqn:Ek; [ | discriminate ].
    destruct (rd v ro1) as [ [nv ro2] | ]; [ | discriminate ].
    destruct (represent_items rd r ro2) as [ [ [value' best'] ro3 ] | ] eqn:Er; [ | discriminate ].
    inversion H; subst. simpl. rewrite (Hrd _ _ _ _ Ek).
    change (k :: map (fun kv : node * node => scalar_value kv.1) value' = k :: r.*1).
    f_equal. exact (IH _ _ _ _ Er).
Qed.

(** X14.  A plain dict, as a caller may pass to [encode_error], is not
    written the way an [OrderedDict] is.  The YAML dumper has no representer
    of its own for it, so the library's [represent_dict] writes its items
    sorted by key, as a regular block mapping; [json.dumps] keeps the order
    in which the items were inserted. *)
Theorem plain_dict_keys_sorted n h l items ro nd ro' :
  h !! l = Some (PDict items) ->
  represent_data SaneYamlDumper n h (PRef l) ro = Some (nd, ro') ->
  (exists value,
     nd = MappingNode YAML_MAP_TAG value (Some false) /\
     map (fun kv => scalar_value kv.1) value = (sorted_items items).*1 /\
     ascending (sorted_items items).*1 = true /\
     forall kv, kv ∈ sorted_items items <-> kv ∈ items) /\
  (forall d, json_tree h (PRef l) = Some d ->
     exists xs, d = DDict xs /\ xs.*1 = items.*1).
Proof.
  intros Hl H. split.
  - destruct n as [ | n ]; [ discriminate | ]. simpl in H. rewrite Hl in H.
    unfold represent_dict, represent_odict in H. simpl in H.
    destruct (represent_items (represent_data SaneYamlDumper n h) (sorted_items items) ro)
      as [ [ [value best] ro1 ] | ] eqn:Ei; [ | discriminate ].
    inversion H; subst. exists value. split; [ reflexivity | ].
    split; [ | split; [ apply sorted_items_ascending | apply sorted_items_elem ] ].
    refine (represent_items_keys _ _ _ _ _ _ _ Ei).
    intros k ro0 nd0 ro0' E. destruct n; simpl in E; inversion E; apply represent_text_value.
  - intros d Hd. unfold json_tree in Hd.
    destruct (length h) as [ | m ]; [ discriminate | ]. simpl in Hd. rewrite Hl in Hd.
    destruct (mapM (json_tree_fuel m h) items.*2) as [ xs | ] eqn:E; [ | discriminate ].
    inversion Hd. exists (zip items.*1 xs). split; [ reflexivity | ].
    apply fst_zip. apply mapM_Some, Forall2_length in E. rewrite !length_fmap in *. lia.
Qed.

Lemma plain_dict_keys_sorted_witness :
  (exists value,
     fst <$> represent_data SaneYamlDumper 1 plain_dict_heap (PRef 0) ∅
       = Some (MappingNode YAML_MAP_TAG value (Some false)) /\
     map (fun kv => scalar_value kv.1) value = ["code"; "detail"]) /\
  json_tree plain_dict_heap (PRef 0) = Some (DDict [("detail", DStr "boom"); ("code", DInt 7)]).
Proof.
  split; [ | reflexivity ].
  assert (E : exists nd ro',
             represent_data SaneYamlDumper 1 plain_dict_heap (PRef 0) ∅ = Some (nd, ro')).
  { eexists _, _. vm_compute. reflexivity. }
  destruct E as (nd & ro' & E).
  destruct (plain_dict_keys_sorted 1 plain_dict_heap 0 _ ∅ nd ro' eq_refl E)
    as [(value & -> & Hk & _) _].
  exists value. rewrite E. split; [ reflexivity | exact Hk ].
Defined.
